(** * Verification of the documentation tools [generate-toc.py] and
    [update-stats.py]

    The development embeds the two Python scripts of the repository as
    executable Rocq functions and proves properties of the table-of-contents
    pipeline (header extraction, anchor generation, rendering, file update),
    of the README statistics updater and of the command-line driver.

    Text is a list of characters.  A character is a code point below 256
    (ASCII and the Latin-1 supplement), held in an [ascii]; on that range the
    character classes of Python's [re] module and [str.lower] are the tables
    given below. *)

From Stdlib Require Import String Ascii List ZArith NArith Lia Bool Arith.
From Stdlib Require Import DecimalString.
From Stdlib Require DecimalNat.
Import ListNotations.

Open Scope list_scope.

(* ================================================================== *)
(** * Text *)
(* ================================================================== *)

Definition str := list ascii.

(** A literal of the source, as text. *)
Definition txt (s : string) : str := list_ascii_of_string s.

Definition str_eq_dec : forall a b : str, {a = b} + {a <> b} :=
  list_eq_dec ascii_dec.

Definition str_eqb (a b : str) : bool :=
  if str_eq_dec a b then true else false.

(** [sep.join(lines)] *)
Fixpoint join (sep : str) (lines : list str) : str :=
  match lines with
  | [] => []
  | [l] => l
  | l :: ls => l ++ sep ++ join sep ls
  end.

(** [s * n] for a string [s] *)
Fixpoint str_mul (s : str) (n : nat) : str :=
  match n with
  | O => []
  | S k => s ++ str_mul s k
  end.

Fixpoint dropwhile (p : ascii -> bool) (s : str) : str :=
  match s with
  | [] => []
  | c :: s' => if p c then dropwhile p s' else s
  end.

Definition lstrip (p : ascii -> bool) (s : str) : str := dropwhile p s.
Definition rstrip (p : ascii -> bool) (s : str) : str :=
  rev (dropwhile p (rev s)).

(** [s.strip(chars)], the characters to strip given as a predicate *)
Definition strip (p : ascii -> bool) (s : str) : str := rstrip p (lstrip p s).

(** [str(n)] for a non-negative integer *)
Definition str_of_nat (n : nat) : str :=
  txt (NilEmpty.string_of_uint (Nat.to_uint n)).

(* ------------------------------------------------------------------ *)
(** ** Character classes *)

Definition newline : ascii := "010"%char.
Definition hyphen : ascii := "-"%char.
Definition hash : ascii := "#"%char.
Definition backslash : ascii := "\"%char.

Definition code (c : ascii) : N := N_of_ascii c.

Definition between (lo hi : N) (c : ascii) : bool :=
  ((lo <=? code c) && (code c <=? hi))%N.

Definition is_code (n : N) (c : ascii) : bool := (code c =? n)%N.

(** [\s]: the characters for which [str.isspace] holds. *)
Definition is_space (c : ascii) : bool :=
  between 9 13 c || between 28 32 c || is_code 133 c || is_code 160 c.

(** [\w]: alphanumeric characters and the underscore. *)
Definition is_word (c : ascii) : bool :=
  between 48 57 c || between 65 90 c || is_code 95 c || between 97 122 c
  || is_code 170 c || between 178 179 c || is_code 181 c
  || between 185 186 c || between 188 190 c
  || between 192 214 c || between 216 246 c || between 248 255 c.

(** [\d] *)
Definition is_digit (c : ascii) : bool := between 48 57 c.

(** [.] without [re.DOTALL] *)
Definition not_newline (c : ascii) : bool := negb (Ascii.eqb c newline).

(** [.] under [re.DOTALL] *)
Definition any_char (_ : ascii) : bool := true.

Definition is_char (x : ascii) (c : ascii) : bool := Ascii.eqb c x.

Fixpoint starts_with (pre s : str) : bool :=
  match pre, s with
  | [], _ => true
  | a :: pre', c :: s' => is_char a c && starts_with pre' s'
  | _ :: _, [] => false
  end.

(** [needle in s] *)
Fixpoint occurs (needle s : str) : bool :=
  starts_with needle s ||
  match s with
  | [] => false
  | _ :: s' => occurs needle s'
  end.

Definition lower_char (c : ascii) : ascii :=
  if between 65 90 c || between 192 214 c || between 216 222 c
  then ascii_of_N (code c + 32)
  else c.

(** [s.lower()] *)
Definition lower (s : str) : str := map lower_char s.

(** A literal character under [re.IGNORECASE]. *)
Definition is_char_ci (x : ascii) (c : ascii) : bool :=
  Ascii.eqb (lower_char c) (lower_char x).

(* ================================================================== *)
(** * Regular expressions

    The patterns of the two scripts are sequences of anchors and of
    character classes under a quantifier; a literal character is a class
    matched exactly once.  Every group of the source patterns encloses one
    such item, so the matcher reports the text consumed by each item.  The
    matcher backtracks in the order of Python's [re]: a greedy quantifier
    tries the longer repetition first, a lazy one the shorter. *)
(* ================================================================== *)

Inductive greed := Greedy | Lazy.

Inductive item :=
| Cls (p : ascii -> bool) (lo : nat) (hi : option nat) (g : greed)
| Bol   (** [^] under [re.MULTILINE] *)
| Eol.  (** [$] under [re.MULTILINE] *)

Definition regex := list item.

Definition one (p : ascii -> bool) : item := Cls p 1 (Some 1) Greedy.
Definition plus (p : ascii -> bool) : item := Cls p 1 None Greedy.

(** The pattern of a literal text. *)
Definition lit (s : str) : regex := map (fun x => one (is_char x)) s.

(** [re.escape(s)] compiled with [re.IGNORECASE] *)
Definition lit_ci (s : str) : regex := map (fun x => one (is_char_ci x)) s.

Definition at_bol (prev : option ascii) : bool :=
  match prev with
  | None => true
  | Some c => Ascii.eqb c newline
  end.

Definition at_eol (s : str) : bool :=
  match s with
  | [] => true
  | c :: _ => Ascii.eqb c newline
  end.

Definition below (n : nat) (hi : option nat) : bool :=
  match hi with
  | None => true
  | Some h => n <? h
  end.

(** Result of a match attempt: the text consumed by each item, and the
    unread rest of the input. *)
Definition outcome := option (list str * str).

Definition capture (c : str) (o : outcome) : outcome :=
  match o with
  | Some (caps, rest) => Some (c :: caps, rest)
  | None => None
  end.

Section Repetition.
Variables (p : ascii -> bool) (lo : nat) (hi : option nat) (g : greed).
(** What follows the repetition; its first argument tells whether an
    empty overall match is acceptable. *)
Variable k : bool -> option ascii -> str -> outcome.

(** [n] characters, held reversed in [acc], are already consumed. *)
Fixpoint rep (n : nat) (acc : str) (e : bool) (prev : option ascii)
         (s : str) {struct s} : outcome :=
  match g with
  | Greedy =>
      match
        match s with
        | c :: s' =>
            if p c && below n hi
            then rep (S n) (c :: acc) true (Some c) s'
            else None
        | [] => None
        end
      with
      | Some o => Some o
      | None => if lo <=? n then capture (rev acc) (k e prev s) else None
      end
  | Lazy =>
      match (if lo <=? n then capture (rev acc) (k e prev s) else None) with
      | Some o => Some o
      | None =>
          match s with
          | c :: s' =>
              if p c && below n hi
              then rep (S n) (c :: acc) true (Some c) s'
              else None
          | [] => None
          end
      end
  end.
End Repetition.

(** [match_here r e prev s]: match [r] at the start of [s], the character
    before it being [prev].  With [e = false] an empty match is refused
    (the matcher's [must_advance] state). *)
Fixpoint match_here (r : regex) (e : bool) (prev : option ascii) (s : str)
  : outcome :=
  match r with
  | [] => if e then Some ([], s) else None
  | Cls p lo hi g :: r' => rep p lo hi g (match_here r') 0 [] e prev s
  | Bol :: r' =>
      if at_bol prev then capture [] (match_here r' e prev s) else None
  | Eol :: r' =>
      if at_eol s then capture [] (match_here r' e prev s) else None
  end.

(** [pattern.search(s)]: the leftmost match, with the text before it. *)
Fixpoint search_from (r : regex) (prev : option ascii) (s : str)
  : option (str * list str * str) :=
  match match_here r true prev s with
  | Some (caps, rest) => Some ([], caps, rest)
  | None =>
      match s with
      | [] => None
      | c :: s' =>
          match search_from r (Some c) s' with
          | Some (pre, caps, rest) => Some (c :: pre, caps, rest)
          | None => None
          end
      end
  end.

Definition re_search (r : regex) (s : str) : option (str * list str * str) :=
  search_from r None s.

Definition found {A} (o : option A) : bool :=
  match o with Some _ => true | None => false end.

(** The successive non-overlapping matches of a scan, with the characters
    between them. *)
Inductive piece :=
| Gap (c : ascii)
| Hit (caps : list str).

Definition matched (caps : list str) : str := concat caps.

(** [skip] characters of [s] still belong to the match just reported. *)
Fixpoint scan (r : regex) (skip : nat) (prev : option ascii) (s : str)
  : list piece :=
  match skip with
  | S k =>
      match s with
      | c :: s' => scan r k (Some c) s'
      | [] => []
      end
  | O =>
      let onward :=
        match s with
        | c :: s' => Gap c :: scan r 0 (Some c) s'
        | [] => []
        end in
      let after (caps : list str) (k : nat) :=
        match s with
        | c :: s' => Hit caps :: scan r k (Some c) s'
        | [] => [Hit caps]
        end in
      match match_here r true prev s with
      | None => onward
      | Some (caps, _) =>
          match length (matched caps) with
          | S k => after caps k
          | O =>
              (* an empty match: the next attempt at this position has to
                 advance *)
              Hit caps ::
              match match_here r false prev s with
              | Some (caps', _) =>
                  match length (matched caps') with
                  | S k => after caps' k
                  | O => onward
                  end
              | None => onward
              end
          end
      end
  end.

Definition hits (ps : list piece) : list (list str) :=
  flat_map (fun x => match x with Hit caps => [caps] | Gap _ => [] end) ps.

(** [pattern.findall(s)], each match given by the texts of its items *)
Definition re_findall (r : regex) (s : str) : list (list str) :=
  hits (scan r 0 None s).

(* ------------------------------------------------------------------ *)
(** ** Replacement templates

    [re.sub] parses its replacement before scanning: a backslash starts an
    escape, and a malformed escape raises [re.error].  None of the patterns
    that the scripts substitute has a group, so the only group reference
    that parses is [\g<0>], the whole match (group names are decimal
    digits, as in current Python). *)

Inductive part :=
| Chr (c : ascii)
| Whole.

Definition is_octal (c : ascii) : bool := between 48 55 c.
Definition is_ascii_letter (c : ascii) : bool :=
  between 65 90 c || between 97 122 c.
Definition digit_val (c : ascii) : N := (code c - 48)%N.

(** The escapes that stand for one character. *)
Definition simple_escape (c : ascii) : option ascii :=
  if is_char "a" c then Some "007"%char
  else if is_char "b" c then Some "008"%char
  else if is_char "f" c then Some "012"%char
  else if is_char "n" c then Some "010"%char
  else if is_char "r" c then Some "013"%char
  else if is_char "t" c then Some "009"%char
  else if is_char "v" c then Some "011"%char
  else if is_char backslash c then Some backslash
  else None.

Inductive tstate :=
| Normal
| Name (empty zeros : bool).  (** inside [\g<...>] *)

Definition cons_part (x : part) (o : option (list part)) :=
  match o with Some t => Some (x :: t) | None => None end.

Fixpoint parse_from (st : tstate) (s : str) {struct s} : option (list part) :=
  match st with
  | Name empty zeros =>
      match s with
      | [] => None                              (* missing > *)
      | c :: s' =>
          if is_char ">" c
          then if negb empty && zeros
               then cons_part Whole (parse_from Normal s')
               else None                        (* no such group *)
          else parse_from (Name false (zeros && is_char "0" c)) s'
      end
  | Normal =>
      match s with
      | [] => Some []
      | c :: s1 =>
          if negb (is_char backslash c)
          then cons_part (Chr c) (parse_from Normal s1)
          else
            match s1 with
            | [] => None                        (* bad escape (end of pattern) *)
            | d :: s2 =>
                if is_char "g" d then
                  match s2 with
                  | l :: s3 =>
                      if is_char "<" l then parse_from (Name true true) s3
                      else None                 (* missing < *)
                  | [] => None
                  end
                else if is_char "0" d then
                  match s2 with
                  | d2 :: s3 =>
                      if is_octal d2 then
                        match s3 with
                        | d3 :: s4 =>
                            if is_octal d3
                            then cons_part
                                   (Chr (ascii_of_N
                                           (digit_val d2 * 8 + digit_val d3)))
                                   (parse_from Normal s4)
                            else cons_part (Chr (ascii_of_N (digit_val d2)))
                                           (parse_from Normal s3)
                        | [] => Some [Chr (ascii_of_N (digit_val d2))]
                        end
                      else cons_part (Chr zero) (parse_from Normal s2)
                  | [] => Some [Chr zero]
                  end
                else if is_digit d then
                  match s2 with
                  | d2 :: d3 :: s4 =>
                      let v := (digit_val d * 64 + digit_val d2 * 8
                                + digit_val d3)%N in
                      if is_octal d && is_octal d2 && is_octal d3
                         && (v <=? 255)%N
                      then cons_part (Chr (ascii_of_N v))
                                     (parse_from Normal s4)
                      else None                 (* invalid group reference *)
                  | _ => None
                  end
                else
                  match simple_escape d with
                  | Some x => cons_part (Chr x) (parse_from Normal s2)
                  | None =>
                      if is_ascii_letter d then None   (* bad escape *)
                      else cons_part (Chr c)
                             (cons_part (Chr d) (parse_from Normal s2))
                  end
            end
      end
  end.

Definition parse_template (repl : str) : option (list part) :=
  parse_from Normal repl.

(** The template of a replacement that holds no backslash. *)
Definition plain (repl : str) : list part := map Chr repl.

Definition expand (t : list part) (m : str) : str :=
  flat_map (fun x => match x with Chr c => [c] | Whole => m end) t.

Definition spend (count : option nat) : option nat :=
  match count with
  | Some n => Some (pred n)
  | None => None
  end.

Definition spent (count : option nat) : bool :=
  match count with
  | Some O => true
  | _ => false
  end.

(** The scanned text with its first [count] matches replaced (all of them
    for [None]). *)
Fixpoint render (t : list part) (count : option nat) (ps : list piece)
  : str :=
  match ps with
  | [] => []
  | Gap c :: ps' => c :: render t count ps'
  | Hit caps :: ps' =>
      if spent count
      then matched caps ++ render t count ps'
      else expand t (matched caps) ++ render t (spend count) ps'
  end.

Definition sub_with (t : list part) (r : regex) (count : option nat)
           (s : str) : str :=
  render t count (scan r 0 None s).

(** [pattern.sub(repl, s, count)]; [None] when the call raises. *)
Definition re_sub (r : regex) (repl : str) (count : option nat) (s : str)
  : option str :=
  match parse_template repl with
  | Some t => Some (sub_with t r count s)
  | None => None
  end.

(** The body of a [for] loop that appends to a list or skips. *)
Definition for_each {A B : Type} (body : A -> list B) (xs : list A)
           (acc : list B) : list B :=
  fold_left (fun acc x => acc ++ body x) xs acc.

(* ================================================================== *)
(** * [tools/generate-toc.py]: class [TOCGenerator] *)
(* ================================================================== *)

(** [^(#{1,6})\s+(.+)$] under [re.MULTILINE]; the groups are items 1 and 3. *)
Definition header_pattern : regex :=
  [Bol; Cls (is_char hash) 1 (Some 6) Greedy; plus is_space;
   plus not_newline; Eol].

Definition toc_start : str := txt "<!-- TOC START -->".
Definition toc_end : str := txt "<!-- TOC END -->".

(** [<!-- TOC START -->.*?<!-- TOC END -->] under [re.DOTALL] *)
Definition existing_toc_pattern : regex :=
  lit toc_start ++ [Cls any_char 0 None Lazy] ++ lit toc_end.

(** A header: level, title, anchor. *)
Definition header := (Z * str * str)%type.

Definition level (h : header) : Z := fst (fst h).
Definition title (h : header) : str := snd (fst h).
Definition anchor (h : header) : str := snd h.

(** [[^\w\s-]] *)
Definition special (c : ascii) : bool :=
  negb (is_word c || is_space c || is_char hyphen c).

Definition generate_anchor (title : str) : str :=
  (* Convert to lowercase *)
  let anchor := lower title in
  (* Replace spaces and special chars with hyphens *)
  let anchor := sub_with (plain []) [one special] None anchor in
  let anchor := sub_with (plain [hyphen]) [plus is_space] None anchor in
  (* Remove multiple consecutive hyphens *)
  let anchor := sub_with (plain [hyphen]) [plus (is_char hyphen)] None anchor in
  (* Remove leading/trailing hyphens *)
  strip (is_char hyphen) anchor.

Definition toc_titles : list str :=
  [txt "table of contents"; txt "contents"; txt "toc"].

Definition extract_headers (content : str) : list header :=
  let matches := re_findall header_pattern content in
  for_each
    (fun m =>
       let level := Z.of_nat (length (nth 1 m [])) in
       let title := strip is_space (nth 3 m []) in
       (* Skip if it's already a TOC header *)
       if existsb (str_eqb (lower title)) toc_titles then []
       else [(level, title, generate_anchor title)])
    matches [].

(** [min(level for level, _, _ in headers)] on a non-empty list *)
Definition min_level_of (headers : list header) : Z :=
  match headers with
  | [] => 0
  | h :: hs => fold_left (fun m x => Z.min m (level x)) hs (level h)
  end.

(** [f"{indent}- [{title}](#{anchor})"] *)
Definition toc_entry (min_level : Z) (h : header) : str :=
  let indent_level := (level h - min_level)%Z in
  let indent := str_mul (txt "  ") (Z.to_nat indent_level) in
  indent ++ txt "- [" ++ title h ++ txt "](#" ++ anchor h ++ txt ")".

(** The lines that [generate_toc] joins. *)
Definition toc_lines (headers : list header) (max_depth min_depth : Z)
  : list str :=
  let toc_lines := [toc_start; txt "## Table of Contents"; []] in
  (* Find the minimum level to normalize indentation *)
  let min_level := min_level_of headers in
  let toc_lines :=
    for_each
      (fun h =>
         (* Skip headers outside the specified depth range *)
         if (level h <? min_depth)%Z || (level h >? max_depth)%Z then []
         else [toc_entry min_level h])
      headers toc_lines in
  toc_lines ++ [[]; toc_end; []].

Definition generate_toc (headers : list header) (max_depth min_depth : Z)
  : str :=
  match headers with
  | [] => []
  | _ => join [newline] (toc_lines headers max_depth min_depth)
  end.

(* ------------------------------------------------------------------ *)
(** ** Files and printed messages

    A path is the sequence of its components.  The file system gives, for
    every path, what is found there; a directory lists the markdown files
    of [glob('*.md')] and of [rglob('*.md')].  Every write of the scripts
    follows a successful read of the same file. *)

Definition path := list str.

Definition path_eqb (a b : path) : bool :=
  if list_eq_dec str_eq_dec a b then true else false.

Inductive node :=
| Absent
| Regular (data : option str) (writable : bool)
| Directory (md md_rec : list path)
| Special.

Definition fs := path -> node.

Definition exists_path (f : fs) (p : path) : bool :=
  match f p with Absent => false | _ => true end.

Definition is_file (f : fs) (p : path) : bool :=
  match f p with Regular _ _ => true | _ => false end.

Definition is_dir (f : fs) (p : path) : bool :=
  match f p with Directory _ _ => true | _ => false end.

Definition glob_md (f : fs) (p : path) : list path :=
  match f p with Directory md _ => md | _ => [] end.

Definition rglob_md (f : fs) (p : path) : list path :=
  match f p with Directory _ md_rec => md_rec | _ => [] end.

(** [open(p, 'r').read()]; [None] when it raises. *)
Definition read_file (f : fs) (p : path) : option str :=
  match f p with
  | Regular (Some data) _ => Some data
  | _ => None
  end.

(** [open(p, 'w').write(data)]; [None] when it raises. *)
Definition write_file (f : fs) (p : path) (data : str) : option fs :=
  match f p with
  | Regular _ true =>
      Some (fun q => if path_eqb q p then Regular (Some data) true else f q)
  | _ => None
  end.

(** The lines the scripts print. *)
Inductive event :=
| NoHeadersFound (p : path)
| UpdatedExistingTOC (p : path)
| AddedNewTOC (p : path)
| ErrorProcessing (p : path)
| ErrorReading (p : path)
| ReadmeNotFound (p : path)
| UpdatedStatistics
| StatisticsNotFound
| UpdatedReadme
| ErrorUpdatingReadme
| ReadmeSuccess
| PathDoesNotExist (p : path)
| NotMarkdown (p : path)
| NoMarkdownFiles (p : path)
| FoundFiles (n : nat)
| Summary (succeeded total : nat)
| AllSucceeded
| SomeIssues
| NoneSucceeded.

(* ------------------------------------------------------------------ *)
(** ** [update_file_toc] *)

(** The text to write back and the message printed on the way: the body
    of the [try] between the read and the write, once headers are found.
    [None] when [re.sub] raises. *)
Definition updated_content (file_path : path) (content : str)
           (headers : list header) (max_depth min_depth : Z)
           (insert_after : option str) : option (str * event) :=
  (* Generate new TOC *)
  let new_toc := generate_toc headers max_depth min_depth in
  (* Check if TOC already exists *)
  if found (re_search existing_toc_pattern content) then
    (* Replace existing TOC *)
    match re_sub existing_toc_pattern new_toc None content with
    | Some updated => Some (updated, UpdatedExistingTOC file_path)
    | None => None
    end
  else
    (* Insert new TOC *)
    match insert_after with
    | Some ((_ :: _) as after) =>
        (* Insert after specified text *)
        let pattern := lit_ci after in
        if found (re_search pattern content) then
          match re_sub pattern (after ++ [newline; newline] ++ new_toc)
                       (Some 1) content with
          | Some updated => Some (updated, AddedNewTOC file_path)
          | None => None
          end
        else
          (* Insert at beginning if pattern not found *)
          Some (new_toc ++ [newline] ++ content, AddedNewTOC file_path)
    | _ =>
        (* Insert at the beginning *)
        Some (new_toc ++ [newline] ++ content, AddedNewTOC file_path)
    end.

(** Result, printed lines, file system afterwards. *)
Definition update_file_toc (f : fs) (file_path : path)
           (max_depth min_depth : Z) (insert_after : option str)
  : bool * list event * fs :=
  match read_file f file_path with
  | None => (false, [ErrorProcessing file_path], f)
  | Some content =>
      (* Extract headers *)
      match extract_headers content with
      | [] => (false, [NoHeadersFound file_path], f)
      | headers =>
          match updated_content file_path content headers
                                max_depth min_depth insert_after with
          | None => (false, [ErrorProcessing file_path], f)
          | Some (updated, msg) =>
              (* Write back to file *)
              match write_file f file_path updated with
              | Some f' => (true, [msg], f')
              | None => (false, [msg; ErrorProcessing file_path], f)
              end
          end
      end
  end.

(* ------------------------------------------------------------------ *)
(** ** [generate_repo_index] and [update_main_readme] *)

Record repo_index := {
  quick_reference : list str;
  detailed_guides : list str;
  platform_specific : list str
}.

(** [^## (.+)$] under [re.MULTILINE]; the group is item 4. *)
Definition issue_pattern : regex :=
  [Bol] ++ lit (txt "## ") ++ [plus not_newline; Eol].

(** [md_file.relative_to(repo_path)]; [None] when it raises. *)
Fixpoint relative_to (p base : path) : option path :=
  match base, p with
  | [], _ => Some p
  | b :: base', c :: p' => if str_eqb b c then relative_to p' base' else None
  | _ :: _, [] => None
  end.

(** [str(p)] of a relative path *)
Definition path_str (p : path) : str :=
  match p with
  | [] => txt "."
  | _ => join (txt "/") p
  end.

(** The links of one markdown file, or the warning printed for it. *)
Definition file_links (f : fs) (repo_path md_file : path)
  : list str * list event :=
  match read_file f md_file with
  | None => ([], [ErrorReading md_file])
  | Some content =>
      (* Extract issue titles (headers starting with ##) *)
      let issues := map (fun m => nth 4 m []) (re_findall issue_pattern content) in
      match issues with
      | [] => ([], [])
      | _ =>
          (* Create relative path for link *)
          match relative_to md_file repo_path with
          | None => ([], [ErrorReading md_file])
          | Some rel_path =>
              (map (fun issue =>
                      txt "[" ++ issue ++ txt "](" ++ path_str rel_path
                      ++ txt "#" ++ generate_anchor issue ++ txt ")")
                   issues, [])
          end
      end
  end.

Definition category_links (f : fs) (repo_path : path) (category : str)
  : list str * list event :=
  let category_path := repo_path ++ [category] in
  if negb (exists_path f category_path) then ([], [])
  else
    (* Find all markdown files *)
    fold_left
      (fun acc md_file =>
         let '(links, msgs) := file_links f repo_path md_file in
         (fst acc ++ links, snd acc ++ msgs))
      (rglob_md f category_path) ([], []).

Definition generate_repo_index (f : fs) (repo_path : path)
  : repo_index * list event :=
  let '(q, mq) := category_links f repo_path (txt "quick-reference") in
  let '(d, md) := category_links f repo_path (txt "detailed-guides") in
  let '(p, mp) := category_links f repo_path (txt "platform-specific") in
  ({| quick_reference := q; detailed_guides := d; platform_specific := p |},
   mq ++ md ++ mp).

(** [- \*\*Total Issues:\*\* \d+\n- \*\*Quick Fixes:\*\* \d+\n- \*\*Detailed Guides:\*\* \d+] *)
Definition stats_pattern : regex :=
  lit (txt "- **Total Issues:** ") ++ [plus is_digit]
  ++ lit (newline :: txt "- **Quick Fixes:** ") ++ [plus is_digit]
  ++ lit (newline :: txt "- **Detailed Guides:** ") ++ [plus is_digit].

(** [- \*\*Last Updated:\*\* \d{4}-\d{2}-\d{2}] *)
Definition date_pattern : regex :=
  lit (txt "- **Last Updated:** ")
  ++ [Cls is_digit 4 (Some 4) Greedy] ++ lit [hyphen]
  ++ [Cls is_digit 2 (Some 2) Greedy] ++ lit [hyphen]
  ++ [Cls is_digit 2 (Some 2) Greedy].

(** The date of the run, [datetime.now()], of a four-digit year. *)
Record date := { year : nat; month : nat; day : nat }.

Definition pad (width : nat) (n : nat) : str :=
  let d := str_of_nat n in
  repeat "0"%char (width - length d) ++ d.

(** [strftime("%Y-%m-%d")] *)
Definition iso_date (d : date) : str :=
  pad 4 (year d) ++ [hyphen] ++ pad 2 (month d) ++ [hyphen] ++ pad 2 (day d).

(** The statistics lines of [update_main_readme]. *)
Definition new_stats (total_issues quick_fixes detailed_guides : nat) : str :=
  txt "- **Total Issues:** " ++ str_of_nat total_issues ++ [newline]
  ++ txt "- **Quick Fixes:** " ++ str_of_nat quick_fixes ++ [newline]
  ++ txt "- **Detailed Guides:** " ++ str_of_nat detailed_guides.

Definition new_date (today : date) : str :=
  txt "- **Last Updated:** " ++ iso_date today.

Definition update_main_readme (f : fs) (today : date) (repo_path : path)
  : bool * list event * fs :=
  let readme_path := repo_path ++ [txt "README.md"] in
  if negb (exists_path f readme_path)
  then (false, [ReadmeNotFound readme_path], f)
  else
    (* Generate current index *)
    let '(index, msgs) := generate_repo_index f repo_path in
    (* Count statistics *)
    let quick_fixes := length (quick_reference index) in
    let detailed_guides := length (detailed_guides index) in
    let platform_specific := length (platform_specific index) in
    let total_issues := quick_fixes + detailed_guides + platform_specific in
    match read_file f readme_path with
    | None => (false, msgs ++ [ErrorUpdatingReadme], f)
    | Some content =>
        (* Update statistics *)
        if found (re_search stats_pattern content) then
          match re_sub stats_pattern
                  (new_stats total_issues quick_fixes detailed_guides)
                  None content with
          | None => (false, msgs ++ [ErrorUpdatingReadme], f)
          | Some updated_content =>
              (* Update last updated date *)
              match
                if found (re_search date_pattern updated_content)
                then re_sub date_pattern (new_date today) None
                            updated_content
                else Some updated_content
              with
              | None =>
                  (false, msgs ++ [UpdatedStatistics; ErrorUpdatingReadme], f)
              | Some updated_content =>
                  (* Write back *)
                  match write_file f readme_path updated_content with
                  | Some f' =>
                      (true, msgs ++ [UpdatedStatistics; UpdatedReadme], f')
                  | None =>
                      (false,
                       msgs ++ [UpdatedStatistics; ErrorUpdatingReadme], f)
                  end
              end
          end
        else (false, msgs ++ [StatisticsNotFound], f)
    end.

(* ------------------------------------------------------------------ *)
(** ** [main] *)

Record args := {
  arg_path : path;
  arg_max_depth : Z;
  arg_min_depth : Z;
  arg_insert_after : option str;
  arg_update_readme : bool;
  arg_recursive : bool
}.

(** [name.rfind('.')] *)
Fixpoint rfind_dot (name : str) : option nat :=
  match name with
  | [] => None
  | c :: rest =>
      match rfind_dot rest with
      | Some i => Some (S i)
      | None => if is_char "."%char c then Some 0 else None
      end
  end.

(** [path.suffix] *)
Definition suffix (p : path) : str :=
  let name := last p [] in
  match rfind_dot name with
  | Some i =>
      if (0 <? i) && (i <? length name - 1) then skipn i name else []
  | None => []
  end.

Definition summary (success_count total_count : nat) : list event :=
  [Summary success_count total_count;
   if success_count =? total_count then AllSucceeded
   else if 0 <? success_count then SomeIssues
   else NoneSucceeded].

(** The loop of [main] over the markdown files of a directory. *)
Definition process_files (a : args) (f : fs) (md_files : list path)
  : nat * list event * fs :=
  fold_left
    (fun st md_file =>
       let '(success_count, log, f) := st in
       let '(ok, msgs, f') :=
         update_file_toc f md_file (arg_max_depth a) (arg_min_depth a)
                         (arg_insert_after a) in
       (if ok then S success_count else success_count, log ++ msgs, f'))
    md_files (0, [], f).

(** Exit status, printed lines, file system afterwards. *)
Definition main (a : args) (today : date) (f : fs) : nat * list event * fs :=
  let path := arg_path a in
  if arg_update_readme a then
    (* Update main README with repository statistics *)
    let '(ok, msgs, f') := update_main_readme f today path in
    (0, msgs ++ (if ok then [ReadmeSuccess] else []), f')
  else if negb (exists_path f path) then
    (1, [PathDoesNotExist path], f)
  else if is_file f path then
    (* Process single file *)
    if str_eqb (lower (suffix path)) (txt ".md") then
      let '(ok, msgs, f') :=
        update_file_toc f path (arg_max_depth a) (arg_min_depth a)
                        (arg_insert_after a) in
      (0, msgs ++ summary (if ok then 1 else 0) 1, f')
    else (1, [NotMarkdown path], f)
  else if is_dir f path then
    (* Process directory *)
    let md_files :=
      if arg_recursive a then rglob_md f path else glob_md f path in
    let total_count := length md_files in
    if total_count =? 0 then (0, [NoMarkdownFiles path], f)
    else
      let '(success_count, msgs, f') := process_files a f md_files in
      (0, [FoundFiles total_count] ++ msgs
          ++ summary success_count total_count, f')
  else (0, summary 0 0, f).

(* ================================================================== *)
(** * [tools/update-stats.py] *)
(* ================================================================== *)

Module UpdateStats.

(** [^##\s+] under [re.MULTILINE] *)
Definition sections_pattern : regex :=
  [Bol] ++ lit (txt "##") ++ [plus is_space].

(** [str(n)] for an integer *)
Definition str_of_Z (n : Z) : str :=
  txt (NilEmpty.string_of_int (Z.to_int n)).

(** The count that [count_issues_in_file] returns for a file of the given
    content. *)
Definition count_issues (content : str) : Z :=
  (* Count sections that start with ## (excluding the first one which is
     usually the title) *)
  let sections := re_findall sections_pattern content in
  match sections with
  | [] => 0
  | _ => Z.of_nat (length sections) - 1
  end.

(** [None] when the file cannot be read: the exception is not caught. *)
Definition count_issues_in_file (f : fs) (file_path : path) : option Z :=
  option_map count_issues (read_file f file_path).

Definition count_files (f : fs) (files : list path) : option Z :=
  fold_left
    (fun total file =>
       match total, count_issues_in_file f file with
       | Some t, Some n => Some (t + n)%Z
       | _, _ => None
       end)
    files (Some 0%Z).

Definition count_quick_fixes (f : fs) : option Z :=
  count_files f (glob_md f [txt "quick-reference"]).

Definition count_detailed_guides (f : fs) : option Z :=
  count_files f (rglob_md f [txt "detailed-guides"]).

Record stats := {
  total_issues : Z;
  quick_fixes : Z;
  detailed_guides : Z
}.

(** The counts at the head of [update_readme_stats]. *)
Definition readme_stats (f : fs) : option stats :=
  match count_quick_fixes f with
  | None => None
  | Some quick_fixes =>
      match count_detailed_guides f with
      | None => None
      | Some detailed_guides =>
          Some {| total_issues := quick_fixes + detailed_guides;
                  quick_fixes := quick_fixes;
                  detailed_guides := detailed_guides |}
      end
  end.

(** The statistics section that [update_readme_stats] publishes. *)
Definition new_stats (st : stats) (last_updated : str) : str :=
  txt "## Statistics" ++ [newline; newline]
  ++ txt "- **Total Issues:** " ++ str_of_Z (total_issues st) ++ [newline]
  ++ txt "- **Quick Fixes:** " ++ str_of_Z (quick_fixes st) ++ [newline]
  ++ txt "- **Detailed Guides:** " ++ str_of_Z (detailed_guides st)
  ++ [newline]
  ++ txt "- **Last Updated:** " ++ last_updated ++ [newline].

(** [## Statistics\n\n], the fixed text at the head of [stats_pattern] *)
Definition stats_head : str := txt "## Statistics" ++ [newline; newline].

(** [(?=\n##|\Z)] *)
Definition section_ahead (s : str) : bool :=
  match s with
  | [] => true
  | _ => starts_with (newline :: txt "##") s
  end.

(** [(.*?)(?=\n##|\Z)] under [re.DOTALL]: the group, and the text behind
    it *)
Fixpoint lazy_body (s : str) : str * str :=
  if section_ahead s then ([], s)
  else
    match s with
    | [] => ([], [])
    | c :: s' => let '(body, rest) := lazy_body s' in (c :: body, rest)
    end.

(** [stats_pattern], which is [## Statistics\n\n(.*?)(?=\n##|\Z)] under
    [re.DOTALL], at the head of [s]: the text matched, and the text behind
    it *)
Definition match_stats (s : str) : option (str * str) :=
  if starts_with stats_head s
  then
    let '(body, rest) := lazy_body (skipn (length stats_head) s) in
    Some (stats_head ++ body, rest)
  else None.

(** [re.search(stats_pattern, content, re.DOTALL)], as a truth value *)
Fixpoint search_stats (s : str) : bool :=
  match match_stats s with
  | Some _ => true
  | None =>
      match s with
      | [] => false
      | _ :: s' => search_stats s'
      end
  end.

(** [re.sub(stats_pattern, repl, content, flags=re.DOTALL)] for the parsed
    replacement [t]; [skip] characters of [s] still belong to the match
    just replaced.  A match is never empty. *)
Fixpoint sub_stats (t : list part) (skip : nat) (s : str) : str :=
  match s with
  | [] => []
  | c :: s' =>
      match skip with
      | S k => sub_stats t k s'
      | O =>
          match match_stats s with
          | Some (m, _) => expand t m ++ sub_stats t (length m - 1) s'
          | None => c :: sub_stats t 0 s'
          end
      end
  end.

(** [s.split(sep)] for a separator that is not empty; [skip] characters of
    [s] still belong to the separator just found. *)
Fixpoint split (sep : str) (skip : nat) (s : str) : list str :=
  match s with
  | [] => [[]]
  | c :: s' =>
      match skip with
      | S k => split sep k s'
      | O =>
          if starts_with sep s
          then [] :: split sep (length sep - 1) s'
          else
            match split sep 0 s' with
            | x :: xs => (c :: x) :: xs
            | [] => [[c]]
            end
      end
  end.

(** [l.insert(-1, x)] *)
Fixpoint insert_before_last {A : Type} (x : A) (l : list A) : list A :=
  match l with
  | [] => [x]
  | [y] => [x; y]
  | y :: l' => y :: insert_before_last x l'
  end.

(** The README text that [update_readme_stats] writes; [None] when
    [re.sub] raises.  The replacement is parsed as for a pattern without
    groups: the statistics section holds no backslash, so that no
    reference to the group of the pattern can occur in it. *)
Definition new_content (content new_stats : str) : option str :=
  (* Replace the statistics section *)
  if search_stats content then
    match parse_template new_stats with
    | Some t => Some (sub_stats t 0 content)
    | None => None
    end
  else
    (* If statistics section doesn't exist, add it before the last
       section *)
    let sections := split (newline :: txt "## ") 0 content in
    if 1 <? length sections then
      Some (join (newline :: txt "## ")
              (insert_before_last
                 (lstrip (fun c => is_char hash c || is_char " " c) new_stats)
                 sections))
    else Some (content ++ [newline] ++ new_stats).

(** The lines printed at the end. *)
Definition report (st : stats) (last_updated : str) : list str :=
  [txt "Statistics updated:";
   txt "- Total Issues: " ++ str_of_Z (total_issues st);
   txt "- Quick Fixes: " ++ str_of_Z (quick_fixes st);
   txt "- Detailed Guides: " ++ str_of_Z (detailed_guides st);
   txt "- Last Updated: " ++ last_updated].

(** The lines printed and the file system afterwards; [None] when the
    script ends with an exception, none of which it catches, before it
    has written. *)
Definition update_readme_stats (f : fs) (today : date)
  : option (list str * fs) :=
  match readme_stats f with
  | None => None
  | Some st =>
      let last_updated := iso_date today in
      (* Read the current README *)
      match read_file f [txt "README.md"] with
      | None => None
      | Some content =>
          match new_content content (new_stats st last_updated) with
          | None => None
          | Some updated =>
              (* Write the updated content *)
              match write_file f [txt "README.md"] updated with
              | None => None
              | Some f' => Some (report st last_updated, f')
              end
          end
      end
  end.

End UpdateStats.

(* ================================================================== *)
(** * Notions used in the statements *)
(* ================================================================== *)

Fixpoint takewhile (p : ascii -> bool) (s : str) : str :=
  match s with
  | [] => []
  | c :: s' => if p c then c :: takewhile p s' else []
  end.

(** The character before the position reached after reading [x]. *)
Definition prev_after (prev : option ascii) (x : str) : option ascii :=
  fold_left (fun _ c => Some c) x prev.

Definition captures (cs : list str) (o : outcome) : outcome :=
  match o with
  | Some (caps, rest) => Some (cs ++ caps, rest)
  | None => None
  end.

(** The first characters of [s] lie in the classes [ps], one each. *)
Fixpoint ones_match (ps : list (ascii -> bool)) (s : str) : bool :=
  match ps, s with
  | [], _ => true
  | p :: ps', c :: s' => p c && ones_match ps' s'
  | _ :: _, [] => false
  end.

Definition chars (s : str) : list str := map (fun c => [c]) s.

Definition item_text (it : item) (cap : str) : Prop :=
  match it with
  | Cls p _ _ _ => Forall (fun c => p c = true) cap
  | Bol | Eol => cap = []
  end.

(** [B] starts at no position of [x] in the text [x ++ tail]. *)
Fixpoint absent_until (B x tail : str) : bool :=
  match x with
  | [] => true
  | _ :: x' => negb (starts_with B (x ++ tail)) && absent_until B x' tail
  end.

(** The slug rule in words: of the lowercased title keep the allowed
    characters, turn every run of whitespace into one hyphen, then every
    run of hyphens into one, and strip the hyphens at both ends. *)
Fixpoint collapse_from (p : ascii -> bool) (inrun : bool) (s : str) : str :=
  match s with
  | [] => []
  | c :: s' =>
      if p c
      then if inrun then collapse_from p true s'
           else hyphen :: collapse_from p true s'
      else c :: collapse_from p false s'
  end.

(** Every maximal run of [p]-characters becomes one hyphen. *)
Definition collapse (p : ascii -> bool) (s : str) : str :=
  collapse_from p false s.

Definition slug (allowed : ascii -> bool) (t : str) : str :=
  strip (is_char hyphen)
    (collapse (is_char hyphen)
       (collapse is_space (filter allowed (lower t)))).

(** The rule as the specification words it: letters, digits, underscores
    and whitespace are kept. *)
Definition spec_allowed (c : ascii) : bool := is_word c || is_space c.
Definition spec_anchor (t : str) : str := slug spec_allowed t.

(** The characters that the class [[^\w\s-]] leaves in place. *)
Definition kept (c : ascii) : bool :=
  is_word c || is_space c || is_char hyphen c.

(** No two adjacent hyphens; [b] tells whether a hyphen came just before. *)
Fixpoint single_hyphens (b : bool) (s : str) : bool :=
  match s with
  | [] => true
  | c :: s' =>
      if is_char hyphen c then negb b && single_hyphens true s'
      else single_hyphens false s'
  end.

(** The characters of a slug: kept, not whitespace, already lowercase. *)
Definition tidy (c : ascii) : Prop :=
  kept c = true /\ is_space c = false /\ lower_char c = c.

(** A header is listed when its level lies within the depth window. *)
Definition visible (max_depth min_depth : Z) (h : header) : bool :=
  (min_depth <=? level h)%Z && (level h <=? max_depth)%Z.

(** No line of [x] starts with [#]; [bol] tells whether [x] starts a
    line. *)
Fixpoint quiet (bol : bool) (x : str) : bool :=
  match x with
  | [] => true
  | c :: x' => negb (bol && is_char hash c) && quiet (is_char newline c) x'
  end.

(** A line without a line break that does not start with [#]. *)
Definition dead_line (e : str) : bool :=
  negb (starts_with [hash] e) && forallb not_newline e.

(** The lines [es], each closed by a line break. *)
Definition lines_text (es : list str) : str :=
  concat (map (fun e => e ++ [newline]) es).

(** Titles and anchors without a line break. *)
Definition clean (h : header) : Prop :=
  forallb not_newline (title h) = true /\
  forallb not_newline (anchor h) = true.

(** What [extract_headers] returns for one match. *)
Definition header_of (m : list str) : list header :=
  let title := strip is_space (nth 3 m []) in
  if existsb (str_eqb (lower title)) toc_titles then []
  else [(Z.of_nat (length (nth 1 m [])), title, generate_anchor title)].

(** The entry lines of a rendered block. *)
Definition entries (hs : list header) (max_depth min_depth : Z) : list str :=
  map (toc_entry (min_level_of hs)) (filter (visible max_depth min_depth) hs).

(** What a rendered block holds between its sentinels. *)
Definition toc_body (es : list str) : str :=
  (newline :: txt "## Table of Contents" ++ newline :: newline
   :: lines_text es) ++ [newline].

Definition toc_block (es : list str) : str :=
  toc_start ++ toc_body es ++ toc_end.

(** The sentinel-delimited blocks of a text, in order. *)
Definition blocks (content : str) : list str :=
  map matched (re_findall existing_toc_pattern content).

(** The insert-after text is not given, is empty, or does not occur in
    the content (compared without regard to case). *)
Definition insert_after_absent (content : str) (insert_after : option str)
  : Prop :=
  match insert_after with
  | Some (c :: after) => re_search (lit_ci (c :: after)) content = None
  | _ => True
  end.

(** The text starts with [##] and a whitespace character. *)
Definition begins_section (s : str) : bool :=
  match s with
  | a :: b :: c :: _ => is_char hash a && is_char hash b && is_space c
  | _ => false
  end.

(** The number of lines of [s] whose beginning passes [test]; [bol] tells
    whether [s] starts a line. *)
Fixpoint count_lines (test : str -> bool) (bol : bool) (s : str) : nat :=
  match s with
  | [] => 0
  | c :: s' =>
      (if bol && test s then 1 else 0)
      + count_lines test (is_char newline c) s'
  end.

(** The count of a file as the specification words it: the lines that
    begin with "## ", minus one. *)
Definition spec_count_issues (content : str) : Z :=
  Z.of_nat (count_lines (starts_with (txt "## ")) true content) - 1.

Definition sum_Z (l : list Z) : Z := fold_right Z.add 0%Z l.

(** The README with its date line, where it has one, set to today. *)
Definition stamp (today : date) (content : str) : str :=
  if found (re_search date_pattern content)
  then sub_with (plain (new_date today)) date_pattern None content
  else content.

(** Patterns without [^] do not look at the character before. *)
Definition no_bol (r : regex) : Prop :=
  Forall (fun it => it <> Bol) r.

Definition is_summary (ev : event) : bool :=
  match ev with
  | Summary _ _ => true
  | _ => false
  end.

Definition no_summary (log : list event) : Prop :=
  Forall (fun ev => is_summary ev = false) log.

(** How many characters an item may consume. *)
Definition item_count (it : item) (cap : str) : Prop :=
  match it with
  | Cls _ lo hi _ =>
      lo <= length cap /\ forall h, hi = Some h -> length cap <= h
  | Bol | Eol => True
  end.

(** The title of a header is one of the labels of a table of contents. *)
Definition toc_label (title : str) : bool :=
  existsb (str_eqb (lower title)) toc_titles.

(** The characters an anchor is made of. *)
Definition anchor_char (c : ascii) : bool :=
  (is_word c || is_char hyphen c) && Ascii.eqb (lower_char c) c.

(** The files a run may write to. *)
Definition targets (a : args) (f : fs) : list path :=
  if arg_update_readme a then [arg_path a ++ [txt "README.md"]]
  else if is_file f (arg_path a) then [arg_path a]
  else if arg_recursive a then rglob_md f (arg_path a)
  else glob_md f (arg_path a).




(** [s.endswith(suffix)] *)
Definition ends_with (suffix s : str) : bool :=
  starts_with (rev suffix) (rev s).

(** A replacement that [re.sub] puts in as it stands: read as a template
    it is its own characters (so for every text without backslash). *)
Definition literal_template (repl : str) : Prop :=
  parse_template repl = Some (plain repl).

(** The table rendered from [hs] can be found again and put in again: no
    title listed in it holds the closing sentinel, and as a replacement
    the table is put in as it stands. *)
Definition table_fit (hs : list header) (max_depth min_depth : Z) : Prop :=
  Forall (fun h => occurs toc_end (title h) = false)
         (filter (visible max_depth min_depth) hs) /\
  literal_template (generate_toc hs max_depth min_depth).

(** Where the first update puts the rendered block: the text in front of
    it and the text behind it. *)
Definition insertion (content : str) (insert_after : option str)
  : str * str :=
  match insert_after with
  | Some ((_ :: _) as after) =>
      match re_search (lit_ci after) content with
      | Some (pre, _, post) => (pre ++ after ++ [newline; newline], post)
      | None => ([], newline :: content)
      end
  | _ => ([], newline :: content)
  end.

(** What the round trip asks where the insert-after text occurs: the
    replacement is put in as it stands, no opening sentinel stands in
    front of the block, and the file with the block in it has headers
    whose table can be found and put in again. *)
Definition insertion_fit (content : str) (insert_after : option str)
           (max_depth min_depth : Z) : Prop :=
  match insert_after with
  | Some ((_ :: _) as after) =>
      match re_search (lit_ci after) content with
      | Some (pre, _, post) =>
          let toc := generate_toc (extract_headers content)
                                  max_depth min_depth in
          let updated := pre ++ after ++ [newline; newline] ++ toc ++ post in
          literal_template (after ++ [newline; newline] ++ toc) /\
          occurs toc_start (pre ++ after) = false /\
          extract_headers updated <> [] /\
          table_fit (extract_headers updated) max_depth min_depth
      | None => True
      end
  | _ => True
  end.

(** The updates of the files of a run, one after the other: for each file
    whether it succeeded, and the lines it printed. *)
Fixpoint outcomes (a : args) (f : fs) (files : list path)
  : list (bool * list event) :=
  match files with
  | [] => []
  | md_file :: rest =>
      let r := update_file_toc f md_file (arg_max_depth a) (arg_min_depth a)
                               (arg_insert_after a) in
      fst r :: outcomes a (snd r) rest
  end.

(** The files that a run without the README flag works on, and the line
    it prints before it starts on them. *)
Definition run_files (a : args) (f : fs) : list path :=
  if is_file f (arg_path a) then [arg_path a]
  else if is_dir f (arg_path a) then
    if arg_recursive a then rglob_md f (arg_path a)
    else glob_md f (arg_path a)
  else [].

Definition run_heading (a : args) (f : fs) : list event :=
  if is_file f (arg_path a) then []
  else if is_dir f (arg_path a) then [FoundFiles (length (run_files a f))]
  else [].

(* ================================================================== *)
(** * Properties of the matcher *)
(* ================================================================== *)

(** The matcher on small inputs, with the results of Python's [re]. *)

Example findall_lazy_star :
  re_findall [Cls (is_char "x"%char) 0 None Lazy] (txt "xa")
  = [[[]]; [txt "x"]; [[]]; [[]]].
Proof. reflexivity. Qed.

Example sub_greedy_star :
  re_sub [Cls (is_char "x"%char) 0 None Greedy] (txt "-") None (txt "abxd")
  = Some (txt "-a-b--d-").
Proof. reflexivity. Qed.

Example findall_headers :
  re_findall header_pattern (txt "#

foo
####### x
#  a b
## c")
  = [[[]; txt "#"; [newline; newline]; txt "foo"; []];
     [[]; txt "#"; txt "  "; txt "a b"; []];
     [[]; txt "##"; txt " "; txt "c"; []]].
Proof. reflexivity. Qed.

Example sub_whole_match :
  re_sub (lit (txt "X")) (txt "a\g<0>b") None (txt "[X]")
  = Some (txt "[aXb]").
Proof. reflexivity. Qed.

Example sub_bad_escape :
  re_sub (lit (txt "X")) (txt "C:\path") None (txt "[X]") = None.
Proof. reflexivity. Qed.

Example sub_count_one :
  re_sub (lit_ci (txt "ab")) (txt "-") (Some 1) (txt "xAbxaB")
  = Some (txt "x-xaB").
Proof. reflexivity. Qed.

Lemma is_char_eq x c : is_char x c = true <-> c = x.
Proof. apply Ascii.eqb_eq. Qed.

Lemma takewhile_dropwhile p s : takewhile p s ++ dropwhile p s = s.
Proof.
  induction s as [|c s IH]; cbn; [reflexivity|].
  destruct (p c); cbn; [now rewrite IH | reflexivity].
Qed.

Lemma takewhile_all p s : Forall (fun c => p c = true) (takewhile p s).
Proof.
  induction s as [|c s IH]; cbn; [constructor|].
  destruct (p c) eqn:E; [constructor; assumption | constructor].
Qed.

Lemma for_each_flat_map {A B} (body : A -> list B) xs acc :
  for_each body xs acc = acc ++ flat_map body xs.
Proof.
  unfold for_each. revert acc.
  induction xs as [|x xs IH]; intros acc; cbn.
  - now rewrite app_nil_r.
  - now rewrite IH, <- app_assoc.
Qed.

Lemma match_bol r e prev s :
  match_here (Bol :: r) e prev s =
  if at_bol prev then capture [] (match_here r e prev s) else None.
Proof. reflexivity. Qed.

Lemma match_eol r e prev s :
  match_here (Eol :: r) e prev s =
  if at_eol s then capture [] (match_here r e prev s) else None.
Proof. reflexivity. Qed.

(** A class matched exactly once consumes one character of the class. *)
Lemma match_one p r e prev s :
  match_here (one p :: r) e prev s =
  match s with
  | c :: s' => if p c then capture [c] (match_here r true (Some c) s') else None
  | [] => None
  end.
Proof.
  destruct s as [|c s]; cbn; [reflexivity|].
  destruct (p c); cbn; [|reflexivity].
  destruct s as [|c' s]; cbn; [|rewrite andb_false_r];
    now destruct (capture _ _).
Qed.

(** A greedy [+] at the end of a pattern takes the longest run. *)
Lemma rep_plus_end p n acc prev s :
  rep p 1 None Greedy (match_here []) (S n) acc true prev s =
  Some ([rev acc ++ takewhile p s], dropwhile p s).
Proof.
  revert n acc prev.
  induction s as [|c s IH]; intros n acc prev; cbn.
  - now rewrite app_nil_r.
  - destruct (p c); cbn.
    + rewrite IH. cbn. now rewrite <- app_assoc.
    + now rewrite app_nil_r.
Qed.

Lemma match_plus_end p e prev s :
  match_here [plus p] e prev s =
  match s with
  | c :: s' =>
      if p c then Some ([c :: takewhile p s'], dropwhile p s') else None
  | [] => None
  end.
Proof.
  destruct s as [|c s]; cbn; [reflexivity|].
  destruct (p c); cbn; [|reflexivity].
  now rewrite rep_plus_end.
Qed.

(** Skipping the rest of a match. *)
Lemma scan_skip r x : forall prev y,
  scan r (length x) prev (x ++ y) = scan r 0 (prev_after prev x) y.
Proof.
  induction x as [|c x IH]; intros prev y; [reflexivity|].
  cbn [length app scan]. now rewrite IH.
Qed.

(* ------------------------------------------------------------------ *)
(** ** Literal texts *)

Lemma matched_chars s : matched (chars s) = s.
Proof.
  unfold matched, chars.
  induction s as [|c s IH]; cbn; [reflexivity | now rewrite IH].
Qed.

Lemma matched_app a b : matched (a ++ b) = matched a ++ matched b.
Proof. apply concat_app. Qed.

Lemma match_ones ps : forall r e prev s,
  match_here (map one ps ++ r) e prev s =
  if ones_match ps s
  then captures (chars (firstn (length ps) s))
         (match_here r (match ps with [] => e | _ => true end)
            (prev_after prev (firstn (length ps) s))
            (skipn (length ps) s))
  else None.
Proof.
  induction ps as [|p ps IH]; intros r e prev s.
  - cbn. now destruct (match_here r e prev s) as [[]|].
  - cbn [map app]. rewrite match_one.
    destruct s as [|c s]; [reflexivity|]. cbn [ones_match].
    destruct (p c); [|reflexivity]. cbn [andb length firstn skipn].
    rewrite IH. destruct (ones_match ps s); [|reflexivity].
    cbn [chars map prev_after fold_left].
    destruct ps; cbn;
      now destruct (match_here r true _ _) as [[]|].
Qed.

Lemma lit_ones n : lit n = map one (map is_char n).
Proof. unfold lit. now rewrite map_map. Qed.

Lemma ones_match_lit n s : ones_match (map is_char n) s = starts_with n s.
Proof.
  revert s. induction n as [|a n IH]; intros [|c s]; cbn; try reflexivity.
  now rewrite IH.
Qed.

Lemma starts_with_app n s : starts_with n (n ++ s) = true.
Proof.
  induction n as [|a n IH]; cbn; [reflexivity|].
  rewrite IH. unfold is_char. now rewrite Ascii.eqb_refl.
Qed.

Lemma starts_with_firstn n s :
  starts_with n s = true -> firstn (length n) s = n.
Proof.
  revert s. induction n as [|a n IH]; intros [|c s]; cbn; try easy.
  intros H. apply andb_true_iff in H. destruct H as [H1 H2].
  apply is_char_eq in H1. subst c. now rewrite IH.
Qed.

(** A literal at the head of a pattern. *)
Lemma match_lit n r e prev s :
  match_here (lit n ++ r) e prev s =
  if starts_with n s
  then captures (chars n)
         (match_here r (match n with [] => e | _ => true end)
            (prev_after prev n) (skipn (length n) s))
  else None.
Proof.
  rewrite lit_ones, match_ones, ones_match_lit, !length_map.
  destruct (starts_with n s) eqn:E; [|reflexivity].
  rewrite (starts_with_firstn _ _ E). now destruct n.
Qed.

(* ------------------------------------------------------------------ *)
(** ** What a match consists of *)

Lemma rep_sound p lo hi g k s : forall n acc e prev caps rest,
  rep p lo hi g k n acc e prev s = Some (caps, rest) ->
  exists x s' e' prev' caps',
    s = x ++ s' /\ Forall (fun c => p c = true) x /\
    caps = (rev acc ++ x) :: caps' /\ k e' prev' s' = Some (caps', rest).
Proof.
  induction s as [|c s IH]; intros n acc e prev caps rest H.
  - assert (Hk : capture (rev acc) (k e prev []) = Some (caps, rest)).
    { destruct g; cbn in H; destruct (lo <=? n); try discriminate;
        try assumption; now destruct (capture _ _). }
    destruct (k e prev []) as [[caps' rest']|] eqn:Ek; [|discriminate].
    injection Hk as <- <-.
    exists [], [], e, prev, caps'. rewrite !app_nil_r. auto.
  - assert (Hcases :
      (p c = true /\
       rep p lo hi g k (S n) (c :: acc) true (Some c) s = Some (caps, rest))
      \/ capture (rev acc) (k e prev (c :: s)) = Some (caps, rest)).
    { destruct g; cbn in H.
      - destruct (p c && below n hi) eqn:Ep.
        + destruct (rep p lo hi Greedy k (S n) (c :: acc) true (Some c) s)
            as [o|] eqn:Er.
          * left. apply andb_true_iff in Ep. now destruct Ep.
          * right. now destruct (lo <=? n).
        + right. now destruct (lo <=? n).
      - destruct (if lo <=? n then capture (rev acc) (k e prev (c :: s))
                  else None) as [o|] eqn:Es.
        + right. destruct (lo <=? n); [|discriminate]. congruence.
        + left. destruct (p c && below n hi) eqn:Ep; [|discriminate].
          apply andb_true_iff in Ep. now destruct Ep. }
    destruct Hcases as [[Hp Hr] | Hk].
    + apply IH in Hr.
      destruct Hr as (x & s' & e' & prev' & caps' & -> & Hx & -> & Hk).
      exists (c :: x), s', e', prev', caps'. cbn.
      rewrite <- app_assoc. cbn. auto.
    + destruct (k e prev (c :: s)) as [[caps' rest']|] eqn:Ek; [|discriminate].
      injection Hk as <- <-.
      exists [], (c :: s), e, prev, caps'. rewrite !app_nil_r. auto.
Qed.

(** The captures of a match spell the text consumed, item by item. *)
Lemma match_here_sound r : forall e prev s caps rest,
  match_here r e prev s = Some (caps, rest) ->
  s = matched caps ++ rest /\ Forall2 item_text r caps.
Proof.
  induction r as [|it r IH]; intros e prev s caps rest H.
  - cbn in H. destruct e; [|discriminate]. injection H as <- <-.
    split; [reflexivity | constructor].
  - destruct it as [p lo hi g| |]; cbn [match_here] in H.
    + apply rep_sound in H.
      destruct H as (x & s' & e' & prev' & caps' & -> & Hx & -> & Hk).
      apply IH in Hk. destruct Hk as [-> Hf]. cbn.
      split; [now rewrite <- app_assoc | now constructor].
    + destruct (at_bol prev); [|discriminate].
      destruct (match_here r e prev s) as [[caps' rest']|] eqn:Ek;
        [|discriminate].
      injection H as <- <-. apply IH in Ek. destruct Ek as [-> Hf].
      split; [reflexivity | now constructor].
    + destruct (at_eol s); [|discriminate].
      destruct (match_here r e prev s) as [[caps' rest']|] eqn:Ek;
        [|discriminate].
      injection H as <- <-. apply IH in Ek. destruct Ek as [-> Hf].
      split; [reflexivity | now constructor].
Qed.

(* ------------------------------------------------------------------ *)
(** ** The character before the match

    Only [^] looks at it, and only to tell whether a line starts. *)

Lemma match_here_prev r : forall e p1 p2 s,
  at_bol p1 = at_bol p2 -> match_here r e p1 s = match_here r e p2 s.
Proof.
  induction r as [|it r IH]; intros e p1 p2 s H; [reflexivity|].
  destruct it as [p lo hi g| |]; cbn [match_here].
  - destruct s as [|c s], g; cbn; now rewrite (IH e p1 p2 _ H).
  - now rewrite H, (IH e p1 p2 s H).
  - now rewrite (IH e p1 p2 s H).
Qed.

Lemma scan_prev r k p1 p2 s :
  at_bol p1 = at_bol p2 -> scan r k p1 s = scan r k p2 s.
Proof.
  intros H. destruct k as [|k]; [|now destruct s].
  destruct s as [|c s]; cbn [scan];
    now rewrite !(match_here_prev r _ p1 p2 _ H).
Qed.

Lemma search_from_prev r p1 p2 s :
  at_bol p1 = at_bol p2 -> search_from r p1 s = search_from r p2 s.
Proof.
  intros H. destruct s as [|c s]; cbn [search_from];
    now rewrite (match_here_prev r _ p1 p2 _ H).
Qed.

(* ------------------------------------------------------------------ *)
(** ** Scanning *)

(** A non-empty match is reported and the scan goes on behind it. *)
Lemma scan_hit r prev s caps rest :
  match_here r true prev s = Some (caps, rest) ->
  matched caps <> [] ->
  scan r 0 prev s =
  Hit caps :: scan r 0 (prev_after prev (matched caps)) rest.
Proof.
  intros H Hne. destruct (match_here_sound _ _ _ _ _ _ H) as [-> _].
  destruct (matched caps) as [|c m] eqn:Em; [congruence|].
  cbn [app scan]. cbn [app] in H. rewrite H, Em. cbn [length].
  now rewrite scan_skip.
Qed.

Lemma scan_miss r prev c s :
  match_here r true prev (c :: s) = None ->
  scan r 0 prev (c :: s) = Gap c :: scan r 0 (Some c) s.
Proof. intros H. cbn [scan]. now rewrite H. Qed.

Lemma scan_end_miss r prev :
  match_here r true prev [] = None -> scan r 0 prev [] = [].
Proof. intros H. cbn [scan]. now rewrite H. Qed.

(** Where [search] finds nothing, the scan reports no match and the
    substitution leaves the text as it is. *)
Lemma scan_quiet r s : forall prev,
  search_from r prev s = None -> scan r 0 prev s = map Gap s.
Proof.
  induction s as [|c s IH]; intros prev H; cbn [search_from] in H.
  - destruct (match_here r true prev []) as [[]|] eqn:E; [discriminate|].
    now apply scan_end_miss.
  - destruct (match_here r true prev (c :: s)) as [[]|] eqn:E; [discriminate|].
    rewrite scan_miss by assumption. cbn. f_equal. apply IH.
    now destruct (search_from r (Some c) s) as [[[] ?]|].
Qed.

Lemma hits_gaps s : hits (map Gap s) = [].
Proof. induction s; cbn; auto. Qed.

Lemma render_gaps t count s : render t count (map Gap s) = s.
Proof. induction s as [|c s IH]; cbn; [reflexivity | now rewrite IH]. Qed.

Lemma hits_hit caps ps : hits (Hit caps :: ps) = caps :: hits ps.
Proof. reflexivity. Qed.

Lemma hits_app a b : hits (a ++ b) = hits a ++ hits b.
Proof. apply flat_map_app. Qed.

Lemma render_gaps_app t count x ps :
  render t count (map Gap x ++ ps) = x ++ render t count ps.
Proof. induction x as [|c x IH]; cbn; [reflexivity | now rewrite IH]. Qed.

(* ------------------------------------------------------------------ *)
(** ** Replacements without escapes *)

Lemma parse_template_plain repl :
  ~ In backslash repl -> parse_template repl = Some (plain repl).
Proof.
  unfold parse_template.
  induction repl as [|c s IH]; intros H; [reflexivity|].
  cbn [parse_from].
  destruct (is_char backslash c) eqn:E.
  - apply is_char_eq in E. subst c. exfalso. apply H. now left.
  - cbn [negb]. rewrite IH; [reflexivity|]. intros Hin. apply H. now right.
Qed.

Lemma expand_plain repl m : expand (plain repl) m = repl.
Proof.
  unfold expand, plain.
  induction repl as [|c s IH]; cbn; [reflexivity | now rewrite IH].
Qed.

Lemma re_sub_plain r repl count s :
  ~ In backslash repl ->
  re_sub r repl count s = Some (sub_with (plain repl) r count s).
Proof. intros H. unfold re_sub. now rewrite parse_template_plain. Qed.

(* ------------------------------------------------------------------ *)
(** ** A lazy [.*?] up to a literal *)

Lemma match_lit_end B e prev s :
  B <> [] ->
  match_here (lit B) e prev s =
  if starts_with B s then Some (chars B, skipn (length B) s) else None.
Proof.
  intros HB. rewrite <- (app_nil_r (lit B)), match_lit.
  destruct (starts_with B s); [|reflexivity].
  destruct B; [congruence|]. cbn [match_here captures].
  now rewrite app_nil_r.
Qed.

Lemma rep_lazy_eq p lo hi k n acc e prev s :
  rep p lo hi Lazy k n acc e prev s =
  match (if lo <=? n then capture (rev acc) (k e prev s) else None) with
  | Some o => Some o
  | None =>
      match s with
      | c :: s' =>
          if p c && below n hi
          then rep p lo hi Lazy k (S n) (c :: acc) true (Some c) s'
          else None
      | [] => None
      end
  end.
Proof. destruct s; reflexivity. Qed.

Lemma rep_greedy_eq p lo hi k n acc e prev s :
  rep p lo hi Greedy k n acc e prev s =
  match
    match s with
    | c :: s' =>
        if p c && below n hi
        then rep p lo hi Greedy k (S n) (c :: acc) true (Some c) s'
        else None
    | [] => None
    end
  with
  | Some o => Some o
  | None => if lo <=? n then capture (rev acc) (k e prev s) else None
  end.
Proof. destruct s; reflexivity. Qed.

Lemma rep_lazy_until B rest :
  B <> [] ->
  forall x n acc e prev,
  absent_until B x (B ++ rest) = true ->
  rep any_char 0 None Lazy (match_here (lit B)) n acc e prev
      (x ++ B ++ rest) =
  Some ((rev acc ++ x) :: chars B, rest).
Proof.
  intros HB. induction x as [|c x IH]; intros n acc e prev H.
  - rewrite rep_lazy_eq. cbn [Nat.leb app].
    rewrite match_lit_end, starts_with_app by assumption.
    cbn [capture]. rewrite app_nil_r, skipn_app, Nat.sub_diag, skipn_all.
    reflexivity.
  - cbn [absent_until] in H. apply andb_true_iff in H. destruct H as [H1 H2].
    apply negb_true_iff in H1.
    rewrite rep_lazy_eq. cbn [Nat.leb].
    rewrite match_lit_end, H1 by assumption. cbn [capture app any_char andb below].
    rewrite IH by assumption. cbn [rev]. now rewrite <- app_assoc.
Qed.

(** A character that is not in [B] stops every occurrence of [B]. *)
Lemma starts_with_cross B d : ~ In d B ->
  forall w t, starts_with B (w ++ d :: t) = starts_with B w.
Proof.
  induction B as [|b B IH]; intros Hd w t; [now destruct w|].
  destruct w as [|c w]; cbn.
  - destruct (is_char b d) eqn:E; [|reflexivity].
    apply is_char_eq in E. subst d. exfalso. apply Hd. now left.
  - rewrite IH; [reflexivity|]. intros Hin. apply Hd. now right.
Qed.

Lemma starts_with_stop B d t :
  B <> [] -> ~ In d B -> starts_with B (d :: t) = false.
Proof.
  intros HB Hd. pose proof (starts_with_cross B d Hd [] t) as H.
  cbn [app] in H. rewrite H. destruct B; [congruence | reflexivity].
Qed.

Lemma occurs_cross B d a b :
  B <> [] -> ~ In d B ->
  occurs B (a ++ d :: b) = occurs B a || occurs B b.
Proof.
  intros HB Hd. induction a as [|c a IH].
  - cbn [app occurs]. rewrite starts_with_stop by assumption.
    destruct B; [congruence|]. reflexivity.
  - cbn [app occurs]. rewrite IH.
    change (c :: a ++ d :: b) with ((c :: a) ++ d :: b).
    rewrite (starts_with_cross B d Hd). now rewrite orb_assoc.
Qed.

Lemma occurs_without_head b B s : ~ In b s -> occurs (b :: B) s = false.
Proof.
  induction s as [|c s IH]; intros H; [reflexivity|].
  cbn [occurs starts_with].
  destruct (is_char b c) eqn:E.
  - apply is_char_eq in E. subst c. exfalso. apply H. now left.
  - cbn. apply IH. intros Hin. apply H. now right.
Qed.

Lemma absent_until_occurs B d x tail :
  B <> [] -> ~ In d B -> occurs B x = false ->
  absent_until B (x ++ [d]) tail = true.
Proof.
  intros HB Hd. induction x as [|c x IH]; intros H.
  - cbn. now rewrite starts_with_stop.
  - cbn [app absent_until]. cbn [occurs] in H.
    apply orb_false_iff in H. destruct H as [H1 H2].
    rewrite IH by assumption.
    replace (c :: (x ++ [d]) ++ tail) with ((c :: x) ++ d :: tail)
      by (cbn; now rewrite <- app_assoc).
    now rewrite (starts_with_cross B d Hd), H1.
Qed.

(* ================================================================== *)
(** * The anchor generator, stage by stage *)
(* ================================================================== *)

Lemma sub_delete p s prev :
  render (plain []) None (scan [one p] 0 prev s) =
  filter (fun c => negb (p c)) s.
Proof.
  revert prev. induction s as [|c s IH]; intros prev; [reflexivity|].
  cbn [scan]. rewrite match_one.
  destruct (p c) eqn:E; cbn [capture match_here matched concat app length
                              filter negb]; rewrite ?E; cbn.
  - apply IH.
  - now rewrite IH.
Qed.

Lemma collapse_from_run p x y :
  Forall (fun c => p c = true) x ->
  collapse_from p true (x ++ y) = collapse_from p true y.
Proof.
  induction 1 as [|c x Hc _ IH]; cbn; [reflexivity|].
  now rewrite Hc.
Qed.

Lemma collapse_from_stop p s :
  takewhile p s = [] -> collapse_from p true s = collapse_from p false s.
Proof.
  destruct s as [|c s]; cbn; [reflexivity|].
  destruct (p c); [discriminate | reflexivity].
Qed.

Lemma takewhile_dropwhile_nil p s : takewhile p (dropwhile p s) = [].
Proof.
  induction s as [|c s IH]; cbn; [reflexivity|].
  destruct (p c) eqn:E; [assumption | cbn; now rewrite E].
Qed.

Lemma sub_collapse p s prev :
  render (plain [hyphen]) None (scan [plus p] 0 prev s) =
  collapse_from p false s.
Proof.
  remember (length s) as n eqn:Hn. revert s prev Hn.
  induction n as [n IH] using lt_wf_ind; intros s prev Hn.
  destruct s as [|c s]; [reflexivity|].
  cbn [scan]. rewrite match_plus_end.
  destruct (p c) eqn:E; cbn [collapse_from]; rewrite E.
  - pose proof (takewhile_all p s) as Hall.
    pose proof (takewhile_dropwhile_nil p s) as Hstop.
    pose proof (takewhile_dropwhile p s) as Hs.
    set (tw := takewhile p s) in *. set (dw := dropwhile p s) in *.
    clearbody tw dw. subst s.
    cbn [matched concat app length]. rewrite app_nil_r. cbn [length].
    rewrite scan_skip.
    cbn [render spent spend plain map expand flat_map app].
    rewrite collapse_from_run, collapse_from_stop by assumption.
    f_equal. eapply IH; [|reflexivity].
    subst n. cbn. rewrite length_app. lia.
  - cbn [render]. f_equal. eapply IH; [|reflexivity]. subst n. cbn. lia.
Qed.

Lemma filter_kept s : filter (fun c => negb (special c)) s = filter kept s.
Proof.
  apply filter_ext. intros c. unfold special, kept.
  now rewrite negb_involutive.
Qed.

(** The function of the source is the slug rule with the hyphen among the
    kept characters. *)
Lemma generate_anchor_slug t : generate_anchor t = slug kept t.
Proof.
  unfold generate_anchor, slug, collapse, sub_with.
  now rewrite sub_delete, !sub_collapse, filter_kept.
Qed.

(* ------------------------------------------------------------------ *)
(** ** Shape of a slug *)

Lemma single_collapse b s :
  single_hyphens b (collapse_from (is_char hyphen) b s) = true.
Proof.
  revert b. induction s as [|c s IH]; intros b; cbn; [reflexivity|].
  destruct (is_char hyphen c) eqn:E.
  - destruct b; [apply IH|]. cbn. apply IH.
  - cbn. rewrite E. apply IH.
Qed.

Lemma single_tail b c s :
  single_hyphens b (c :: s) = true ->
  single_hyphens (is_char hyphen c) s = true.
Proof.
  cbn. destruct (is_char hyphen c); [|trivial].
  intros H. now apply andb_true_iff in H.
Qed.

Lemma single_no_pair s : forall b x y,
  single_hyphens b s = true -> s <> x ++ hyphen :: hyphen :: y.
Proof.
  induction s as [|c s IH]; intros b x y H E.
  - now destruct x.
  - destruct x as [|a x]; cbn in E.
    + injection E as -> ->. cbn in H.
      now rewrite andb_false_r in H.
    + injection E as -> E. apply single_tail in H.
      now apply (IH _ x y) in H.
Qed.

Lemma no_pair_single s : forall b,
  (forall x y, s <> x ++ hyphen :: hyphen :: y) ->
  (b = true -> forall y, s <> hyphen :: y) ->
  single_hyphens b s = true.
Proof.
  induction s as [|c s IH]; intros b Hp Hh; cbn; [reflexivity|].
  assert (Hp' : forall x y, s <> x ++ hyphen :: hyphen :: y).
  { intros x y E. apply (Hp (c :: x) y). cbn. now rewrite E. }
  destruct (is_char hyphen c) eqn:E.
  - apply is_char_eq in E. subst c.
    destruct b; [now exfalso; apply (Hh eq_refl s)|]. cbn.
    apply IH; [assumption|]. intros _ y E. apply (Hp [] y). cbn. now rewrite E.
  - apply IH; [assumption | discriminate].
Qed.

Lemma dropwhile_head p s c x : dropwhile p s = c :: x -> p c = false.
Proof.
  induction s as [|a s IH]; cbn; [discriminate|].
  destruct (p a) eqn:E; [assumption|]. intros H. now injection H as <- _.
Qed.

Lemma dropwhile_fixed p s :
  (forall c x, s = c :: x -> p c = false) -> dropwhile p s = s.
Proof.
  destruct s as [|a s]; cbn; [reflexivity|]. intros H.
  now rewrite (H a s eq_refl).
Qed.

(** What [strip] returns is a segment of its argument. *)
Lemma strip_segment p s : exists pre post, s = pre ++ strip p s ++ post.
Proof.
  unfold strip, rstrip, lstrip.
  exists (takewhile p s), (rev (takewhile p (rev (dropwhile p s)))).
  rewrite <- rev_app_distr, takewhile_dropwhile, rev_involutive.
  now rewrite takewhile_dropwhile.
Qed.

Lemma strip_last p s c x : strip p s = x ++ [c] -> p c = false.
Proof.
  unfold strip, rstrip. intros H.
  apply (f_equal (@rev ascii)) in H.
  rewrite rev_involutive, rev_app_distr in H. cbn in H.
  now apply dropwhile_head in H.
Qed.

Lemma strip_head p s c x : strip p s = c :: x -> p c = false.
Proof.
  intros H. destruct (strip_segment p s) as (pre & post & E).
  unfold strip, rstrip, lstrip in *.
  set (d := dropwhile p s) in *.
  assert (Hd : d = rev (dropwhile p (rev d)) ++ rev (takewhile p (rev d))).
  { rewrite <- rev_app_distr, takewhile_dropwhile. now rewrite rev_involutive. }
  rewrite H in Hd. cbn in Hd.
  now apply (dropwhile_head p s c (x ++ rev (takewhile p (rev d)))).
Qed.

Lemma strip_fixed p s :
  (forall c x, s = c :: x -> p c = false) ->
  (forall c x, s = x ++ [c] -> p c = false) ->
  strip p s = s.
Proof.
  intros Hh Hl. unfold strip, rstrip, lstrip.
  rewrite (dropwhile_fixed p s Hh).
  rewrite dropwhile_fixed; [apply rev_involutive|].
  intros c x E. apply (Hl c (rev x)).
  rewrite <- (rev_involutive s), E. reflexivity.
Qed.

Lemma collapse_from_Forall (Q : ascii -> Prop) p b s :
  Q hyphen ->
  Forall (fun c => p c = false -> Q c) s ->
  Forall Q (collapse_from p b s).
Proof.
  intros Hq H. revert b.
  induction H as [|c s Hc _ IH]; intros b; cbn; [constructor|].
  destruct (p c) eqn:E.
  - destruct b; [apply IH | constructor; [assumption | apply IH]].
  - constructor; [now apply Hc | apply IH].
Qed.

Lemma collapse_from_fixed p b s :
  Forall (fun c => p c = false) s -> collapse_from p b s = s.
Proof.
  intros H. revert b. induction H as [|c s Hc _ IH]; intros b; cbn;
    [reflexivity|].
  now rewrite Hc, IH.
Qed.

Lemma collapse_hyphen_fixed b s :
  single_hyphens b s = true -> collapse_from (is_char hyphen) b s = s.
Proof.
  revert b. induction s as [|c s IH]; intros b H; cbn; [reflexivity|].
  pose proof (single_tail _ _ _ H) as Ht. cbn in H.
  destruct (is_char hyphen c) eqn:E.
  - apply andb_true_iff in H. destruct H as [Hb _].
    destruct b; [discriminate|].
    apply is_char_eq in E. subst c. now rewrite IH.
  - now rewrite IH.
Qed.

Lemma filter_fixed {A} (f : A -> bool) l :
  Forall (fun x => f x = true) l -> filter f l = l.
Proof.
  induction 1 as [|x l Hx _ IH]; cbn; [reflexivity|]. now rewrite Hx, IH.
Qed.

Lemma lower_char_idem c : lower_char (lower_char c) = lower_char c.
Proof. destruct c as [[] [] [] [] [] [] [] []]; reflexivity. Qed.

Lemma tidy_hyphen : tidy hyphen.
Proof. repeat split. Qed.

Lemma slug_tidy t : Forall tidy (slug kept t).
Proof.
  destruct (strip_segment (is_char hyphen)
              (collapse (is_char hyphen)
                 (collapse is_space (filter kept (lower t)))))
    as (pre & post & E).
  fold (slug kept t) in E.
  assert (H : Forall tidy
                (collapse (is_char hyphen)
                   (collapse is_space (filter kept (lower t))))).
  { apply collapse_from_Forall; [apply tidy_hyphen|].
    apply Forall_impl with (P := tidy); [trivial|].
    apply collapse_from_Forall; [apply tidy_hyphen|].
    apply Forall_forall. intros c Hc Hs.
    apply filter_In in Hc. destruct Hc as [Hc Hk].
    apply in_map_iff in Hc. destruct Hc as (c0 & <- & _).
    repeat split; [assumption | assumption | apply lower_char_idem]. }
  rewrite E in H. apply Forall_app in H. destruct H as [_ H].
  apply Forall_app in H. now destruct H.
Qed.

Lemma slug_no_pair t x y : slug kept t <> x ++ hyphen :: hyphen :: y.
Proof.
  intros E.
  destruct (strip_segment (is_char hyphen)
              (collapse (is_char hyphen)
                 (collapse is_space (filter kept (lower t)))))
    as (pre & post & Hs).
  fold (slug kept t) in Hs. rewrite E in Hs.
  eapply (single_no_pair _ false (pre ++ x) (y ++ post));
    [apply single_collapse|].
  unfold collapse in Hs. rewrite Hs.
  now rewrite <- !app_assoc.
Qed.

Lemma slug_head t x : slug kept t <> hyphen :: x.
Proof.
  intros E. apply strip_head in E. discriminate.
Qed.

Lemma slug_last t x : slug kept t <> x ++ [hyphen].
Proof.
  intros E. apply strip_last in E. discriminate.
Qed.

(** A text of slug shape is left as it is. *)
Lemma slug_fixed a :
  Forall tidy a ->
  (forall x y, a <> x ++ hyphen :: hyphen :: y) ->
  (forall x, a <> hyphen :: x) ->
  (forall x, a <> x ++ [hyphen]) ->
  slug kept a = a.
Proof.
  intros Ht Hp Hh Hl. unfold slug, collapse, lower.
  assert (E1 : map lower_char a = a).
  { rewrite <- (map_id a) at 2. apply map_ext_in. intros c Hc.
    rewrite Forall_forall in Ht. now apply Ht. }
  rewrite E1, filter_fixed.
  2:{ apply Forall_impl with (P := tidy); [|assumption]. now intros c []. }
  rewrite (collapse_from_fixed is_space).
  2:{ apply Forall_impl with (P := tidy); [|assumption]. now intros c (_ & ? & _). }
  rewrite collapse_hyphen_fixed.
  2:{ apply no_pair_single; [assumption | discriminate]. }
  apply strip_fixed.
  - intros c x -> . destruct (is_char hyphen c) eqn:E; [|reflexivity].
    apply is_char_eq in E. subst c. now destruct (Hh x).
  - intros c x -> . destruct (is_char hyphen c) eqn:E; [|reflexivity].
    apply is_char_eq in E. subst c. now destruct (Hl x).
Qed.

(* ================================================================== *)
(** * The renderer *)
(* ================================================================== *)

Lemma fold_min_le hs : forall m,
  (fold_left (fun m x => Z.min m (level x)) hs m <= m)%Z /\
  forall h, In h hs ->
    (fold_left (fun m x => Z.min m (level x)) hs m <= level h)%Z.
Proof.
  induction hs as [|a hs IH]; intros m; cbn; [split; [lia | tauto]|].
  destruct (IH (Z.min m (level a))) as [H1 H2]. split; [lia|].
  intros h [<- | Hin]; [lia | now apply H2].
Qed.

Lemma fold_min_in hs : forall m,
  fold_left (fun m x => Z.min m (level x)) hs m = m \/
  exists h, In h hs /\
    level h = fold_left (fun m x => Z.min m (level x)) hs m.
Proof.
  induction hs as [|a hs IH]; intros m; cbn; [now left|].
  destruct (IH (Z.min m (level a))) as [E | (h & Hin & E)].
  - rewrite E. destruct (Z.min_spec m (level a)) as [[_ ->] | [_ ->]];
      [now left | right; exists a; auto].
  - right. exists h. auto.
Qed.

Lemma min_level_lower headers h :
  In h headers -> (min_level_of headers <= level h)%Z.
Proof.
  destruct headers as [|a hs]; [contradiction|]. cbn.
  destruct (fold_min_le hs (level a)) as [H1 H2].
  intros [<- | Hin]; [assumption | now apply H2].
Qed.

Lemma min_level_attained headers :
  headers <> [] -> exists h, In h headers /\ level h = min_level_of headers.
Proof.
  destruct headers as [|a hs]; [congruence|]. intros _. cbn.
  destruct (fold_min_in hs (level a)) as [E | (h & Hin & E)].
  - exists a. rewrite E. auto.
  - exists h. auto.
Qed.

Lemma str_mul_spaces n :
  str_mul (txt "  ") n = repeat " "%char (2 * n).
Proof.
  induction n as [|n IH]; [reflexivity|].
  replace (2 * S n) with (S (S (2 * n))) by lia.
  cbn [str_mul repeat]. now rewrite IH.
Qed.

Lemma toc_lines_filter headers max_depth min_depth :
  toc_lines headers max_depth min_depth =
  [toc_start; txt "## Table of Contents"; []]
  ++ map (toc_entry (min_level_of headers))
         (filter (visible max_depth min_depth) headers)
  ++ [[]; toc_end; []].
Proof.
  unfold toc_lines. rewrite for_each_flat_map, <- app_assoc.
  do 2 f_equal.
  generalize (min_level_of headers) as base. intros base.
  induction headers as [|h hs IH]; [reflexivity|].
  cbn [flat_map filter map]. rewrite IH. unfold visible at 2.
  destruct (Z.ltb_spec (level h) min_depth), (Z.gtb_spec (level h) max_depth),
    (Z.leb_spec min_depth (level h)), (Z.leb_spec (level h) max_depth);
    cbn; try lia; reflexivity.
Qed.

(* ================================================================== *)
(** * Headers of a file that holds a table of contents *)
(* ================================================================== *)

Lemma header_blocked e prev c s :
  at_bol prev && is_char hash c = false ->
  match_here header_pattern e prev (c :: s) = None.
Proof.
  intros H. unfold header_pattern. cbn [match_here].
  destruct (at_bol prev); [|reflexivity]. cbn [andb] in H.
  rewrite rep_greedy_eq, H. reflexivity.
Qed.

Lemma scan_header_quiet x : forall prev y,
  quiet (at_bol prev) x = true ->
  scan header_pattern 0 prev (x ++ y) =
  map Gap x ++ scan header_pattern 0 (prev_after prev x) y.
Proof.
  induction x as [|c x IH]; intros prev y H; [reflexivity|].
  cbn [quiet] in H. apply andb_true_iff in H. destruct H as [H1 H2].
  apply negb_true_iff in H1.
  cbn [app]. rewrite scan_miss by now apply header_blocked.
  cbn [map app prev_after fold_left]. f_equal. now apply IH.
Qed.

Lemma quiet_inner e y :
  forallb not_newline e = true ->
  quiet false (e ++ newline :: y) = quiet true y.
Proof.
  induction e as [|c e IH]; intros H; [reflexivity|].
  cbn [forallb] in H. apply andb_true_iff in H. destruct H as [H1 H2].
  cbn [app quiet andb negb].
  unfold not_newline in H1. apply negb_true_iff in H1.
  unfold is_char at 1. rewrite H1. now apply IH.
Qed.

Lemma quiet_dead_line e y :
  dead_line e = true -> quiet true (e ++ newline :: y) = quiet true y.
Proof.
  unfold dead_line. intros H. apply andb_true_iff in H. destruct H as [H1 H2].
  destruct e as [|c e]; [reflexivity|].
  cbn [starts_with] in H1. rewrite andb_true_r in H1.
  apply negb_true_iff in H1.
  cbn [forallb] in H2. apply andb_true_iff in H2. destruct H2 as [H2 H3].
  cbn [app quiet andb]. rewrite H1. cbn [negb andb].
  unfold not_newline in H2. apply negb_true_iff in H2.
  unfold is_char at 1. rewrite H2. now apply quiet_inner.
Qed.

Lemma quiet_lines es y :
  Forall (fun e => dead_line e = true) es ->
  quiet true (lines_text es ++ y) = quiet true y.
Proof.
  unfold lines_text.
  induction 1 as [|e es He _ IH]; [reflexivity|].
  cbn [map concat]. rewrite <- !app_assoc. cbn [app].
  now rewrite quiet_dead_line.
Qed.

Lemma join_cons sep l ls :
  ls <> [] -> join sep (l :: ls) = l ++ sep ++ join sep ls.
Proof. destruct ls; [congruence | reflexivity]. Qed.

Lemma join_lines sep es tail :
  tail <> [] ->
  join sep (es ++ tail) = concat (map (fun e => e ++ sep) es) ++ join sep tail.
Proof.
  intros Ht. induction es as [|e es IH]; [reflexivity|].
  cbn [app map concat]. rewrite join_cons, IH, <- !app_assoc; [reflexivity|].
  destruct es; [assumption | discriminate].
Qed.

(** The rendered block, piece by piece. *)
Lemma generate_toc_text headers max_depth min_depth :
  headers <> [] ->
  generate_toc headers max_depth min_depth =
  toc_start ++ newline :: txt "## Table of Contents" ++ newline :: newline ::
  lines_text (map (toc_entry (min_level_of headers))
                  (filter (visible max_depth min_depth) headers))
  ++ newline :: toc_end ++ [newline].
Proof.
  intros H. unfold generate_toc. destruct headers as [|h hs]; [congruence|].
  rewrite toc_lines_filter.
  set (es := map _ _).
  change ([toc_start; txt "## Table of Contents"; []] ++ es ++ [[]; toc_end; []])
    with (toc_start :: txt "## Table of Contents" :: [] :: es ++ [[]; toc_end; []]).
  rewrite !join_cons; try (destruct es; discriminate); try discriminate.
  rewrite (join_lines [newline] es) by discriminate.
  cbn [join app]. unfold lines_text. reflexivity.
Qed.

(** The heading of the block is the one match of the header pattern in
    it. *)
Lemma toc_heading_match rest :
  match_here header_pattern true (Some newline)
    (txt "## Table of Contents" ++ newline :: rest) =
  Some ([[]; txt "##"; txt " "; txt "Table of Contents"; []],
        newline :: rest).
Proof. reflexivity. Qed.

Lemma forallb_str_mul p u n :
  forallb p u = true -> forallb p (str_mul u n) = true.
Proof.
  intros H. induction n as [|n IH]; [reflexivity|].
  cbn [str_mul]. now rewrite forallb_app, H, IH.
Qed.

Lemma entry_dead base h : clean h -> dead_line (toc_entry base h) = true.
Proof.
  intros [Ht Ha]. unfold dead_line, toc_entry.
  apply andb_true_iff. split.
  - destruct (Z.to_nat (level h - base)); reflexivity.
  - rewrite !forallb_app, Ht, Ha, forallb_str_mul; reflexivity.
Qed.

Lemma prev_after_last prev x c : prev_after prev (x ++ [c]) = Some c.
Proof. unfold prev_after. now rewrite fold_left_app. Qed.

(** Scanning a file that starts with a rendered block finds the heading
    of the block and then the headers of the rest. *)
Lemma findall_headers_toc es content :
  Forall (fun e => dead_line e = true) es ->
  re_findall header_pattern
    (toc_start ++ newline :: txt "## Table of Contents" ++ newline :: newline ::
     lines_text es ++ newline :: toc_end ++ [newline] ++ newline :: content) =
  [[]; txt "##"; txt " "; txt "Table of Contents"; []]
  :: re_findall header_pattern content.
Proof.
  intros Hes. unfold re_findall.
  replace (toc_start ++ newline :: txt "## Table of Contents" ++ newline ::
           newline :: lines_text es ++ newline :: toc_end ++ [newline]
           ++ newline :: content)
    with ((toc_start ++ [newline]) ++
          (txt "## Table of Contents" ++ newline ::
           (newline :: lines_text es ++ newline :: toc_end ++ [newline])
           ++ newline :: content))
    by (rewrite <- !app_assoc; cbn [app]; now rewrite <- !app_assoc).
  rewrite scan_header_quiet by reflexivity.
  rewrite hits_app, hits_gaps. cbn [app].
  rewrite (scan_hit _ _ _ _ _ (toc_heading_match _)) by discriminate.
  rewrite hits_hit. f_equal.
  match goal with
  | |- context [scan _ _ _ ?t] =>
      replace t
        with ((newline :: newline :: lines_text es ++ newline :: toc_end
               ++ [newline]) ++ [newline] ++ content)
        by (cbn [app]; rewrite <- !app_assoc; cbn [app];
            now rewrite <- !app_assoc)
  end.
  rewrite app_assoc.
  rewrite scan_header_quiet.
  - rewrite hits_app, hits_gaps, prev_after_last. cbn [app].
    now rewrite (scan_prev header_pattern 0 (Some newline) None).
  - cbn [app]. rewrite <- !app_assoc.
    change (quiet true (lines_text es ++ newline :: (toc_end ++ [newline])
                        ++ [newline]) = true).
    now rewrite quiet_lines.
Qed.

Lemma in_hits caps ps : In caps (hits ps) -> In (Hit caps) ps.
Proof.
  induction ps as [|[c|caps'] ps IH]; cbn; [tauto | auto |].
  intros [-> | H]; auto.
Qed.

(** Every reported match is a match. *)
Lemma scan_hits_sound r s : forall k prev caps,
  In (Hit caps) (scan r k prev s) ->
  exists e prev' s' rest, match_here r e prev' s' = Some (caps, rest).
Proof.
  induction s as [|c s IH]; intros k prev caps H.
  - destruct k as [|k]; [|contradiction]. cbn [scan] in H.
    destruct (match_here r true prev []) as [[caps1 r1]|] eqn:E1;
      [|contradiction].
    destruct (length (matched caps1)).
    + destruct H as [H | H]; [injection H as <-; eauto|].
      destruct (match_here r false prev []) as [[caps2 r2]|] eqn:E2;
        [|contradiction].
      destruct (length (matched caps2)); [contradiction|].
      destruct H as [H | []]. injection H as <-. eauto.
    + destruct H as [H | []]. injection H as <-. eauto.
  - destruct k as [|k]; [|now apply IH in H]. cbn [scan] in H.
    destruct (match_here r true prev (c :: s)) as [[caps1 r1]|] eqn:E1.
    + destruct (length (matched caps1)).
      * destruct H as [H | H]; [injection H as <-; eauto|].
        destruct (match_here r false prev (c :: s)) as [[caps2 r2]|] eqn:E2.
        -- destruct (length (matched caps2)).
           ++ destruct H as [H | H]; [discriminate | now apply IH in H].
           ++ destruct H as [H | H]; [injection H as <-; eauto
                                     | now apply IH in H].
        -- destruct H as [H | H]; [discriminate | now apply IH in H].
      * destruct H as [H | H]; [injection H as <-; eauto | now apply IH in H].
    + destruct H as [H | H]; [discriminate | now apply IH in H].
Qed.

Lemma strip_Forall (Q : ascii -> Prop) p s :
  Forall Q s -> Forall Q (strip p s).
Proof.
  intros H. destruct (strip_segment p s) as (pre & post & E).
  rewrite E in H. apply Forall_app in H. destruct H as [_ H].
  apply Forall_app in H. now destruct H.
Qed.

Lemma forallb_Forall p (s : str) :
  forallb p s = true <-> Forall (fun c => p c = true) s.
Proof. rewrite forallb_forall, Forall_forall. reflexivity. Qed.

Lemma tidy_not_newline c : tidy c -> not_newline c = true.
Proof.
  intros (_ & Hs & _). unfold not_newline.
  destruct (Ascii.eqb c newline) eqn:E; [|reflexivity].
  apply Ascii.eqb_eq in E. subst c. discriminate.
Qed.

Lemma extract_headers_flat content :
  extract_headers content =
  flat_map header_of (re_findall header_pattern content).
Proof. unfold extract_headers. now rewrite for_each_flat_map. Qed.

Lemma extract_headers_clean content :
  Forall clean (extract_headers content).
Proof.
  rewrite extract_headers_flat. apply Forall_forall. intros h Hin.
  apply in_flat_map in Hin. destruct Hin as (m & Hm & Hh).
  apply in_hits, scan_hits_sound in Hm.
  destruct Hm as (e & prev & s' & rest & Hm).
  apply match_here_sound in Hm. destruct Hm as [_ Hm].
  unfold header_pattern in Hm.
  inversion Hm as [|? c0 ? l0 _ H0]; subst.
  inversion H0 as [|? c1 ? l1 _ H1]; subst.
  inversion H1 as [|? c2 ? l2 _ H2]; subst.
  inversion H2 as [|? c3 ? l3 Hc3 H3]; subst.
  cbn [item_text plus] in Hc3.
  unfold header_of in Hh. cbn [nth] in Hh.
  destruct (existsb _ _); [contradiction|].
  destruct Hh as [<- | []]. split; cbn.
  - apply forallb_Forall. now apply strip_Forall.
  - apply forallb_Forall. rewrite generate_anchor_slug.
    eapply Forall_impl; [|apply slug_tidy]. apply tidy_not_newline.
Qed.

(** The headers of a file with a rendered block on top are the headers
    of the file. *)
Lemma extract_headers_toc hs max_depth min_depth content :
  hs <> [] -> Forall clean hs ->
  extract_headers (generate_toc hs max_depth min_depth ++ newline :: content)
  = extract_headers content.
Proof.
  intros Hne Hc. rewrite !extract_headers_flat, generate_toc_text by assumption.
  replace ((toc_start ++ newline :: txt "## Table of Contents" ++ newline ::
            newline :: lines_text
              (map (toc_entry (min_level_of hs))
                   (filter (visible max_depth min_depth) hs))
            ++ newline :: toc_end ++ [newline]) ++ newline :: content)
    with (toc_start ++ newline :: txt "## Table of Contents" ++ newline ::
          newline :: lines_text
            (map (toc_entry (min_level_of hs))
                 (filter (visible max_depth min_depth) hs))
          ++ newline :: toc_end ++ [newline] ++ newline :: content)
    by (rewrite <- !app_assoc; cbn [app]; rewrite <- !app_assoc; cbn [app];
        now rewrite <- !app_assoc).
  rewrite findall_headers_toc; [reflexivity|].
  apply Forall_map, Forall_forall. intros h Hin.
  apply filter_In in Hin. destruct Hin as [Hin _].
  apply entry_dead. rewrite Forall_forall in Hc. now apply Hc.
Qed.

(* ================================================================== *)
(** * The block between the sentinels *)
(* ================================================================== *)

Lemma generate_toc_block hs max_depth min_depth :
  hs <> [] ->
  generate_toc hs max_depth min_depth =
  toc_block (entries hs max_depth min_depth) ++ [newline].
Proof.
  intros H. rewrite generate_toc_text by assumption.
  unfold toc_block, toc_body, entries.
  rewrite <- !app_assoc. cbn [app]. now rewrite <- !app_assoc.
Qed.

Lemma skipn_exact {A} (a b : list A) : skipn (length a) (a ++ b) = b.
Proof. induction a; cbn; auto. Qed.

(** A literal, anything, a literal: the lazy [.*?] stops at the first
    place where the closing literal starts. *)
Lemma lazy_between A B x rest e prev :
  A <> [] -> B <> [] ->
  absent_until B x (B ++ rest) = true ->
  match_here (lit A ++ [Cls any_char 0 None Lazy] ++ lit B) e prev
    (A ++ x ++ B ++ rest) =
  Some (chars A ++ x :: chars B, rest).
Proof.
  intros HA HB Hx. rewrite match_lit, starts_with_app, skipn_exact.
  cbn [app match_here]. rewrite rep_lazy_until by assumption.
  reflexivity.
Qed.

Lemma toc_start_miss e prev c s :
  is_char "<"%char c = false ->
  match_here existing_toc_pattern e prev (c :: s) = None.
Proof.
  intros H. unfold existing_toc_pattern. rewrite match_lit.
  unfold toc_start. cbn [txt list_ascii_of_string starts_with].
  now rewrite H.
Qed.

Lemma search_after_newline prev s :
  search_from existing_toc_pattern (Some newline) s = None ->
  search_from existing_toc_pattern prev (newline :: s) = None.
Proof.
  intros H. cbn [search_from].
  rewrite toc_start_miss by reflexivity. now rewrite H.
Qed.

Lemma search_after_newlines k content prev :
  re_search existing_toc_pattern content = None ->
  search_from existing_toc_pattern prev (repeat newline (S k) ++ content)
  = None.
Proof.
  intros H. revert prev. induction k as [|k IH]; intros prev.
  - cbn [repeat app]. apply search_after_newline.
    now rewrite (search_from_prev _ (Some newline) None).
  - change (repeat newline (S (S k)) ++ content)
      with (newline :: repeat newline (S k) ++ content).
    apply search_after_newline, IH.
Qed.

Lemma occurs_lines B es :
  B <> [] -> ~ In newline B ->
  Forall (fun e => occurs B e = false) es ->
  occurs B (lines_text es) = false.
Proof.
  intros HB Hn. unfold lines_text.
  induction 1 as [|e es He _ IH]; cbn [map concat].
  - destruct B; [congruence | reflexivity].
  - rewrite <- app_assoc. cbn [app].
    now rewrite occurs_cross, He, IH.
Qed.

Lemma in_str_mul c u n : In c (str_mul u n) -> In c u.
Proof.
  induction n as [|n IH]; cbn [str_mul]; [contradiction|].
  intros H. apply in_app_or in H. tauto.
Qed.

(** The characters of an anchor are none of the sentinel's brackets. *)
Lemma tidy_not_lt c : tidy c -> c <> "<"%char.
Proof. intros (Hk & _) ->. discriminate. Qed.

Lemma tidy_not_backslash c : tidy c -> c <> backslash.
Proof. intros (Hk & _) ->. discriminate. Qed.

Lemma not_in_app {A} (x : A) a b : ~ In x a -> ~ In x b -> ~ In x (a ++ b).
Proof. intros Ha Hb H. apply in_app_or in H. tauto. Qed.

Lemma occurs_end_without s : ~ In "<"%char s -> occurs toc_end s = false.
Proof. exact (occurs_without_head "<"%char (txt "!-- TOC END -->") s). Qed.

Lemma entry_without_end base h :
  occurs toc_end (title h) = false ->
  Forall tidy (anchor h) ->
  occurs toc_end (toc_entry base h) = false.
Proof.
  intros Ht Ha. unfold toc_entry.
  set (indent := str_mul (txt "  ") (Z.to_nat (level h - base))).
  replace (indent ++ txt "- [" ++ title h ++ txt "](#" ++ anchor h ++ txt ")")
    with ((indent ++ txt "- ") ++ "["%char ::
          (title h ++ "]"%char :: (txt "(#" ++ anchor h ++ txt ")")))
    by (rewrite <- !app_assoc; reflexivity).
  rewrite !occurs_cross, Ht; try discriminate;
    try (cbn; intuition discriminate).
  rewrite !occurs_end_without; [reflexivity | |].
  - repeat apply not_in_app; try (cbn; intuition discriminate).
    intros H. rewrite Forall_forall in Ha. now apply Ha, tidy_not_lt in H.
  - apply not_in_app; [|cbn; intuition discriminate].
    intros H. apply in_str_mul in H. cbn in H. intuition discriminate.
Qed.

Lemma extract_headers_anchor content :
  Forall (fun h => Forall tidy (anchor h)) (extract_headers content).
Proof.
  rewrite extract_headers_flat. apply Forall_forall. intros h Hin.
  apply in_flat_map in Hin. destruct Hin as (m & _ & Hh).
  unfold header_of in Hh. destruct (existsb _ _); [contradiction|].
  destruct Hh as [<- | []]. cbn. rewrite generate_anchor_slug.
  apply slug_tidy.
Qed.

Lemma body_absent hs max_depth min_depth rest :
  Forall (fun h => occurs toc_end (title h) = false) hs ->
  Forall (fun h => Forall tidy (anchor h)) hs ->
  absent_until toc_end (toc_body (entries hs max_depth min_depth))
    (toc_end ++ rest) = true.
Proof.
  intros Ht Ha. unfold toc_body.
  apply absent_until_occurs; [discriminate | cbn; intuition discriminate |].
  replace (newline :: txt "## Table of Contents" ++ newline :: newline
           :: lines_text (entries hs max_depth min_depth))
    with ((newline :: txt "## Table of Contents" ++ [newline]) ++ newline
          :: lines_text (entries hs max_depth min_depth))
    by (cbn [app]; now rewrite <- app_assoc).
  rewrite occurs_cross; [|discriminate | cbn; intuition discriminate].
  rewrite occurs_lines; [reflexivity | discriminate
                        | cbn; intuition discriminate |].
  unfold entries. apply Forall_map, Forall_forall. intros h Hin.
  apply filter_In in Hin. destruct Hin as [Hin _].
  rewrite Forall_forall in Ht, Ha. apply entry_without_end; auto.
Qed.

Lemma entry_without_backslash base h :
  ~ In backslash (title h) -> Forall tidy (anchor h) ->
  ~ In backslash (toc_entry base h).
Proof.
  intros Ht Ha. unfold toc_entry.
  repeat apply not_in_app; try assumption;
    try (cbn; intuition discriminate).
  - intros H. apply in_str_mul in H. cbn in H. intuition discriminate.
  - intros H. rewrite Forall_forall in Ha. now apply Ha, tidy_not_backslash in H.
Qed.

Lemma lines_without c es :
  c <> newline -> Forall (fun e => ~ In c e) es -> ~ In c (lines_text es).
Proof.
  intros Hc. unfold lines_text.
  induction 1 as [|e es He _ IH]; cbn [map concat]; [tauto|].
  repeat apply not_in_app; try assumption. cbn. intuition congruence.
Qed.

Lemma toc_without_backslash hs max_depth min_depth :
  hs <> [] ->
  Forall (fun h => ~ In backslash (title h)) hs ->
  Forall (fun h => Forall tidy (anchor h)) hs ->
  ~ In backslash (generate_toc hs max_depth min_depth).
Proof.
  intros Hne Ht Ha. rewrite generate_toc_text by assumption.
  apply not_in_app; [cbn; intuition discriminate|].
  intros [H | H]; [discriminate|]. revert H.
  apply not_in_app; [cbn; intuition discriminate|].
  intros [H | [H | H]]; try discriminate. revert H.
  apply not_in_app.
  - apply lines_without; [discriminate|].
    apply Forall_map, Forall_forall. intros h Hin.
    apply filter_In in Hin. destruct Hin as [Hin _].
    rewrite Forall_forall in Ht, Ha. apply entry_without_backslash; auto.
  - cbn. intuition discriminate.
Qed.

(** A file made of a block, line breaks and a text without sentinel pair:
    the scan finds the block and nothing else. *)
Lemma scan_block es k content :
  absent_until toc_end (toc_body es)
    (toc_end ++ repeat newline (S k) ++ content) = true ->
  re_search existing_toc_pattern content = None ->
  scan existing_toc_pattern 0 None
    (toc_block es ++ repeat newline (S k) ++ content) =
  Hit (chars toc_start ++ toc_body es :: chars toc_end)
  :: map Gap (repeat newline (S k) ++ content).
Proof.
  intros Habs Hnone.
  assert (Hm : match_here existing_toc_pattern true None
                 (toc_block es ++ repeat newline (S k) ++ content) =
               Some (chars toc_start ++ toc_body es :: chars toc_end,
                     repeat newline (S k) ++ content)).
  { unfold toc_block, existing_toc_pattern. rewrite <- !app_assoc.
    apply lazy_between; [discriminate | discriminate | assumption]. }
  rewrite (scan_hit _ _ _ _ _ Hm).
  - f_equal. apply scan_quiet. now apply search_after_newlines.
  - rewrite matched_app. cbn [matched concat]. unfold toc_start.
    discriminate.
Qed.

Lemma matched_block es :
  matched (chars toc_start ++ toc_body es :: chars toc_end) = toc_block es.
Proof.
  rewrite matched_app. unfold matched at 2. cbn [concat].
  fold (matched (chars toc_end)). now rewrite !matched_chars.
Qed.

Lemma blocks_block es k content :
  absent_until toc_end (toc_body es)
    (toc_end ++ repeat newline (S k) ++ content) = true ->
  re_search existing_toc_pattern content = None ->
  blocks (toc_block es ++ repeat newline (S k) ++ content) = [toc_block es].
Proof.
  intros Habs Hnone. unfold blocks, re_findall.
  rewrite scan_block by assumption.
  rewrite hits_hit, hits_gaps. cbn [map]. now rewrite matched_block.
Qed.

Lemma search_block es k content :
  absent_until toc_end (toc_body es)
    (toc_end ++ repeat newline (S k) ++ content) = true ->
  exists caps,
    re_search existing_toc_pattern
      (toc_block es ++ repeat newline (S k) ++ content) =
    Some ([], caps, repeat newline (S k) ++ content) /\
    matched caps = toc_block es.
Proof.
  intros Habs. exists (chars toc_start ++ toc_body es :: chars toc_end).
  split; [|apply matched_block].
  unfold re_search, toc_block, existing_toc_pattern.
  rewrite <- !app_assoc.
  destruct (toc_start ++ toc_body es ++ toc_end ++ repeat newline (S k)
            ++ content) eqn:E; cbn [search_from]; rewrite <- E;
    rewrite lazy_between; try discriminate; try assumption; reflexivity.
Qed.

Lemma sub_block es k content repl :
  absent_until toc_end (toc_body es)
    (toc_end ++ repeat newline (S k) ++ content) = true ->
  re_search existing_toc_pattern content = None ->
  ~ In backslash repl ->
  re_sub existing_toc_pattern repl None
    (toc_block es ++ repeat newline (S k) ++ content) =
  Some (repl ++ repeat newline (S k) ++ content).
Proof.
  intros Habs Hnone Hb. rewrite re_sub_plain by assumption.
  unfold sub_with. rewrite scan_block by assumption.
  cbn [render spent]. now rewrite expand_plain, render_gaps.
Qed.

(* ================================================================== *)
(** * The file updater *)
(* ================================================================== *)

Lemma path_eqb_refl p : path_eqb p p = true.
Proof. unfold path_eqb. now destruct (list_eq_dec str_eq_dec p p). Qed.

Lemma write_writable f p d data :
  f p = Regular d true ->
  exists f', write_file f p data = Some f' /\
             f' p = Regular (Some data) true.
Proof.
  intros H. unfold write_file. rewrite H. eexists. split; [reflexivity|].
  cbn. now rewrite path_eqb_refl.
Qed.

(** With headers in the file, the update is the rewrite of the content
    followed by the write. *)
Lemma update_file_toc_headers f p content max_depth min_depth insert_after :
  read_file f p = Some content ->
  extract_headers content <> [] ->
  update_file_toc f p max_depth min_depth insert_after =
  match updated_content p content (extract_headers content)
                        max_depth min_depth insert_after with
  | None => (false, [ErrorProcessing p], f)
  | Some (updated, msg) =>
      match write_file f p updated with
      | Some f' => (true, [msg], f')
      | None => (false, [msg; ErrorProcessing p], f)
      end
  end.
Proof.
  intros Hr Hne. unfold update_file_toc. rewrite Hr.
  destruct (extract_headers content); [congruence | reflexivity].
Qed.

Lemma read_regular f p content w :
  f p = Regular (Some content) w -> read_file f p = Some content.
Proof. intros H. unfold read_file. now rewrite H. Qed.

(** Without a block in the file and without a place to insert after, the
    rendered block goes on top. *)
Lemma updated_content_top p content hs max_depth min_depth insert_after :
  re_search existing_toc_pattern content = None ->
  insert_after_absent content insert_after ->
  updated_content p content hs max_depth min_depth insert_after =
  Some (generate_toc hs max_depth min_depth ++ newline :: content,
        AddedNewTOC p).
Proof.
  intros Hs Hi. unfold updated_content. rewrite Hs. cbn [found].
  destruct insert_after as [[|c after]|]; try reflexivity.
  unfold insert_after_absent in Hi. now rewrite Hi.
Qed.

(** With one block on top, the block is replaced by the rendered one. *)
Lemma updated_content_block p es k content hs max_depth min_depth
      insert_after :
  absent_until toc_end (toc_body es)
    (toc_end ++ repeat newline (S k) ++ content) = true ->
  re_search existing_toc_pattern content = None ->
  ~ In backslash (generate_toc hs max_depth min_depth) ->
  updated_content p (toc_block es ++ repeat newline (S k) ++ content) hs
                  max_depth min_depth insert_after =
  Some (generate_toc hs max_depth min_depth ++ repeat newline (S k) ++ content,
        UpdatedExistingTOC p).
Proof.
  intros Habs Hnone Hb. unfold updated_content.
  destruct (search_block es k content Habs) as (caps & -> & _).
  cbn [found]. now rewrite sub_block.
Qed.

(* ================================================================== *)
(** * The statistics counter *)
(* ================================================================== *)

Lemma sections_pattern_items :
  UpdateStats.sections_pattern =
  [Bol; one (is_char hash); one (is_char hash); plus is_space].
Proof. reflexivity. Qed.

Lemma sections_miss e prev s :
  at_bol prev && begins_section s = false ->
  match_here UpdateStats.sections_pattern e prev s = None.
Proof.
  intros H. rewrite sections_pattern_items, match_bol.
  destruct (at_bol prev); [|reflexivity]. cbn [andb] in H.
  rewrite match_one.
  destruct s as [|a s]; [reflexivity|].
  destruct (is_char hash a) eqn:Ea; [|reflexivity].
  rewrite match_one.
  destruct s as [|b s]; [reflexivity|].
  destruct (is_char hash b) eqn:Eb; [|reflexivity].
  rewrite match_plus_end.
  destruct s as [|c s]; [reflexivity|].
  cbn [begins_section] in H. rewrite Ea, Eb in H. cbn [andb] in H.
  now rewrite H.
Qed.

Lemma sections_hit e prev c s :
  at_bol prev = true -> is_space c = true ->
  match_here UpdateStats.sections_pattern e prev (hash :: hash :: c :: s) =
  Some ([[]; [hash]; [hash]; c :: takewhile is_space s],
        dropwhile is_space s).
Proof.
  intros Hb Hc. rewrite sections_pattern_items, match_bol, Hb, !match_one.
  change (is_char hash hash) with true. cbn iota.
  now rewrite match_plus_end, Hc.
Qed.

Lemma begins_section_inv s :
  begins_section s = true ->
  exists c s', s = hash :: hash :: c :: s' /\ is_space c = true.
Proof.
  destruct s as [|a [|b [|c s']]]; try discriminate. cbn.
  intros H. apply andb_true_iff in H. destruct H as [H Hc].
  apply andb_true_iff in H. destruct H as [Ha Hb].
  apply is_char_eq in Ha, Hb. subst. eauto.
Qed.

Lemma begins_section_head c s :
  is_char hash c = false -> begins_section (c :: s) = false.
Proof. intros H. destruct s as [|b [|d s]]; cbn; now rewrite ?H. Qed.

Lemma space_not_hash c : is_space c = true -> is_char hash c = false.
Proof.
  intros H. destruct (is_char hash c) eqn:E; [|reflexivity].
  apply is_char_eq in E. subst c. discriminate.
Qed.

Lemma count_lines_spaces x : forall prev y,
  Forall (fun c => is_space c = true) x ->
  count_lines begins_section (at_bol prev) (x ++ y) =
  count_lines begins_section (at_bol (prev_after prev x)) y.
Proof.
  induction x as [|c x IH]; intros prev y H; [reflexivity|].
  inversion H as [|? ? Hc Hx]; subst.
  cbn [app count_lines].
  rewrite begins_section_head by now apply space_not_hash.
  rewrite andb_false_r. cbn [Nat.add].
  apply (IH (Some c) y Hx).
Qed.

(** The matches of [^##\s+] are the lines that begin with [##] and a
    whitespace character. *)
Lemma findall_sections s : forall prev,
  length (hits (scan UpdateStats.sections_pattern 0 prev s)) =
  count_lines begins_section (at_bol prev) s.
Proof.
  remember (length s) as n eqn:Hn. revert s Hn.
  induction n as [n IH] using lt_wf_ind; intros s Hn prev.
  destruct s as [|a s].
  - rewrite scan_end_miss; [reflexivity|].
    apply sections_miss. now rewrite andb_false_r.
  - destruct (at_bol prev && begins_section (a :: s)) eqn:E.
    + apply andb_true_iff in E. destruct E as [Hb Hs].
      destruct (begins_section_inv _ Hs) as (c & s' & Es & Hc).
      injection Es as -> ->.
      rewrite (scan_hit _ _ _ _ _ (sections_hit true prev c s' Hb Hc))
        by discriminate.
      rewrite hits_hit. cbn [length].
      pose proof (takewhile_all is_space s') as Hall.
      pose proof (takewhile_dropwhile is_space s') as Hsplit.
      set (tw := takewhile is_space s') in *.
      set (dw := dropwhile is_space s') in *.
      clearbody tw dw. subst s'.
      rewrite (IH (length dw)); [|  |reflexivity].
      * cbn [count_lines]. rewrite Hb, Hs.
        change (is_char newline hash) with false.
        cbn [andb Nat.add]. f_equal.
        change (is_char newline c) with (at_bol (Some c)).
        rewrite count_lines_spaces by assumption.
        cbn [matched concat app]. now rewrite app_nil_r.
      * subst n. cbn [length]. rewrite length_app. lia.
    + rewrite scan_miss by now apply sections_miss.
      cbn [count_lines]. rewrite E. cbn [Nat.add].
      change (hits (Gap a :: ?x)) with (hits x).
      apply (IH (length s)); [subst n; cbn; lia | reflexivity].
Qed.

Lemma count_issues_lines content :
  UpdateStats.count_issues content =
  Z.max 0 (Z.of_nat (count_lines begins_section true content) - 1).
Proof.
  unfold UpdateStats.count_issues, re_findall.
  pose proof (findall_sections content None) as H. cbn [at_bol] in H.
  rewrite <- H.
  destruct (hits _) as [|m l]; [reflexivity|].
  cbn [length]. lia.
Qed.

Lemma count_files_sum f files : forall contents acc,
  Forall2 (fun p c => read_file f p = Some c) files contents ->
  fold_left
    (fun total file =>
       match total, UpdateStats.count_issues_in_file f file with
       | Some t, Some n => Some (t + n)%Z
       | _, _ => None
       end)
    files (Some acc) =
  Some (acc + sum_Z (map UpdateStats.count_issues contents))%Z.
Proof.
  induction files as [|p files IH]; intros contents acc H;
    inversion H as [|? c ? cs Hp Hrest]; subst; cbn [fold_left map sum_Z fold_right].
  - f_equal. lia.
  - unfold UpdateStats.count_issues_in_file at 2. rewrite Hp. cbn [option_map].
    rewrite (IH cs _ Hrest). f_equal. unfold sum_Z. lia.
Qed.

(* ================================================================== *)
(** * The README statistics *)
(* ================================================================== *)

Lemma uint_digits d :
  Forall (fun c => is_digit c = true) (txt (NilEmpty.string_of_uint d)).
Proof. induction d; cbn; constructor; auto. Qed.

Lemma str_of_nat_digits n : Forall (fun c => is_digit c = true) (str_of_nat n).
Proof. apply uint_digits. Qed.

Lemma digits_without_backslash s :
  Forall (fun c => is_digit c = true) s -> ~ In backslash s.
Proof.
  intros H Hin. rewrite Forall_forall in H. apply H in Hin. discriminate.
Qed.

Lemma pad_without_backslash width n : ~ In backslash (pad width n).
Proof.
  unfold pad. apply not_in_app.
  - intros H. apply repeat_spec in H. discriminate.
  - apply digits_without_backslash, str_of_nat_digits.
Qed.

Lemma new_stats_plain total_issues quick_fixes detailed_guides :
  ~ In backslash (new_stats total_issues quick_fixes detailed_guides).
Proof.
  unfold new_stats.
  repeat apply not_in_app;
    try (apply digits_without_backslash, str_of_nat_digits);
    cbn; intuition discriminate.
Qed.

Lemma new_date_plain today : ~ In backslash (new_date today).
Proof.
  unfold new_date, iso_date.
  repeat first [apply pad_without_backslash | apply not_in_app];
    cbn; intuition discriminate.
Qed.

Lemma date_step today u :
  (if found (re_search date_pattern u)
   then re_sub date_pattern (new_date today) None u
   else Some u) = Some (stamp today u).
Proof.
  unfold stamp. destruct (found _); [|reflexivity].
  now rewrite re_sub_plain by apply new_date_plain.
Qed.

Lemma match_here_no_bol r : no_bol r -> forall e p1 p2 s,
  match_here r e p1 s = match_here r e p2 s.
Proof.
  induction 1 as [|it r Hit _ IH]; intros e p1 p2 s; [reflexivity|].
  destruct it as [p lo hi g| |]; [|congruence|].
  - cbn [match_here]. destruct s as [|c s], g; cbn;
      now rewrite (IH e p1 p2).
  - rewrite !match_eol. now rewrite (IH e p1 p2).
Qed.

Lemma scan_no_bol r k p1 p2 s :
  no_bol r -> scan r k p1 s = scan r k p2 s.
Proof.
  intros H. destruct k as [|k]; [|now destruct s].
  destruct s as [|c s]; cbn [scan];
    now rewrite !(match_here_no_bol r H _ p1 p2).
Qed.

(** The scan up to and behind the match that [search] finds. *)
Lemma scan_search r s : forall prev pre caps post,
  search_from r prev s = Some (pre, caps, post) ->
  matched caps <> [] ->
  scan r 0 prev s =
  map Gap pre
  ++ Hit caps :: scan r 0 (prev_after prev (pre ++ matched caps)) post.
Proof.
  induction s as [|c s IH]; intros prev pre caps post H Hne;
    cbn [search_from] in H.
  - destruct (match_here r true prev []) as [[caps0 rest0]|] eqn:E;
      [|discriminate].
    injection H as <- <- <-. now rewrite (scan_hit _ _ _ _ _ E).
  - destruct (match_here r true prev (c :: s)) as [[caps0 rest0]|] eqn:E.
    + injection H as <- <- <-. now rewrite (scan_hit _ _ _ _ _ E).
    + destruct (search_from r (Some c) s) as [[[pre' caps'] post']|] eqn:Es;
        [|discriminate].
      injection H as <- <- <-.
      rewrite scan_miss by assumption. cbn [map app]. f_equal.
      now apply IH.
Qed.

Lemma search_sound r s : forall prev pre caps post,
  search_from r prev s = Some (pre, caps, post) ->
  exists prev' s', match_here r true prev' s' = Some (caps, post).
Proof.
  induction s as [|c s IH]; intros prev pre caps post H;
    cbn [search_from] in H.
  - destruct (match_here r true prev []) as [[caps0 rest0]|] eqn:E;
      [|discriminate].
    injection H as <- <- <-. eauto.
  - destruct (match_here r true prev (c :: s)) as [[caps0 rest0]|] eqn:E.
    + injection H as <- <- <-. eauto.
    + destruct (search_from r (Some c) s) as [[[pre' caps'] post']|] eqn:Es;
        [|discriminate].
      injection H as <- <- <-. eauto.
Qed.

Lemma lit_match_nonempty a A r e prev s caps rest :
  match_here (lit (a :: A) ++ r) e prev s = Some (caps, rest) ->
  matched caps <> [].
Proof.
  rewrite match_lit. destruct (starts_with (a :: A) s); [|discriminate].
  destruct (match_here r _ _ _) as [[caps' rest']|]; [|discriminate].
  cbn [captures]. intros H. injection H as <- <-. discriminate.
Qed.

Lemma stats_pattern_no_bol : no_bol stats_pattern.
Proof. repeat constructor; discriminate. Qed.

(** Where the statistics lines are found, they are replaced by the new
    ones, and so are the later occurrences in the rest of the text. *)
Lemma sub_stats content pre caps post repl :
  re_search stats_pattern content = Some (pre, caps, post) ->
  sub_with (plain repl) stats_pattern None content =
  pre ++ repl ++ sub_with (plain repl) stats_pattern None post.
Proof.
  intros H. unfold sub_with, re_search in *.
  assert (Hne : matched caps <> []).
  { destruct (search_sound _ _ _ _ _ _ H) as (prev' & s' & Hm).
    exact (lit_match_nonempty "-"%char (txt " **Total Issues:** ")
             _ _ _ _ _ _ Hm). }
  rewrite (scan_search _ _ _ _ _ _ H Hne), render_gaps_app.
  cbn [render spent spend]. rewrite expand_plain.
  now rewrite (scan_no_bol stats_pattern 0 _ None _ stats_pattern_no_bol).
Qed.

(* ------------------------------------------------------------------ *)
(** ** What [main] prints *)

Lemma no_summary_app a b : no_summary a -> no_summary b -> no_summary (a ++ b).
Proof. intros Ha Hb. apply Forall_app. now split. Qed.

Lemma no_summary_in log s t : no_summary log -> ~ In (Summary s t) log.
Proof.
  intros H Hin. unfold no_summary in H. rewrite Forall_forall in H.
  apply H in Hin. discriminate.
Qed.

Lemma file_links_log f repo md_file :
  no_summary (snd (file_links f repo md_file)).
Proof.
  unfold file_links. destruct (read_file f md_file); [|repeat constructor].
  destruct (map _ _); [constructor|].
  destruct (relative_to md_file repo); repeat constructor.
Qed.

Lemma category_links_log f repo category :
  no_summary (snd (category_links f repo category)).
Proof.
  unfold category_links. destruct (negb _); [constructor|].
  generalize (rglob_md f (repo ++ [category])) as files.
  assert (H : no_summary (snd (@nil str, @nil event))) by constructor.
  revert H. generalize (@nil str, @nil event) as acc.
  intros acc H files. revert acc H.
  induction files as [|p files IH]; intros acc H; [exact H|].
  cbn [fold_left]. apply IH.
  pose proof (file_links_log f repo p) as Hp.
  destruct (file_links f repo p) as [links msgs]. cbn [snd] in *.
  now apply no_summary_app.
Qed.

Lemma generate_repo_index_log f repo :
  no_summary (snd (generate_repo_index f repo)).
Proof.
  unfold generate_repo_index.
  pose proof (category_links_log f repo (txt "quick-reference")) as H1.
  pose proof (category_links_log f repo (txt "detailed-guides")) as H2.
  pose proof (category_links_log f repo (txt "platform-specific")) as H3.
  destruct (category_links f repo (txt "quick-reference")).
  destruct (category_links f repo (txt "detailed-guides")).
  destruct (category_links f repo (txt "platform-specific")).
  cbn [snd] in *. now repeat apply no_summary_app.
Qed.

Lemma update_main_readme_log f today repo :
  no_summary (snd (fst (update_main_readme f today repo))).
Proof.
  unfold update_main_readme.
  destruct (negb _); [repeat constructor|].
  pose proof (generate_repo_index_log f repo) as Hm.
  destruct (generate_repo_index f repo) as [index msgs]. cbn [snd] in Hm.
  destruct (read_file f _) as [content|];
    [|apply no_summary_app; [assumption | repeat constructor]].
  destruct (found (re_search stats_pattern content));
    [|apply no_summary_app; [assumption | repeat constructor]].
  destruct (re_sub stats_pattern _ None content) as [u|];
    [|apply no_summary_app; [assumption | repeat constructor]].
  destruct (if found (re_search date_pattern u) then _ else _) as [u'|];
    [|apply no_summary_app; [assumption | repeat constructor]].
  destruct (write_file f _ u');
    apply no_summary_app; try assumption; repeat constructor.
Qed.

Lemma search_split r s : forall prev pre caps post,
  search_from r prev s = Some (pre, caps, post) ->
  s = pre ++ matched caps ++ post.
Proof.
  induction s as [|c s IH]; intros prev pre caps post H;
    cbn [search_from] in H.
  - destruct (match_here r true prev []) as [[caps0 rest0]|] eqn:E;
      [|discriminate].
    injection H as <- <- <-.
    now destruct (match_here_sound _ _ _ _ _ _ E).
  - destruct (match_here r true prev (c :: s)) as [[caps0 rest0]|] eqn:E.
    + injection H as <- <- <-.
      now destruct (match_here_sound _ _ _ _ _ _ E).
    + destruct (search_from r (Some c) s) as [[[pre' caps'] post']|] eqn:Es;
        [|discriminate].
      injection H as <- <- <-. cbn. now rewrite <- (IH _ _ _ _ Es).
Qed.

(* ================================================================== *)
(** * The matcher: counts, runs and spent replacements *)
(* ================================================================== *)

Lemma match_cls p lo hi g r e prev s :
  match_here (Cls p lo hi g :: r) e prev s =
  rep p lo hi g (match_here r) 0 [] e prev s.
Proof. reflexivity. Qed.

(** How a repetition can have succeeded. *)
Lemma rep_inv_nil p lo hi g k n acc e prev o :
  rep p lo hi g k n acc e prev [] = Some o ->
  (lo <=? n) = true /\ capture (rev acc) (k e prev []) = Some o.
Proof.
  destruct g; cbn; destruct (lo <=? n); try discriminate.
  - auto.
  - destruct (capture _ _); [|discriminate]. auto.
Qed.

Lemma rep_inv_cons p lo hi g k n acc e prev c s o :
  rep p lo hi g k n acc e prev (c :: s) = Some o ->
  (p c && below n hi = true /\
   rep p lo hi g k (S n) (c :: acc) true (Some c) s = Some o) \/
  ((lo <=? n) = true /\ capture (rev acc) (k e prev (c :: s)) = Some o).
Proof.
  destruct g; cbn.
  - destruct (p c && below n hi).
    + destruct (rep p lo hi Greedy k (S n) (c :: acc) true (Some c) s) as [o'|].
      * intros H. left. auto.
      * destruct (lo <=? n); [|discriminate]. auto.
    + destruct (lo <=? n); [|discriminate]. auto.
  - destruct (lo <=? n).
    + destruct (capture (rev acc) (k e prev (c :: s))) as [o'|].
      * intros H. right. auto.
      * destruct (p c && below n hi); [|discriminate]. auto.
    + destruct (p c && below n hi); [|discriminate]. auto.
Qed.

Lemma capture_inv c o caps rest :
  capture c o = Some (caps, rest) ->
  exists caps', caps = c :: caps' /\ o = Some (caps', rest).
Proof.
  destruct o as [[caps' rest']|]; [|discriminate].
  cbn. intros H. injection H as <- <-. eauto.
Qed.

Lemma rep_count p lo hi g k s : forall n acc e prev caps rest,
  rep p lo hi g k n acc e prev s = Some (caps, rest) ->
  length acc = n ->
  exists cap caps',
    caps = cap :: caps' /\ lo <= length cap /\
    (forall h, hi = Some h -> length cap <= Nat.max n h) /\
    exists e' prev' s', k e' prev' s' = Some (caps', rest).
Proof.
  induction s as [|c s IH]; intros n acc e prev caps rest H Hn.
  - apply rep_inv_nil in H. destruct H as [Hlo H].
    apply capture_inv in H. destruct H as (caps' & -> & Hk).
    apply Nat.leb_le in Hlo. exists (rev acc), caps'.
    rewrite length_rev, Hn. repeat split; eauto. intros h _. lia.
  - apply rep_inv_cons in H. destruct H as [[Hp H] | [Hlo H]].
    + apply andb_true_iff in Hp. destruct Hp as [_ Hb].
      apply IH in H; [|cbn; lia].
      destruct H as (cap & caps' & -> & H1 & H2 & H3).
      exists cap, caps'. repeat split; auto.
      intros h Hh. specialize (H2 h Hh). subst hi. cbn in Hb.
      apply Nat.ltb_lt in Hb. lia.
    + apply capture_inv in H. destruct H as (caps' & -> & Hk).
      apply Nat.leb_le in Hlo. exists (rev acc), caps'.
      rewrite length_rev, Hn. repeat split; eauto. intros h _. lia.
Qed.

(** The number of characters each item of a match has consumed lies
    within the bounds of its quantifier. *)
Lemma match_here_counts r : forall e prev s caps rest,
  match_here r e prev s = Some (caps, rest) -> Forall2 item_count r caps.
Proof.
  induction r as [|it r IH]; intros e prev s caps rest H.
  - cbn in H. destruct e; [|discriminate]. injection H as <- <-. constructor.
  - destruct it as [p lo hi g| |].
    + rewrite match_cls in H. apply rep_count in H; [|reflexivity].
      destruct H as (cap & caps' & -> & H1 & H2 & e' & prev' & s' & Hk).
      constructor; [|now apply IH in Hk].
      cbn. split; [assumption|]. intros h Hh. specialize (H2 h Hh). lia.
    + rewrite match_bol in H. destruct (at_bol prev); [|discriminate].
      apply capture_inv in H. destruct H as (caps' & -> & Hk).
      constructor; [exact I | now apply IH in Hk].
    + rewrite match_eol in H. destruct (at_eol s); [|discriminate].
      apply capture_inv in H. destruct H as (caps' & -> & Hk).
      constructor; [exact I | now apply IH in Hk].
Qed.

(** A greedy repetition takes a whole run when what follows the run
    matches the rest of the pattern. *)
Lemma rep_greedy_run p lo hi k run : forall n acc e prev rest o,
  Forall (fun c => p c = true) run ->
  (forall i, i < length run -> below (n + i) hi = true) ->
  match rest with
  | c :: _ => p c && below (n + length run) hi = false
  | [] => True
  end ->
  lo <= n + length run ->
  k (match run with [] => e | _ => true end) (prev_after prev run) rest
  = Some o ->
  rep p lo hi Greedy k n acc e prev (run ++ rest) =
  capture (rev acc ++ run) (Some o).
Proof.
  induction run as [|c run IH]; intros n acc e prev rest o Hr Hb Hs Hlo Hk.
  - cbn [app length] in *. rewrite Nat.add_0_r in *.
    rewrite rep_greedy_eq, app_nil_r.
    assert (Hmore : match rest with
                    | c :: s' =>
                        if p c && below n hi
                        then rep p lo hi Greedy k (S n) (c :: acc) true
                                 (Some c) s'
                        else None
                    | [] => None
                    end = None).
    { destruct rest as [|c rest]; [reflexivity | now rewrite Hs]. }
    rewrite Hmore. apply Nat.leb_le in Hlo. rewrite Hlo.
    cbn [prev_after fold_left] in Hk. now rewrite Hk.
  - inversion Hr as [|? ? Hc Hr']; subst.
    cbn [app]. rewrite rep_greedy_eq, Hc.
    rewrite <- (Nat.add_0_r n) at 1. rewrite Hb by (cbn; lia). cbn [andb].
    rewrite (IH (S n) (c :: acc) true (Some c) rest o); auto.
    + cbn [rev capture]. destruct o as [caps r]. cbn.
      now rewrite <- app_assoc.
    + intros i Hi. replace (S n + i) with (n + S i) by lia.
      apply Hb. cbn. lia.
    + cbn [length] in Hs. now replace (S n + length run)
        with (n + S (length run)) by lia.
    + cbn [length] in Hlo. lia.
    + cbn [prev_after fold_left] in Hk. destruct run; exact Hk.
Qed.

(** With no replacement left to make, the scanned text is given back. *)
Lemma render_spent t r s : forall k prev,
  render t (Some 0) (scan r k prev s) = skipn k s.
Proof.
  induction s as [|c s IH]; intros k prev.
  - destruct k as [|k]; [|reflexivity]. cbn [scan skipn].
    destruct (match_here r true prev []) as [[caps rest]|] eqn:E;
      [|reflexivity].
    destruct (match_here_sound _ _ _ _ _ _ E) as [Hs _].
    symmetry in Hs. apply app_eq_nil in Hs. destruct Hs as [Hm _].
    rewrite Hm. cbn [length].
    destruct (match_here r false prev []) as [[caps' rest']|] eqn:E'.
    + destruct (match_here_sound _ _ _ _ _ _ E') as [Hs' _].
      symmetry in Hs'. apply app_eq_nil in Hs'. destruct Hs' as [Hm' _].
      rewrite Hm'. cbn [length render spent]. now rewrite Hm.
    + cbn [render spent]. now rewrite Hm.
  - destruct k as [|k]; [|cbn [scan skipn]; apply IH]. cbn [scan skipn].
    assert (Hhit : forall e caps rest n,
               match_here r e prev (c :: s) = Some (caps, rest) ->
               length (matched caps) = S n ->
               matched caps ++ render t (Some 0) (scan r n (Some c) s)
               = c :: s).
    { intros e caps rest n E Hn.
      destruct (match_here_sound _ _ _ _ _ _ E) as [Hs _].
      rewrite IH.
      destruct (matched caps) as [|c' m]; [discriminate|].
      cbn [app] in Hs. injection Hs as <- ->.
      cbn [length] in Hn. injection Hn as <-.
      cbn [app]. now rewrite skipn_exact. }
    destruct (match_here r true prev (c :: s)) as [[caps rest]|] eqn:E.
    + destruct (length (matched caps)) as [|n] eqn:En.
      * apply length_zero_iff_nil in En.
        cbn [render spent]. rewrite En. cbn [app].
        destruct (match_here r false prev (c :: s)) as [[caps' rest']|] eqn:E'.
        -- destruct (length (matched caps')) as [|n'] eqn:En'.
           ++ cbn [render]. now rewrite IH.
           ++ cbn [render spent]. now apply (Hhit false caps' rest').
        -- cbn [render]. now rewrite IH.
      * cbn [render spent]. now apply (Hhit true caps rest).
    + cbn [render]. now rewrite IH.
Qed.

(** A match at a later place makes the search succeed. *)
Lemma search_complete r pre : forall prev s o,
  match_here r true (prev_after prev pre) s = Some o ->
  found (search_from r prev (pre ++ s)) = true.
Proof.
  induction pre as [|c pre IH]; intros prev s o H.
  - cbn [app]. cbn in H. destruct s as [|c s]; cbn [search_from];
      rewrite H; now destruct o as [caps rest].
  - cbn [app search_from].
    destruct (match_here r true prev (c :: pre ++ s)) as [[caps rest]|];
      [reflexivity|].
    specialize (IH (Some c) s o H).
    now destruct (search_from r (Some c) (pre ++ s)) as [[[] ?]|].
Qed.

(* ================================================================== *)
(** * The file updater: frames and cases *)
(* ================================================================== *)

Lemma path_eqb_neq q p : q <> p -> path_eqb q p = false.
Proof.
  intros H. unfold path_eqb. now destruct (list_eq_dec str_eq_dec q p).
Qed.

Lemma write_file_other f p data f' q :
  write_file f p data = Some f' -> q <> p -> f' q = f q.
Proof.
  unfold write_file. destruct (f p) as [|d [|]| |]; try discriminate.
  intros H Hq. injection H as <-. now rewrite path_eqb_neq.
Qed.

Lemma write_file_read f p data f' :
  write_file f p data = Some f' -> read_file f' p = Some data.
Proof.
  unfold write_file. destruct (f p) as [|d [|]| |]; try discriminate.
  intros H. injection H as <-. unfold read_file. now rewrite path_eqb_refl.
Qed.

Lemma etp_no_bol : no_bol existing_toc_pattern.
Proof. repeat constructor; discriminate. Qed.

Lemma lit_ci_ones n : lit_ci n = map one (map is_char_ci n).
Proof. unfold lit_ci. now rewrite map_map. Qed.

Lemma ones_match_ci a : forall s,
  ones_match (map is_char_ci a) s = true ->
  lower (firstn (length a) s) = lower a /\ length a <= length s.
Proof.
  induction a as [|x a IH]; intros s H; [split; [reflexivity | cbn; lia]|].
  destruct s as [|c s]; [discriminate|]. cbn [map ones_match] in H.
  apply andb_true_iff in H. destruct H as [Hc H].
  apply IH in H. destruct H as [H1 H2].
  unfold is_char_ci in Hc. apply Ascii.eqb_eq in Hc.
  cbn [length firstn lower map]. split; [|lia].
  f_equal; [exact Hc | exact H1].
Qed.

(** What a case-insensitive literal matches: a text of the same length
    that differs from it in case only. *)
Lemma lit_ci_match a e prev s caps rest :
  a <> [] ->
  match_here (lit_ci a) e prev s = Some (caps, rest) ->
  s = matched caps ++ rest /\ lower (matched caps) = lower a /\
  length (matched caps) = length a.
Proof.
  intros Ha. rewrite lit_ci_ones, <- (app_nil_r (map one _)), match_ones.
  destruct (ones_match (map is_char_ci a) s) eqn:E; [|discriminate].
  rewrite !length_map.
  assert (Hflag : match map is_char_ci a with [] => e | _ => true end = true)
    by (destruct a; [congruence | reflexivity]).
  rewrite Hflag. cbn [match_here captures]. intros H. injection H as <- <-.
  rewrite app_nil_r, matched_chars.
  apply ones_match_ci in E. destruct E as [E1 E2].
  split; [now rewrite firstn_skipn|]. split; [exact E1|].
  rewrite length_firstn. lia.
Qed.

(** An update either fails, prints something and leaves the files as they
    are, or writes the file it has read and prints one line. *)
Lemma update_file_toc_cases f p max_depth min_depth insert_after :
  (exists msgs,
     update_file_toc f p max_depth min_depth insert_after = (false, msgs, f)
     /\ msgs <> []) \/
  (exists updated msg f',
     update_file_toc f p max_depth min_depth insert_after = (true, [msg], f')
     /\ write_file f p updated = Some f').
Proof.
  unfold update_file_toc.
  destruct (read_file f p) as [content|];
    [|left; eexists; split; [reflexivity | discriminate]].
  destruct (extract_headers content) as [|h hs];
    [left; eexists; split; [reflexivity | discriminate]|].
  destruct (updated_content p content (h :: hs) max_depth min_depth
                            insert_after) as [[updated msg]|];
    [|left; eexists; split; [reflexivity | discriminate]].
  destruct (write_file f p updated) as [f'|] eqn:Ew;
    [|left; eexists; split; [reflexivity | discriminate]].
  right. exists updated, msg, f'. now split.
Qed.


(** What an update returns and prints depends on its own file only. *)
Lemma update_file_toc_local f f' p max_depth min_depth insert_after :
  f' p = f p ->
  fst (update_file_toc f' p max_depth min_depth insert_after)
  = fst (update_file_toc f p max_depth min_depth insert_after).
Proof.
  intros H. unfold update_file_toc, read_file, write_file. rewrite H.
  destruct (f p) as [|[content|] [|]| |]; try reflexivity;
    destruct (extract_headers content); try reflexivity;
    now destruct (updated_content p content _ max_depth min_depth
                                  insert_after) as [[updated msg]|].
Qed.

Lemma update_file_toc_other f p max_depth min_depth insert_after q :
  q <> p ->
  snd (update_file_toc f p max_depth min_depth insert_after) q = f q.
Proof.
  intros Hq.
  destruct (update_file_toc_cases f p max_depth min_depth insert_after)
    as [(msgs & -> & _) | (updated & msg & f' & -> & Hw)]; [reflexivity|].
  exact (write_file_other _ _ _ _ _ Hw Hq).
Qed.

(** The loop of [main] counts the updates that succeed and prints their
    lines in order. *)
Lemma process_fold_outcomes a files : forall n log f,
  fst (fold_left
         (fun st md_file =>
            let '(success_count, log, f) := st in
            let '(ok, msgs, f') :=
              update_file_toc f md_file (arg_max_depth a) (arg_min_depth a)
                              (arg_insert_after a) in
            (if ok then S success_count else success_count, log ++ msgs, f'))
         files (n, log, f))
  = (n + length (filter fst (outcomes a f files)),
     log ++ concat (map snd (outcomes a f files))).
Proof.
  induction files as [|p files IH]; intros n log f.
  - cbn. now rewrite Nat.add_0_r, app_nil_r.
  - cbn [fold_left outcomes].
    destruct (update_file_toc f p (arg_max_depth a) (arg_min_depth a)
                (arg_insert_after a)) as [[ok msgs] f'].
    rewrite IH. cbn [fst snd map concat filter].
    rewrite <- app_assoc. destruct ok; cbn [length]; f_equal; lia.
Qed.

(** Over distinct files every update is the one that the file would get
    on the file system as it was found. *)
Lemma outcomes_apart a f files : forall f',
  NoDup files -> (forall q, In q files -> f' q = f q) ->
  outcomes a f' files
  = map (fun q => fst (update_file_toc f q (arg_max_depth a)
                         (arg_min_depth a) (arg_insert_after a))) files.
Proof.
  induction files as [|p files IH]; intros f' Hnd Hf; [reflexivity|].
  inversion Hnd as [|? ? Hp Hnd']; subst.
  cbn [outcomes map]. f_equal.
  - apply update_file_toc_local. apply Hf. now left.
  - apply IH; [assumption|]. intros q Hq.
    rewrite update_file_toc_other by (intros ->; contradiction).
    apply Hf. now right.
Qed.

(* ================================================================== *)
(** * A block behind a text *)
(* ================================================================== *)

Lemma literal_plain repl : ~ In backslash repl -> literal_template repl.
Proof. exact (parse_template_plain repl). Qed.

(** Titles without closing sentinel and without backslash give a table
    that is fit. *)
Lemma table_fit_plain hs max_depth min_depth :
  hs <> [] ->
  Forall (fun h => occurs toc_end (title h) = false
                   /\ ~ In backslash (title h)) hs ->
  Forall (fun h => Forall tidy (anchor h)) hs ->
  table_fit hs max_depth min_depth.
Proof.
  intros Hne Hplain Ha. split.
  - apply Forall_forall. intros h Hin. apply filter_In in Hin.
    rewrite Forall_forall in Hplain. now apply Hplain.
  - apply literal_plain, toc_without_backslash; [assumption | | assumption].
    eapply Forall_impl; [|exact Hplain]. now intros h [].
Qed.

Lemma re_sub_literal r repl count s :
  literal_template repl ->
  re_sub r repl count s = Some (sub_with (plain repl) r count s).
Proof. intros H. unfold re_sub. now rewrite H. Qed.

(** The closing sentinel first stands at the end of a block whose listed
    titles do not hold it. *)
Lemma body_absent_listed hs max_depth min_depth rest :
  Forall (fun h => occurs toc_end (title h) = false)
         (filter (visible max_depth min_depth) hs) ->
  Forall (fun h => Forall tidy (anchor h)) hs ->
  absent_until toc_end (toc_body (entries hs max_depth min_depth))
    (toc_end ++ rest) = true.
Proof.
  intros Ht Ha. unfold toc_body.
  apply absent_until_occurs; [discriminate | cbn; intuition discriminate |].
  replace (newline :: txt "## Table of Contents" ++ newline :: newline
           :: lines_text (entries hs max_depth min_depth))
    with ((newline :: txt "## Table of Contents" ++ [newline]) ++ newline
          :: lines_text (entries hs max_depth min_depth))
    by (cbn [app]; now rewrite <- app_assoc).
  rewrite occurs_cross; [|discriminate | cbn; intuition discriminate].
  rewrite occurs_lines; [reflexivity | discriminate
                        | cbn; intuition discriminate |].
  unfold entries. apply Forall_map, Forall_forall. intros h Hin.
  rewrite Forall_forall in Ht, Ha. apply entry_without_end; [now apply Ht|].
  apply filter_In in Hin. now apply Ha.
Qed.

Lemma etp_miss e prev s :
  starts_with toc_start s = false ->
  match_here existing_toc_pattern e prev s = None.
Proof.
  intros H. unfold existing_toc_pattern. now rewrite match_lit, H.
Qed.

(** Where no opening sentinel starts, the scan passes. *)
Lemma scan_absent pre tail : forall prev,
  absent_until toc_start pre tail = true ->
  scan existing_toc_pattern 0 prev (pre ++ tail)
  = map Gap pre ++ scan existing_toc_pattern 0 None tail.
Proof.
  induction pre as [|c pre IH]; intros prev H.
  - apply scan_no_bol, etp_no_bol.
  - cbn [absent_until] in H. apply andb_true_iff in H.
    destruct H as [H1 H2]. apply negb_true_iff in H1.
    cbn [app]. rewrite scan_miss by now apply etp_miss.
    cbn [map app]. f_equal. now apply IH.
Qed.

Lemma search_no_bol r p1 p2 s :
  no_bol r -> search_from r p1 s = search_from r p2 s.
Proof.
  intros H. destruct s as [|c s]; cbn [search_from];
    now rewrite (match_here_no_bol r H _ p1 p2).
Qed.

(** A text without match has no match in its end. *)
Lemma search_suffix r x : forall y prev,
  no_bol r -> search_from r prev (x ++ y) = None ->
  search_from r None y = None.
Proof.
  induction x as [|c x IH]; intros y prev Hr H.
  - cbn [app] in H. now rewrite (search_no_bol r None prev).
  - cbn [app search_from] in H.
    destruct (match_here r true prev (c :: x ++ y)) as [[]|];
      [discriminate|].
    destruct (search_from r (Some c) (x ++ y)) as [[[] ?]|] eqn:E;
      [discriminate|].
    now apply (IH y (Some c)).
Qed.

Lemma absent_start_before pre tail :
  occurs toc_start pre = false ->
  absent_until toc_start (pre ++ [newline; newline]) tail = true.
Proof.
  intros H.
  replace (pre ++ [newline; newline]) with ((pre ++ [newline]) ++ [newline])
    by now rewrite <- app_assoc.
  apply absent_until_occurs;
    [discriminate | cbn; intuition discriminate |].
  rewrite occurs_cross; [|discriminate | cbn; intuition discriminate].
  now rewrite H.
Qed.

(** A text without opening sentinel, a block, and a text without sentinel
    pair: the scan finds the block and nothing else. *)
Lemma scan_block_at pre es rest :
  absent_until toc_start pre (toc_block es ++ rest) = true ->
  absent_until toc_end (toc_body es) (toc_end ++ rest) = true ->
  search_from existing_toc_pattern None rest = None ->
  scan existing_toc_pattern 0 None (pre ++ toc_block es ++ rest) =
  map Gap pre
  ++ Hit (chars toc_start ++ toc_body es :: chars toc_end) :: map Gap rest.
Proof.
  intros Hpre Habs Hnone. rewrite scan_absent by assumption. f_equal.
  assert (Hm : match_here existing_toc_pattern true None
                 (toc_block es ++ rest) =
               Some (chars toc_start ++ toc_body es :: chars toc_end, rest)).
  { unfold toc_block, existing_toc_pattern. rewrite <- !app_assoc.
    apply lazy_between; [discriminate | discriminate | assumption]. }
  rewrite (scan_hit _ _ _ _ _ Hm).
  - f_equal. apply scan_quiet.
    now rewrite (search_no_bol _ _ None _ etp_no_bol).
  - rewrite matched_app. cbn [matched concat]. unfold toc_start.
    discriminate.
Qed.

Lemma blocks_block_at pre es rest :
  absent_until toc_start pre (toc_block es ++ rest) = true ->
  absent_until toc_end (toc_body es) (toc_end ++ rest) = true ->
  search_from existing_toc_pattern None rest = None ->
  blocks (pre ++ toc_block es ++ rest) = [toc_block es].
Proof.
  intros Hpre Habs Hnone. unfold blocks, re_findall.
  rewrite scan_block_at by assumption.
  rewrite hits_app, hits_gaps, hits_hit, hits_gaps. cbn [app map].
  now rewrite matched_block.
Qed.

Lemma found_block_at pre es rest :
  absent_until toc_end (toc_body es) (toc_end ++ rest) = true ->
  found (re_search existing_toc_pattern (pre ++ toc_block es ++ rest))
  = true.
Proof.
  intros Habs. unfold re_search.
  apply (search_complete _ pre None _
           (chars toc_start ++ toc_body es :: chars toc_end, rest)).
  unfold toc_block, existing_toc_pattern. rewrite <- !app_assoc.
  apply lazy_between; [discriminate | discriminate | assumption].
Qed.

(** With one block behind a text, the block is replaced by the rendered
    one, where it stands. *)
Lemma updated_content_block_at p pre es rest hs max_depth min_depth
      insert_after :
  absent_until toc_start pre (toc_block es ++ rest) = true ->
  absent_until toc_end (toc_body es) (toc_end ++ rest) = true ->
  search_from existing_toc_pattern None rest = None ->
  literal_template (generate_toc hs max_depth min_depth) ->
  updated_content p (pre ++ toc_block es ++ rest) hs max_depth min_depth
                  insert_after =
  Some (pre ++ generate_toc hs max_depth min_depth ++ rest,
        UpdatedExistingTOC p).
Proof.
  intros Hpre Habs Hnone Hb. unfold updated_content.
  rewrite found_block_at by assumption.
  rewrite re_sub_literal by assumption. unfold sub_with.
  rewrite scan_block_at by assumption.
  rewrite render_gaps_app. cbn [render spent].
  now rewrite expand_plain, render_gaps.
Qed.

(** Without a block in the file and with an insert-after text that occurs
    in it, the occurrence gives way to the text as given, an empty line
    and the rendered block. *)
Lemma updated_content_insert p content hs max_depth min_depth after
      pre caps post :
  re_search existing_toc_pattern content = None ->
  after <> [] ->
  literal_template
    (after ++ [newline; newline] ++ generate_toc hs max_depth min_depth) ->
  re_search (lit_ci after) content = Some (pre, caps, post) ->
  updated_content p content hs max_depth min_depth (Some after) =
  Some (pre ++ after ++ newline :: newline
        :: generate_toc hs max_depth min_depth ++ post,
        AddedNewTOC p).
Proof.
  intros Hnone Ha Hlit Hs.
  destruct (search_sound _ _ _ _ _ _ Hs) as (prev' & s' & Hm).
  destruct (lit_ci_match _ _ _ _ _ _ Ha Hm) as (_ & _ & Hlen).
  unfold updated_content. rewrite Hnone. cbn [found].
  destruct after as [|a after']; [congruence|].
  rewrite Hs. cbn [found].
  rewrite re_sub_literal by assumption.
  unfold sub_with, re_search in *.
  assert (Hm_ne : matched caps <> []).
  { intros E. rewrite E in Hlen. discriminate. }
  rewrite (scan_search _ _ _ _ _ _ Hs Hm_ne), render_gaps_app.
  cbn [render spent spend pred]. rewrite expand_plain, render_spent.
  cbn [skipn]. rewrite <- !app_assoc. reflexivity.
Qed.

(** The round trip, for a block put behind [pre] and in front of
    [post]. *)
Lemma round_trip_at f p content max_depth min_depth insert_after pre post :
  f p = Regular (Some content) true ->
  extract_headers content <> [] ->
  Forall (fun h => occurs toc_end (title h) = false)
         (filter (visible max_depth min_depth) (extract_headers content)) ->
  updated_content p content (extract_headers content) max_depth min_depth
                  insert_after
  = Some (pre ++ generate_toc (extract_headers content) max_depth min_depth
          ++ post, AddedNewTOC p) ->
  (forall tail, absent_until toc_start pre tail = true) ->
  search_from existing_toc_pattern None post = None ->
  extract_headers
    (pre ++ generate_toc (extract_headers content) max_depth min_depth
     ++ post) <> [] ->
  table_fit
    (extract_headers
       (pre ++ generate_toc (extract_headers content) max_depth min_depth
        ++ post)) max_depth min_depth ->
  let block := toc_block (entries (extract_headers content)
                                  max_depth min_depth) in
  let block2 :=
    toc_block (entries (extract_headers (pre ++ block ++ newline :: post))
                       max_depth min_depth) in
  exists f1 f2,
    generate_toc (extract_headers content) max_depth min_depth
    = block ++ [newline] /\
    update_file_toc f p max_depth min_depth insert_after
    = (true, [AddedNewTOC p], f1) /\
    read_file f1 p = Some (pre ++ block ++ newline :: post) /\
    blocks (pre ++ block ++ newline :: post) = [block] /\
    generate_toc (extract_headers (pre ++ block ++ newline :: post))
                 max_depth min_depth
    = block2 ++ [newline] /\
    update_file_toc f1 p max_depth min_depth insert_after
    = (true, [UpdatedExistingTOC p], f2) /\
    read_file f2 p = Some (pre ++ block2 ++ newline :: newline :: post) /\
    blocks (pre ++ block2 ++ newline :: newline :: post) = [block2].
Proof.
  intros Hf Hne Hend Hrun1 Hpre Hpost.
  set (hs := extract_headers content) in *.
  pose proof (generate_toc_block hs max_depth min_depth Hne) as Htoc.
  set (es := entries hs max_depth min_depth) in *.
  assert (E1 : pre ++ generate_toc hs max_depth min_depth ++ post
               = pre ++ toc_block es ++ newline :: post).
  { rewrite Htoc, <- app_assoc. reflexivity. }
  rewrite E1 in *. clear E1.
  set (content1 := pre ++ toc_block es ++ newline :: post) in *.
  set (hs1 := extract_headers content1).
  intros Hne1 [Hend1 Hlit1]. cbv zeta. fold content1 hs1.
  set (es1 := entries hs1 max_depth min_depth).
  pose proof (extract_headers_anchor content) as Hanchor. fold hs in Hanchor.
  pose proof (extract_headers_anchor content1) as Hanchor1.
  fold hs1 in Hanchor1.
  pose proof (generate_toc_block hs1 max_depth min_depth Hne1) as Htoc1.
  fold es1 in Htoc1.
  assert (Hnl : forall k,
            search_from existing_toc_pattern None
              (repeat newline (S k) ++ post) = None).
  { intros k. induction k as [|k IH].
    - cbn [repeat app]. apply search_after_newline.
      now rewrite (search_no_bol _ _ None _ etp_no_bol).
    - change (repeat newline (S (S k)) ++ post)
        with (newline :: repeat newline (S k) ++ post).
      apply search_after_newline.
      now rewrite (search_no_bol _ _ None _ etp_no_bol). }
  destruct (write_writable f p (Some content) content1 Hf)
    as (f1 & Hw1 & Hf1).
  destruct (write_writable f1 p _
              (pre ++ generate_toc hs1 max_depth min_depth
               ++ newline :: post) Hf1)
    as (f2 & Hw2 & Hf2).
  exists f1, f2.
  split; [exact Htoc|]. split.
  { rewrite (update_file_toc_headers f p content)
      by (try apply (read_regular _ _ _ _ Hf); assumption).
    fold hs. rewrite Hrun1. now rewrite Hw1. }
  split; [exact (read_regular _ _ _ _ Hf1)|].
  split.
  { apply blocks_block_at;
      [apply Hpre | now apply body_absent_listed | exact (Hnl 0)]. }
  split; [exact Htoc1|].
  split.
  { rewrite (update_file_toc_headers f1 p content1)
      by (try apply (read_regular _ _ _ _ Hf1); assumption).
    fold hs1. unfold content1 at 1.
    rewrite updated_content_block_at;
      [|apply Hpre | now apply body_absent_listed | exact (Hnl 0) | assumption].
    now rewrite Hw2. }
  split.
  { rewrite (read_regular _ _ _ _ Hf2), Htoc1, <- app_assoc. reflexivity. }
  apply blocks_block_at;
    [apply Hpre | now apply body_absent_listed | exact (Hnl 1)].
Qed.

(* ================================================================== *)
(** * The claims of the specification *)
(* ================================================================== *)

(** C1.  For a non-empty header sequence and any depth window, the lines
    that [generate_toc] joins are the three opening lines, one entry per
    header whose level lies within [min_depth, max_depth], in order, and
    no entry for any other header, then the three closing lines.  Each
    entry is indented by two spaces per level above the baseline, and the
    baseline is the least level among all the headers given, listed or
    not. *)
Theorem generate_toc_entries (headers : list header) (max_depth min_depth : Z) :
  headers <> [] ->
  let baseline := min_level_of headers in
  (exists h, In h headers /\ level h = baseline) /\
  (forall h, In h headers -> (baseline <= level h)%Z) /\
  generate_toc headers max_depth min_depth =
  join [newline]
    ([toc_start; txt "## Table of Contents"; []]
     ++ map (fun h =>
               repeat " "%char (2 * Z.to_nat (level h - baseline))
               ++ txt "- [" ++ title h ++ txt "](#" ++ anchor h ++ txt ")")
            (filter (fun h => (min_depth <=? level h)%Z
                              && (level h <=? max_depth)%Z) headers)
     ++ [[]; toc_end; []]).
Proof.
  intros Hne baseline. split; [now apply min_level_attained|].
  split; [intros h; apply min_level_lower|].
  unfold generate_toc. destruct headers as [|h0 hs]; [congruence|].
  rewrite toc_lines_filter. do 3 f_equal.
  apply map_ext. intros h. unfold toc_entry. now rewrite str_mul_spaces.
Qed.

(** The example of the specification: levels 2 and 3 under the default
    window indent relative to level 2. *)
Lemma generate_toc_entries_witness :
  generate_toc [(2%Z, txt "A", txt "a"); (3%Z, txt "B", txt "b")] 6 1 =
  txt "<!-- TOC START -->
## Table of Contents

- [A](#a)
  - [B](#b)

<!-- TOC END -->
".
Proof.
  destruct (generate_toc_entries
              [(2%Z, txt "A", txt "a"); (3%Z, txt "B", txt "b")] 6 1)
    as (_ & _ & ->); [discriminate | reflexivity].
Defined.

(** C2, as the specification words it, fails: the class [[^\w\s-]] of the
    source leaves the hyphen in place. *)
Lemma anchor_keeps_hyphen :
  generate_anchor (txt "a-b") = txt "a-b" /\
  spec_anchor (txt "a-b") = txt "ab" /\
  generate_anchor (txt "a-b") <> spec_anchor (txt "a-b").
Proof. repeat split. discriminate. Qed.

(** C2, amended.  The anchor of a title is obtained by lowercasing it,
    removing every character that is not a letter, digit, underscore,
    whitespace or hyphen, turning each run of whitespace into one hyphen,
    each run of hyphens into one, and stripping the hyphens at both
    ends. *)
Theorem generate_anchor_rule (title : str) :
  generate_anchor title =
  strip (is_char hyphen)
    (collapse (is_char hyphen)
       (collapse is_space
          (filter (fun c => is_word c || is_space c || is_char hyphen c)
                  (lower title)))).
Proof.
  unfold generate_anchor, collapse, sub_with.
  rewrite sub_delete, !sub_collapse. do 3 f_equal.
  apply filter_ext. intros c. unfold special.
  now rewrite negb_involutive.
Qed.

(** C3.  Anchor generation is idempotent, and the anchor of
    "Hello, World!!" is "hello-world". *)
Theorem generate_anchor_idempotent :
  (forall t, generate_anchor (generate_anchor t) = generate_anchor t) /\
  generate_anchor (txt "Hello, World!!") = txt "hello-world".
Proof.
  split; [|reflexivity]. intros t. rewrite !generate_anchor_slug.
  apply slug_fixed.
  - apply slug_tidy.
  - intros x y. apply slug_no_pair.
  - apply slug_head.
  - apply slug_last.
Qed.

(** C10.  An anchor holds no whitespace and no two hyphens in a row, and
    neither starts nor ends with a hyphen. *)
Theorem generate_anchor_shape (title : str) :
  Forall (fun c => is_space c = false) (generate_anchor title) /\
  (forall x y, generate_anchor title <> x ++ hyphen :: hyphen :: y) /\
  (forall x, generate_anchor title <> hyphen :: x) /\
  (forall x, generate_anchor title <> x ++ [hyphen]).
Proof.
  rewrite generate_anchor_slug. repeat split.
  - eapply Forall_impl; [|apply slug_tidy]. now intros c (_ & ? & _).
  - intros x y. apply slug_no_pair.
  - apply slug_head.
  - apply slug_last.
Qed.

(** C4.  A file without headers is left as it is: the update writes
    nothing, prints the "no headers found" warning and returns failure;
    run on that file alone, [main] reports none of one file processed. *)
Theorem no_headers_no_write (f : fs) (p : path) (content : str) (w : bool)
        (max_depth min_depth : Z) (insert_after : option str) :
  f p = Regular (Some content) w ->
  extract_headers content = [] ->
  update_file_toc f p max_depth min_depth insert_after
  = (false, [NoHeadersFound p], f) /\
  forall a today,
    arg_path a = p -> arg_update_readme a = false ->
    lower (suffix p) = txt ".md" ->
    main a today f = (0, [NoHeadersFound p; Summary 0 1; NoneSucceeded], f).
Proof.
  intros Hf Hh.
  assert (Hu : forall mx mn ia,
             update_file_toc f p mx mn ia = (false, [NoHeadersFound p], f)).
  { intros mx mn ia. unfold update_file_toc.
    now rewrite (read_regular _ _ _ _ Hf), Hh. }
  split; [apply Hu|].
  intros a today Hp Hr Hs. unfold main. rewrite Hr, Hp.
  unfold exists_path, is_file. rewrite Hf. cbn [negb].
  rewrite Hs. unfold str_eqb.
  destruct (str_eq_dec (txt ".md") (txt ".md")); [|congruence].
  now rewrite Hu.
Qed.

Lemma no_headers_no_write_witness :
  let f : fs := fun _ => Regular (Some (txt "plain text")) true in
  update_file_toc f [txt "notes.md"] 6 1 None
  = (false, [NoHeadersFound [txt "notes.md"]], f).
Proof.
  intros f.
  apply (no_headers_no_write f [txt "notes.md"] (txt "plain text") true
           6 1 None); reflexivity.
Defined.

(** C5, as stated, fails, and in more than one way; each part below is
    one input, a file without sentinel pair that has a header.

    - A header title that holds the closing sentinel ends the block of the
      second run too early.
    - The second run hands the rendered table to [re.sub] as a replacement
      template: a title that holds [\g<0>] twice brings the old block in
      twice, and the file holds two blocks after the second run.
    - Where the insert-after text occurs, the first run hands that text
      and the table to [re.sub] as a replacement template: with the
      insert-after text [\q] the call raises, and nothing is inserted.
    - With an opening sentinel in front of the place of insertion, the
      block the second run finds starts there, not where the first run put
      its block.
    - The insertion can take the headers away: the occurrence is replaced
      by the insert-after text as given, here the heading of a table of
      contents, and the second run finds no header.
    - The insertion can bring a header in, as the text behind the block
      starts a line: with a title that holds the closing sentinel and then
      the opening one, or [\g<0>] twice, the file holds two blocks after
      the second run. *)
Lemma round_trip_fails :
  (* the closing sentinel in a title *)
  (let content := txt "# <!-- TOC END -->" in
   let f : fs := fun _ => Regular (Some content) true in
   let toc := generate_toc (extract_headers content) 6 1 in
   let run1 := update_file_toc f [] 6 1 None in
   extract_headers content = [(1%Z, txt "<!-- TOC END -->", txt "toc-end")] /\
   re_search existing_toc_pattern content = None /\
   fst run1 = (true, [AddedNewTOC []]) /\
   read_file (snd run1) [] = Some (toc ++ newline :: content) /\
   blocks (toc ++ newline :: content) =
   [txt "<!-- TOC START -->
## Table of Contents

- [<!-- TOC END -->"] /\
   ~ exists block,
       toc = block ++ [newline] /\
       blocks (toc ++ newline :: content) = [block]) /\
  (* a title that the replacement expands *)
  (let content := txt "# \g<0>\g<0>" in
   let f : fs := fun _ => Regular (Some content) true in
   let run1 := update_file_toc f [] 6 1 None in
   let run2 := update_file_toc (snd run1) [] 6 1 None in
   re_search existing_toc_pattern content = None /\
   fst run1 = (true, [AddedNewTOC []]) /\
   fst run2 = (true, [UpdatedExistingTOC []]) /\
   option_map (fun updated => length (blocks updated))
              (read_file (snd run2) []) = Some 2) /\
  (* an insert-after text that the replacement refuses *)
  (let content := txt "# a
\q" in
   let f : fs := fun _ => Regular (Some content) true in
   let run1 := update_file_toc f [] 6 1 (Some (txt "\q")) in
   re_search existing_toc_pattern content = None /\
   extract_headers content = [(1%Z, txt "a", txt "a")] /\
   fst run1 = (false, [ErrorProcessing []]) /\
   read_file (snd run1) [] = Some content) /\
  (* an opening sentinel in front of the place of insertion *)
  (let content := txt "# <!-- TOC START -->" in
   let f : fs := fun _ => Regular (Some content) true in
   let toc := generate_toc (extract_headers content) 6 1 in
   let run1 := update_file_toc f [] 6 1 (Some (txt ">")) in
   re_search existing_toc_pattern content = None /\
   fst run1 = (true, [AddedNewTOC []]) /\
   read_file (snd run1) [] = Some (content ++ newline :: newline :: toc) /\
   blocks (content ++ newline :: newline :: toc) =
   [txt "<!-- TOC START -->

<!-- TOC START -->
## Table of Contents

- [<!-- TOC START -->](#toc-start)

<!-- TOC END -->"]) /\
  (* no header left after the insertion *)
  (let content := txt "# tocx" in
   let f : fs := fun _ => Regular (Some content) true in
   let run1 := update_file_toc f [] 6 1 (Some (txt "# toc")) in
   let run2 := update_file_toc (snd run1) [] 6 1 (Some (txt "# toc")) in
   re_search existing_toc_pattern content = None /\
   extract_headers content = [(1%Z, txt "tocx", txt "tocx")] /\
   fst run1 = (true, [AddedNewTOC []]) /\
   fst run2 = (false, [NoHeadersFound []])) /\
  (* a new header after the insertion, with both sentinels in its title *)
  (let content := txt "# a
x# <!-- TOC END --><!-- TOC START -->" in
   let f : fs := fun _ => Regular (Some content) true in
   let run1 := update_file_toc f [] 6 1 (Some (txt "x")) in
   let run2 := update_file_toc (snd run1) [] 6 1 (Some (txt "x")) in
   re_search existing_toc_pattern content = None /\
   extract_headers content = [(1%Z, txt "a", txt "a")] /\
   fst run1 = (true, [AddedNewTOC []]) /\
   fst run2 = (true, [UpdatedExistingTOC []]) /\
   option_map (fun updated => length (blocks updated))
              (read_file (snd run2) []) = Some 2) /\
  (* a new header after the insertion, with a title that is expanded *)
  (let content := txt "# a
x# \g<0>\g<0>" in
   let f : fs := fun _ => Regular (Some content) true in
   let run1 := update_file_toc f [] 6 1 (Some (txt "x")) in
   let run2 := update_file_toc (snd run1) [] 6 1 (Some (txt "x")) in
   re_search existing_toc_pattern content = None /\
   extract_headers content = [(1%Z, txt "a", txt "a")] /\
   fst run1 = (true, [AddedNewTOC []]) /\
   fst run2 = (true, [UpdatedExistingTOC []]) /\
   option_map (fun updated => length (blocks updated))
              (read_file (snd run2) []) = Some 2).
Proof.
  split.
  { cbv zeta. repeat split.
    intros (block & E1 & E2). vm_compute in E2. injection E2 as <-.
    vm_compute in E1. discriminate. }
  cbv zeta. repeat split; vm_compute; reflexivity.
Qed.

(** C5, amended.  Take a writable file with at least one header and no
    sentinel pair, such that no title listed in its table holds the
    closing sentinel and the table, as a replacement, is put in as it
    stands ([table_fit]; true of titles without backslash).  Where the
    insert-after text occurs in the file, take also [insertion_fit]: the
    insert-after text followed by the table is put in as it stands, no
    opening sentinel stands in front of the place of insertion, and the
    file with the block in it has headers whose table is fit as well.

    Then the first update puts the rendered block at its place, on top or
    behind the insert-after text ([insertion]), so that the file holds
    exactly that block; the second update finds that block and replaces
    it where it stands by the block rendered from the file as it is then,
    and the file again holds exactly one block.  With the block on top
    the two blocks are the same.

    Each of these conditions is needed, as the lemma above shows, with
    one input for each. *)
Theorem toc_round_trip (f : fs) (p : path) (content : str)
        (max_depth min_depth : Z) (insert_after : option str) :
  f p = Regular (Some content) true ->
  extract_headers content <> [] ->
  re_search existing_toc_pattern content = None ->
  table_fit (extract_headers content) max_depth min_depth ->
  insertion_fit content insert_after max_depth min_depth ->
  let pre := fst (insertion content insert_after) in
  let post := snd (insertion content insert_after) in
  exists block block2 f1 f2,
    generate_toc (extract_headers content) max_depth min_depth
    = block ++ [newline] /\
    update_file_toc f p max_depth min_depth insert_after
    = (true, [AddedNewTOC p], f1) /\
    read_file f1 p = Some (pre ++ block ++ newline :: post) /\
    blocks (pre ++ block ++ newline :: post) = [block] /\
    generate_toc (extract_headers (pre ++ block ++ newline :: post))
                 max_depth min_depth
    = block2 ++ [newline] /\
    update_file_toc f1 p max_depth min_depth insert_after
    = (true, [UpdatedExistingTOC p], f2) /\
    read_file f2 p = Some (pre ++ block2 ++ newline :: newline :: post) /\
    blocks (pre ++ block2 ++ newline :: newline :: post) = [block2] /\
    (insert_after_absent content insert_after ->
     pre = [] /\ post = newline :: content /\ block2 = block).
Proof.
  intros Hf Hne Hnone [Hend Hlit] Hfit.
  set (hs := extract_headers content) in *.
  set (toc := generate_toc hs max_depth min_depth) in *.
  pose proof (generate_toc_block hs max_depth min_depth Hne) as Htoc.
  assert (Hclean : Forall clean hs) by apply extract_headers_clean.
  (* the block on top *)
  assert (Htop : insertion content insert_after = ([], newline :: content)
                 -> insert_after_absent content insert_after ->
                 let pre := fst (insertion content insert_after) in
                 let post := snd (insertion content insert_after) in
                 exists block block2 f1 f2,
    toc = block ++ [newline] /\
    update_file_toc f p max_depth min_depth insert_after
    = (true, [AddedNewTOC p], f1) /\
    read_file f1 p = Some (pre ++ block ++ newline :: post) /\
    blocks (pre ++ block ++ newline :: post) = [block] /\
    generate_toc (extract_headers (pre ++ block ++ newline :: post))
                 max_depth min_depth
    = block2 ++ [newline] /\
    update_file_toc f1 p max_depth min_depth insert_after
    = (true, [UpdatedExistingTOC p], f2) /\
    read_file f2 p = Some (pre ++ block2 ++ newline :: newline :: post) /\
    blocks (pre ++ block2 ++ newline :: newline :: post) = [block2] /\
    (insert_after_absent content insert_after ->
     pre = [] /\ post = newline :: content /\ block2 = block)).
  { intros Hins Habs. rewrite Hins. cbn [fst snd app].
    set (block := toc_block (entries hs max_depth min_depth)) in *.
    assert (Hb : block ++ newline :: newline :: content
                 = toc ++ newline :: content).
    { unfold toc. rewrite Htoc, <- app_assoc. reflexivity. }
    assert (Hh1 : extract_headers (toc ++ newline :: content) = hs)
      by (now apply extract_headers_toc).
    destruct (round_trip_at f p content max_depth min_depth insert_after
                [] (newline :: content))
      as (f1 & f2 & H1 & H2 & H3 & H4 & H5 & H6 & H7 & H8);
      try assumption.
    - fold hs. now apply updated_content_top.
    - reflexivity.
    - apply search_after_newline.
      now rewrite (search_no_bol _ _ None _ etp_no_bol).
    - fold hs toc. cbn [app]. now rewrite Hh1.
    - fold hs toc. cbn [app]. rewrite Hh1. exact (conj Hend Hlit).
    - fold hs in H3, H4, H5, H7, H8. fold block in H3, H4, H5, H7, H8.
      cbn [app] in H3, H4, H5, H7, H8.
      rewrite Hb, Hh1 in H5, H7, H8. fold block in H5, H7, H8.
      exists block, block, f1, f2.
      split; [exact Htoc|]. split; [exact H2|]. split; [exact H3|].
      split; [exact H4|]. split; [rewrite Hb, Hh1; exact Htoc|].
      split; [exact H6|]. split; [exact H7|]. split; [exact H8|].
      intros _. repeat split. }
  destruct insert_after as [[|a after]|]; try (now apply Htop).
  destruct (re_search (lit_ci (a :: after)) content)
    as [[[pre0 caps] post0]|] eqn:Hs.
  2:{ apply Htop; unfold insertion, insert_after_absent; now rewrite Hs. }
  (* the block behind the insert-after text *)
  clear Htop. unfold insertion_fit in Hfit. rewrite Hs in Hfit.
  cbv zeta in Hfit. fold hs toc in Hfit.
  destruct Hfit as (Hlit1 & Hstart & Hne1 & Hfit1).
  unfold insertion. rewrite Hs. cbn [fst snd].
  set (after' := a :: after) in *.
  assert (Happ : (pre0 ++ after' ++ [newline; newline]) ++ toc ++ post0
                 = pre0 ++ after' ++ [newline; newline] ++ toc ++ post0)
    by (now rewrite <- !app_assoc).
  destruct (round_trip_at f p content max_depth min_depth (Some after')
              (pre0 ++ after' ++ [newline; newline]) post0)
    as (f1 & f2 & H1 & H2 & H3 & H4 & H5 & H6 & H7 & H8);
    try assumption.
  - fold hs toc. rewrite Happ.
    apply (updated_content_insert p content hs max_depth min_depth after'
             pre0 caps post0); try assumption. discriminate.
  - intros tail. rewrite app_assoc. now apply absent_start_before.
  - pose proof (search_split _ _ _ _ _ _ Hs) as Hc.
    unfold re_search in Hnone. rewrite Hc, app_assoc in Hnone.
    exact (search_suffix _ _ _ _ etp_no_bol Hnone).
  - fold hs toc. now rewrite Happ.
  - fold hs toc. now rewrite Happ.
  - exists (toc_block (entries hs max_depth min_depth)).
    eexists. exists f1, f2.
    repeat (split; [eassumption|]).
    subst after'. unfold insert_after_absent. rewrite Hs. discriminate.
Qed.

Lemma toc_round_trip_witness :
  let content := txt "# Guide
Overview
## Setup
" in
  let f : fs := fun _ => Regular (Some content) true in
  let pre := txt "# Guide
Overview

" in
  let post := txt "
## Setup
" in
  exists block block2 f1 f2,
    generate_toc (extract_headers content) 6 1 = block ++ [newline] /\
    update_file_toc f [] 6 1 (Some (txt "Overview"))
    = (true, [AddedNewTOC []], f1) /\
    read_file f1 [] = Some (pre ++ block ++ newline :: post) /\
    blocks (pre ++ block ++ newline :: post) = [block] /\
    generate_toc (extract_headers (pre ++ block ++ newline :: post)) 6 1
    = block2 ++ [newline] /\
    update_file_toc f1 [] 6 1 (Some (txt "Overview"))
    = (true, [UpdatedExistingTOC []], f2) /\
    read_file f2 [] = Some (pre ++ block2 ++ newline :: newline :: post) /\
    blocks (pre ++ block2 ++ newline :: newline :: post) = [block2] /\
    (insert_after_absent content (Some (txt "Overview")) ->
     pre = [] /\ post = newline :: content /\ block2 = block).
Proof.
  intros content f pre post.
  apply (toc_round_trip f [] content 6 1 (Some (txt "Overview"))).
  - reflexivity.
  - discriminate.
  - reflexivity.
  - split; [repeat constructor | reflexivity].
  - vm_compute. repeat split; try discriminate; repeat constructor.
Defined.

(** C6 fails on the code: the occurrence found without regard to case is
    itself replaced by the insert-after text as it was typed.  With the
    content "# Intro" and the insert-after text "# intro", the line of the
    file becomes "# intro". *)
Lemma insert_after_rewrites_occurrence :
  let content := txt "# Intro
" in
  let headers := extract_headers content in
  let toc := generate_toc headers 6 1 in
  re_search existing_toc_pattern content = None /\
  (exists caps,
     re_search (lit_ci (txt "# intro")) content = Some ([], caps, [newline])
     /\ matched caps = txt "# Intro") /\
  updated_content [] content headers 6 1 (Some (txt "# intro")) =
  Some (txt "# intro" ++ newline :: newline :: toc ++ [newline],
        AddedNewTOC []) /\
  txt "# intro" ++ newline :: newline :: toc ++ [newline] <>
  txt "# Intro" ++ newline :: newline :: toc ++ [newline].
Proof.
  cbv zeta. split; [reflexivity|]. split.
  - eexists. split; reflexivity.
  - split; [reflexivity | discriminate].
Qed.

(** C7.  The statistics updater of [generate-toc.py] and a README whose
    statistics lines are not found: it reports failure and leaves every
    file as it is.  Where the lines are found, the found section is
    replaced by the freshly computed lines (so are later occurrences), the
    date line is set to today, and the result is written back. *)
Theorem readme_statistics (f : fs) (today : date) (repo : path)
        (content : str) (w : bool) :
  let readme := repo ++ [txt "README.md"] in
  let index := fst (generate_repo_index f repo) in
  let msgs := snd (generate_repo_index f repo) in
  let quick := length (quick_reference index) in
  let detailed := length (detailed_guides index) in
  let total := quick + detailed + length (platform_specific index) in
  let fresh := new_stats total quick detailed in
  f readme = Regular (Some content) w ->
  (re_search stats_pattern content = None ->
   update_main_readme f today repo
   = (false, msgs ++ [StatisticsNotFound], f)) /\
  (forall pre caps post,
     re_search stats_pattern content = Some (pre, caps, post) ->
     let updated :=
       stamp today
         (pre ++ fresh ++ sub_with (plain fresh) stats_pattern None post) in
     content = pre ++ matched caps ++ post /\
     if w
     then exists f',
         update_main_readme f today repo
         = (true, msgs ++ [UpdatedStatistics; UpdatedReadme], f') /\
         read_file f' readme = Some updated
     else update_main_readme f today repo
          = (false, msgs ++ [UpdatedStatistics; ErrorUpdatingReadme], f)).
Proof.
  intros readme index msgs quick detailed total fresh Hf.
  subst index msgs quick detailed total fresh.
  unfold update_main_readme. fold readme.
  unfold exists_path. rewrite Hf. cbn [negb].
  destruct (generate_repo_index f repo) as [index msgs]. cbn [fst snd].
  rewrite (read_regular _ _ _ _ Hf). split.
  - intros H. now rewrite H.
  - intros pre caps post H. split.
    { exact (search_split _ _ _ _ _ _ H). }
    rewrite H. cbn [found].
    rewrite re_sub_plain by apply new_stats_plain.
    rewrite (sub_stats _ _ _ _ _ H).
    rewrite date_step.
    destruct w.
    + match goal with
      | |- context [write_file f readme ?u] =>
          destruct (write_writable f readme _ u Hf) as (f' & Hw & Hf')
      end.
      exists f'. rewrite Hw. split; [reflexivity|].
      now apply (read_regular _ _ _ true).
    + unfold write_file. now rewrite Hf.
Qed.

Lemma readme_statistics_witness :
  let content := txt "# Notes
- **Total Issues:** 7
- **Quick Fixes:** 4
- **Detailed Guides:** 3
- **Last Updated:** 2020-01-01
" in
  let f : fs :=
    fun p => if path_eqb p [txt "README.md"]
             then Regular (Some content) true else Absent in
  let today := {| year := 2026; month := 11; day := 4 |} in
  exists f',
    update_main_readme f today []
    = (true, [UpdatedStatistics; UpdatedReadme], f') /\
    read_file f' [txt "README.md"] = Some (txt "# Notes
- **Total Issues:** 0
- **Quick Fixes:** 0
- **Detailed Guides:** 0
- **Last Updated:** 2026-11-04
").
Proof.
  intros content f today.
  destruct (readme_statistics f today [] content true eq_refl) as [_ H].
  destruct (re_search stats_pattern content) as [[[pre caps] post]|] eqn:E;
    [|vm_compute in E; discriminate].
  destruct (H pre caps post eq_refl) as (_ & f' & H1 & H2).
  exists f'. split; [exact H1|]. cbn [app] in H2. rewrite H2.
  vm_compute in E. injection E as <- <- <-. vm_compute. reflexivity.
Defined.

(** C8, as stated, fails: a file with no line that begins with "## "
    counts for zero, not for minus one. *)
Lemma count_issues_never_negative :
  let content := txt "# Notes
some text
" in
  UpdateStats.count_issues content = 0%Z /\
  spec_count_issues content = (-1)%Z /\
  UpdateStats.count_issues content <> spec_count_issues content.
Proof. repeat split. discriminate. Qed.

(** C8, amended.  The count of a file is the number of its lines that
    begin with "##" followed by a whitespace character (the line break
    included), minus one when there is such a line and zero when there is
    none.  The quick-fix and detailed-guide counts are the sums of these
    counts over the markdown files of their directories, and the published
    total is their sum. *)
Theorem count_issues_rule :
  (forall content,
     UpdateStats.count_issues content =
     Z.max 0 (Z.of_nat (count_lines begins_section true content) - 1)) /\
  (forall f quick_contents detailed_contents,
     Forall2 (fun p c => read_file f p = Some c)
             (glob_md f [txt "quick-reference"]) quick_contents ->
     Forall2 (fun p c => read_file f p = Some c)
             (rglob_md f [txt "detailed-guides"]) detailed_contents ->
     let quick := sum_Z (map UpdateStats.count_issues quick_contents) in
     let detailed := sum_Z (map UpdateStats.count_issues detailed_contents) in
     UpdateStats.count_quick_fixes f = Some quick /\
     UpdateStats.count_detailed_guides f = Some detailed /\
     UpdateStats.readme_stats f =
     Some {| UpdateStats.total_issues := quick + detailed;
             UpdateStats.quick_fixes := quick;
             UpdateStats.detailed_guides := detailed |}) /\
  (forall st last_updated,
     exists before after,
       UpdateStats.new_stats st last_updated =
       before ++ txt "- **Total Issues:** "
       ++ UpdateStats.str_of_Z (UpdateStats.total_issues st) ++ after).
Proof.
  split; [apply count_issues_lines|]. split.
  - intros f qc dc Hq Hd quick detailed.
    assert (Eq : UpdateStats.count_quick_fixes f = Some quick).
    { unfold UpdateStats.count_quick_fixes, UpdateStats.count_files.
      now rewrite (count_files_sum _ _ _ 0%Z Hq). }
    assert (Ed : UpdateStats.count_detailed_guides f = Some detailed).
    { unfold UpdateStats.count_detailed_guides, UpdateStats.count_files.
      now rewrite (count_files_sum _ _ _ 0%Z Hd). }
    repeat split; try assumption.
    unfold UpdateStats.readme_stats. now rewrite Eq, Ed.
  - intros st d. unfold UpdateStats.new_stats.
    exists (txt "## Statistics" ++ [newline; newline]). eexists.
    rewrite <- !app_assoc. reflexivity.
Qed.

Lemma count_issues_rule_witness :
  let guide := txt "## Title
## First issue
## Second issue
" in
  let f : fs :=
    fun p =>
      if path_eqb p [txt "quick-reference"]
      then Directory [[txt "quick-reference"; txt "a.md"]]
                     [[txt "quick-reference"; txt "a.md"]]
      else if path_eqb p [txt "quick-reference"; txt "a.md"]
      then Regular (Some guide) true
      else Absent in
  UpdateStats.readme_stats f =
  Some {| UpdateStats.total_issues := 2;
          UpdateStats.quick_fixes := 2;
          UpdateStats.detailed_guides := 0 |}.
Proof.
  intros guide f.
  destruct count_issues_rule as (_ & H & _).
  destruct (H f [guide] []) as (_ & _ & ->).
  - repeat constructor.
  - constructor.
  - reflexivity.
Defined.

(** C9, as stated, fails: with the README-update flag the tool returns
    before it looks at the path, and exits zero for a path that does not
    exist. *)
Lemma readme_mode_exits_zero :
  let a := {| arg_path := [txt "missing"]; arg_max_depth := 6;
              arg_min_depth := 1; arg_insert_after := None;
              arg_update_readme := true; arg_recursive := false |} in
  let f : fs := fun _ => Absent in
  let today := {| year := 2026; month := 11; day := 4 |} in
  exists_path f (arg_path a) = false /\
  main a today f
  = (0, [ReadmeNotFound [txt "missing"; txt "README.md"]], f).
Proof. split; reflexivity. Qed.

(** C9, amended.  With the README-update flag [main] exits zero and
    prints no summary.  Without it: a path that does not exist, or a file
    whose suffix is not a markdown one, ends the run with exit status one;
    a directory without markdown files ends it with exit status zero and a
    warning in place of the summary; in every other case the status is
    zero, the lines of the updates are printed in order, and the summary
    is printed last: it counts the files worked on (the file itself, or
    the markdown files found) and, of these, the files whose update
    returned success.  Where the files are distinct, each update is the
    one its file would get on the file system as it was found. *)
Theorem main_exit_status (a : args) (today : date) (f : fs) :
  let p := arg_path a in
  let md_files := if arg_recursive a then rglob_md f p else glob_md f p in
  let status := fst (fst (main a today f)) in
  let log := snd (fst (main a today f)) in
  (arg_update_readme a = true ->
   status = 0 /\ forall s t, ~ In (Summary s t) log) /\
  (arg_update_readme a = false ->
   (exists_path f p = false ->
    main a today f = (1, [PathDoesNotExist p], f)) /\
   (is_file f p = true -> lower (suffix p) <> txt ".md" ->
    main a today f = (1, [NotMarkdown p], f)) /\
   (is_dir f p = true -> md_files = [] ->
    main a today f = (0, [NoMarkdownFiles p], f)) /\
   (exists_path f p = true ->
    (is_file f p = true -> lower (suffix p) = txt ".md") ->
    (is_dir f p = true -> md_files <> []) ->
    let files := run_files a f in
    let results := outcomes a f files in
    status = 0 /\
    log = run_heading a f ++ concat (map snd results)
          ++ summary (length (filter fst results)) (length files) /\
    (NoDup files ->
     results
     = map (fun q => fst (update_file_toc f q (arg_max_depth a)
                            (arg_min_depth a) (arg_insert_after a)))
           files))).
Proof.
  intros p md_files status log. subst status log. unfold main. fold p.
  split.
  - intros Hr. rewrite Hr.
    pose proof (update_main_readme_log f today p) as Hlog.
    destruct (update_main_readme f today p) as [[ok msgs] f']. cbn in *.
    split; [reflexivity|]. intros s t. apply no_summary_in.
    apply no_summary_app; [assumption|]. destruct ok; repeat constructor.
  - intros Hr. rewrite Hr. split; [|split; [|split]].
    + intros He. now rewrite He.
    + intros Hfile Hs. unfold exists_path, is_file in *.
      destruct (f p); try discriminate. cbn [negb].
      unfold str_eqb. now destruct (str_eq_dec _ _).
    + intros Hd Hm. unfold exists_path, is_file, is_dir in *.
      destruct (f p) eqn:Ep; try discriminate. cbn [negb].
      fold md_files. now rewrite Hm.
    + intros He Hfile Hdir. cbv zeta.
      pose proof (fun Hnd : NoDup (run_files a f) =>
                    outcomes_apart a f (run_files a f) f Hnd
                      (fun q _ => eq_refl)) as Hapart.
      unfold run_heading, run_files in Hapart |- *. fold p in Hapart |- *.
      rewrite He. cbn [negb].
      destruct (is_file f p).
      * rewrite (Hfile eq_refl). unfold str_eqb.
        destruct (str_eq_dec _ _); [|congruence].
        cbn [outcomes] in *.
        destruct (update_file_toc f p _ _ _) as [[ok msgs] f'].
        cbn [fst snd map concat filter app length] in *.
        split; [reflexivity|]. split; [|exact Hapart].
        rewrite app_nil_r. now destruct ok.
      * destruct (is_dir f p).
        -- fold md_files in Hapart |- *.
           destruct md_files as [|m ms] eqn:Em; [now destruct Hdir|].
           rewrite <- Em in *. clear Em.
           assert (En : (length md_files =? 0) = false).
           { apply Nat.eqb_neq. intros E.
             apply length_zero_iff_nil in E. now apply Hdir. }
           rewrite En. unfold process_files.
           pose proof (process_fold_outcomes a md_files 0 [] f) as Hfold.
           destruct (fold_left _ md_files (0, [], f)) as [[n msgs] f'].
           cbn [fst snd] in *. injection Hfold as -> ->.
           split; [reflexivity|]. split; [|exact Hapart]. reflexivity.
        -- split; [reflexivity|]. split; [reflexivity|].
           intros _. reflexivity.
Qed.

Lemma main_exit_status_witness :
  let a := {| arg_path := [txt "notes.txt"]; arg_max_depth := 6;
              arg_min_depth := 1; arg_insert_after := None;
              arg_update_readme := false; arg_recursive := false |} in
  let f : fs := fun _ => Regular (Some (txt "# Notes")) true in
  let today := {| year := 2026; month := 11; day := 4 |} in
  let b := {| arg_path := [txt "docs"]; arg_max_depth := 6;
              arg_min_depth := 1; arg_insert_after := None;
              arg_update_readme := false; arg_recursive := false |} in
  let first := [txt "docs"; txt "a.md"] in
  let second := [txt "docs"; txt "b.md"] in
  let g : fs := fun q =>
    if path_eqb q [txt "docs"] then Directory [first; second] [first; second]
    else if path_eqb q first then Regular (Some (txt "# A")) true
    else if path_eqb q second then Regular (Some (txt "no header")) true
    else Absent in
  main a today f = (1, [NotMarkdown [txt "notes.txt"]], f) /\
  fst (main b today g)
  = (0, [FoundFiles 2; AddedNewTOC first; NoHeadersFound second;
         Summary 1 2; SomeIssues]).
Proof.
  intros a f today b first second g. split.
  - destruct (main_exit_status a today f) as [_ H].
    destruct (H eq_refl) as (_ & H2 & _).
    apply H2; [reflexivity | discriminate].
  - destruct (main_exit_status b today g) as [_ H].
    destruct (H eq_refl) as (_ & _ & _ & H4).
    destruct H4 as (Hstatus & Hlog & _);
      [reflexivity | discriminate | discriminate |].
    rewrite (surjective_pairing (fst (main b today g))), Hstatus, Hlog.
    reflexivity.
Defined.

(* ================================================================== *)
(** * Further properties of the header extractor *)
(* ================================================================== *)

Lemma strip_strip p s : strip p (strip p s) = strip p s.
Proof.
  apply strip_fixed.
  - intros c x E. now apply (strip_head p s c x).
  - intros c x E. now apply (strip_last p s c x).
Qed.

(** X1.  Every extracted header has a level from 1 to 6, a title without line
    break and without whitespace at either end that is not a label of a
    table of contents, and the anchor generated from that title. *)
Theorem extract_headers_wellformed (content : str) :
  Forall (fun h =>
            (1 <= level h <= 6)%Z /\
            forallb not_newline (title h) = true /\
            strip is_space (title h) = title h /\
            toc_label (title h) = false /\
            anchor h = generate_anchor (title h))
         (extract_headers content).
Proof.
  rewrite extract_headers_flat. apply Forall_forall. intros h Hin.
  apply in_flat_map in Hin. destruct Hin as (m & Hm & Hh).
  apply in_hits, scan_hits_sound in Hm.
  destruct Hm as (e & prev & s' & rest & Hm).
  pose proof (match_here_counts _ _ _ _ _ _ Hm) as Hc.
  apply match_here_sound in Hm. destruct Hm as [_ Hm].
  unfold header_pattern in Hm, Hc.
  inversion Hm as [|? c0 ? l0 _ H0]; subst.
  inversion H0 as [|? c1 ? l1 _ H1]; subst.
  inversion H1 as [|? c2 ? l2 _ H2]; subst.
  inversion H2 as [|? c3 ? l3 Hc3 H3]; subst.
  inversion Hc as [|? ? ? ? _ Hc0]; subst.
  inversion Hc0 as [|? ? ? ? Hn1 _]; subst.
  cbn [item_text plus] in Hc3. cbn [item_count] in Hn1.
  destruct Hn1 as [Hlo Hhi]. specialize (Hhi 6 eq_refl).
  unfold header_of in Hh. cbn [nth] in Hh.
  destruct (existsb _ _) eqn:El; [contradiction|].
  destruct Hh as [<- | []]. cbn [level title anchor fst snd].
  repeat split; try lia.
  - apply forallb_Forall. now apply strip_Forall.
  - apply strip_strip.
  - exact El.
Qed.

(** X2.  A text none of whose lines starts with [#] has no headers. *)
Theorem no_hash_no_headers (content : str) :
  quiet true content = true -> extract_headers content = [].
Proof.
  intros H. rewrite extract_headers_flat. unfold re_findall.
  rewrite <- (app_nil_r content).
  rewrite scan_header_quiet by exact H.
  rewrite hits_app, hits_gaps.
  rewrite scan_end_miss; [reflexivity|].
  unfold header_pattern. rewrite match_bol.
  now destruct (at_bol _).
Qed.

Lemma no_hash_no_headers_witness :
  extract_headers (txt "plain text
 # indented, so no header
") = [].
Proof. apply no_hash_no_headers. reflexivity. Defined.





(* ================================================================== *)
(** * Further properties of the anchor generator *)
(* ================================================================== *)

(** X4.  An anchor is made of lowercase word characters and hyphens. *)
Theorem generate_anchor_chars (title : str) :
  forallb anchor_char (generate_anchor title) = true.
Proof.
  apply forallb_Forall. rewrite generate_anchor_slug.
  eapply Forall_impl; [|apply slug_tidy].
  intros c (Hk & Hs & Hl). unfold anchor_char, kept in *.
  rewrite Hl, Ascii.eqb_refl, andb_true_r.
  rewrite Hs, orb_false_r in Hk. exact Hk.
Qed.

(* ================================================================== *)
(** * Further properties of the file updater *)
(* ================================================================== *)

(** X5.  The update touches no file but its own, leaves everything as it was
    when it fails, and succeeds only on a file it could read and has
    written. *)
Theorem update_file_toc_frame (f : fs) (p : path) (max_depth min_depth : Z)
        (insert_after : option str) :
  let r := update_file_toc f p max_depth min_depth insert_after in
  (forall q, q <> p -> snd r q = f q) /\
  (fst (fst r) = false -> snd r = f) /\
  (fst (fst r) = true ->
   exists content updated,
     read_file f p = Some content /\ extract_headers content <> [] /\
     read_file (snd r) p = Some updated).
Proof.
  cbv zeta. unfold update_file_toc.
  destruct (read_file f p) as [content|] eqn:Er;
    [|cbn; split; [|split]; [reflexivity | reflexivity | discriminate]].
  destruct (extract_headers content) as [|h hs] eqn:Eh;
    [cbn; split; [|split]; [reflexivity | reflexivity | discriminate]|].
  destruct (updated_content p content (h :: hs) max_depth min_depth
                            insert_after) as [[updated msg]|];
    [|cbn; split; [|split]; [reflexivity | reflexivity | discriminate]].
  destruct (write_file f p updated) as [f'|] eqn:Ew;
    [|cbn; split; [|split]; [reflexivity | reflexivity | discriminate]].
  cbn [fst snd]. split; [|split]; [| discriminate |].
  - intros q Hq. now apply (write_file_other f p updated).
  - intros _. exists content, updated.
    split; [reflexivity|]. split; [rewrite Eh; discriminate|].
    now apply (write_file_read f p).
Qed.




(** X7.  A file with headers and without block, and an insert-after text that
    is not empty and occurs in it, where neither the header titles nor
    the insert-after text hold a backslash: the text before and after the
    first occurrence is kept; the occurrence, which may differ in case,
    is replaced by the insert-after text as given, followed by a blank
    line and the rendered block. *)
Theorem insert_after_found (p : path) (content : str)
        (max_depth min_depth : Z) (after : str)
        (pre : str) (caps : list str) (post : str) :
  let headers := extract_headers content in
  let new_toc := generate_toc headers max_depth min_depth in
  headers <> [] ->
  Forall (fun h => ~ In backslash (title h)) headers ->
  re_search existing_toc_pattern content = None ->
  after <> [] -> ~ In backslash after ->
  re_search (lit_ci after) content = Some (pre, caps, post) ->
  content = pre ++ matched caps ++ post /\
  lower (matched caps) = lower after /\
  updated_content p content headers max_depth min_depth (Some after) =
  Some (pre ++ after ++ newline :: newline :: new_toc ++ post,
        AddedNewTOC p).
Proof.
  intros headers new_toc Hne Hbs Hnone Ha Hab Hs.
  assert (Hnb : ~ In backslash new_toc).
  { apply toc_without_backslash; [assumption | assumption |].
    apply extract_headers_anchor. }
  destruct (search_sound _ _ _ _ _ _ Hs) as (prev' & s' & Hm).
  destruct (lit_ci_match _ _ _ _ _ _ Ha Hm) as (_ & Hlow & Hlen).
  split; [exact (search_split _ _ _ _ _ _ Hs)|]. split; [exact Hlow|].
  unfold updated_content. fold new_toc. rewrite Hnone. cbn [found].
  destruct after as [|a after']; [congruence|].
  rewrite Hs. cbn [found].
  rewrite re_sub_plain.
  2:{ apply not_in_app; [assumption|].
      apply not_in_app; [cbn; intuition discriminate | assumption]. }
  unfold sub_with, re_search in *.
  assert (Hm_ne : matched caps <> []).
  { intros E. rewrite E in Hlen. discriminate. }
  rewrite (scan_search _ _ _ _ _ _ Hs Hm_ne), render_gaps_app.
  cbn [render spent spend pred]. rewrite expand_plain, render_spent.
  cbn [skipn]. rewrite <- !app_assoc. reflexivity.
Qed.

Lemma insert_after_found_witness :
  updated_content []
    (txt "# Guide
Overview
## Setup
")
    (extract_headers (txt "# Guide
Overview
## Setup
")) 6 1 (Some (txt "overview")) =
  Some (txt "# Guide
overview

<!-- TOC START -->
## Table of Contents

- [Guide](#guide)
  - [Setup](#setup)

<!-- TOC END -->

## Setup
", AddedNewTOC []).
Proof.
  set (content := txt "# Guide
Overview
## Setup
").
  destruct (re_search (lit_ci (txt "overview")) content)
    as [[[pre caps] post]|] eqn:E; [|vm_compute in E; discriminate].
  destruct (insert_after_found [] content 6 1 (txt "overview") pre caps post)
    as (_ & _ & ->).
  - discriminate.
  - repeat constructor; cbn; intuition discriminate.
  - reflexivity.
  - discriminate.
  - cbn. intuition discriminate.
  - exact E.
  - vm_compute in E. injection E as <- <- <-. reflexivity.
Defined.

Lemma extract_headers_newlines k content :
  extract_headers (repeat newline k ++ content) = extract_headers content.
Proof.
  destruct k as [|k]; [reflexivity|].
  rewrite !extract_headers_flat. unfold re_findall.
  rewrite scan_header_quiet.
  - rewrite hits_app, hits_gaps. cbn [app].
    rewrite (scan_prev header_pattern 0 _ None); [reflexivity|].
    replace (S k) with (k + 1) by lia.
    rewrite repeat_app. cbn [repeat]. now rewrite prev_after_last.
  - cbn [at_bol repeat quiet]. change (is_char hash newline) with false.
    rewrite andb_false_r. cbn [negb andb].
    change (is_char newline newline) with true.
    induction k as [|k IH]; [reflexivity|]. cbn [repeat quiet].
    change (is_char hash newline) with false.
    rewrite andb_false_r. cbn [negb andb]. exact IH.
Qed.

(** X8.  The update is not idempotent.  Take a content with headers and
    without sentinel pair, whose header titles hold neither the closing
    sentinel nor a backslash, and a writable file that holds the table
    rendered from it, one or more line breaks, and the content: every
    further update puts one more line break behind the block and changes
    nothing else. *)
Theorem update_adds_line_break (f : fs) (p : path) (content : str)
        (max_depth min_depth : Z) (insert_after : option str) (k : nat) :
  let headers := extract_headers content in
  let toc := generate_toc headers max_depth min_depth in
  headers <> [] ->
  re_search existing_toc_pattern content = None ->
  Forall (fun h => occurs toc_end (title h) = false
                   /\ ~ In backslash (title h)) headers ->
  f p = Regular (Some (toc ++ repeat newline (S k) ++ content)) true ->
  exists f',
    update_file_toc f p max_depth min_depth insert_after
    = (true, [UpdatedExistingTOC p], f') /\
    read_file f' p = Some (toc ++ repeat newline (S (S k)) ++ content).
Proof.
  intros headers toc Hne Hnone Hplain Hf.
  set (es := entries headers max_depth min_depth).
  assert (Hclean : Forall clean headers) by apply extract_headers_clean.
  assert (Hanchor : Forall (fun h => Forall tidy (anchor h)) headers)
    by apply extract_headers_anchor.
  assert (Hend : Forall (fun h => occurs toc_end (title h) = false) headers).
  { eapply Forall_impl; [|exact Hplain]. now intros h []. }
  assert (Hbs : Forall (fun h => ~ In backslash (title h)) headers).
  { eapply Forall_impl; [|exact Hplain]. now intros h []. }
  pose proof (generate_toc_block headers max_depth min_depth Hne) as Htoc.
  fold es toc in Htoc.
  assert (Hnb : ~ In backslash toc) by now apply toc_without_backslash.
  assert (E : toc ++ repeat newline (S k) ++ content
              = toc_block es ++ repeat newline (S (S k)) ++ content).
  { rewrite Htoc, <- app_assoc. reflexivity. }
  assert (Hh : extract_headers (toc ++ repeat newline (S k) ++ content)
               = headers).
  { cbn [repeat app]. unfold toc.
    rewrite extract_headers_toc by assumption.
    apply extract_headers_newlines. }
  destruct (write_writable f p _
              (toc ++ repeat newline (S (S k)) ++ content) Hf)
    as (f' & Hw & Hf').
  exists f'. split; [|now apply (read_regular _ _ _ true)].
  rewrite (update_file_toc_headers f p _ _ _ _ (read_regular _ _ _ _ Hf));
    rewrite Hh; [|assumption].
  rewrite E, updated_content_block.
  - fold toc. now rewrite Hw.
  - now apply body_absent.
  - assumption.
  - assumption.
Qed.

Lemma update_adds_line_break_witness :
  exists f',
    update_file_toc
      (fun _ => Regular (Some (generate_toc (extract_headers (txt "# Guide
")) 6 1 ++ repeat newline 1 ++ txt "# Guide
")) true) [] 6 1 None
    = (true, [UpdatedExistingTOC []], f') /\
    read_file f' []
    = Some (generate_toc (extract_headers (txt "# Guide
")) 6 1 ++ repeat newline 2 ++ txt "# Guide
").
Proof.
  apply (update_adds_line_break _ [] (txt "# Guide
") 6 1 None 0).
  - discriminate.
  - reflexivity.
  - repeat constructor; cbn; intuition discriminate.
  - reflexivity.
Defined.

(** X9.  The table of contents adds no header of its own: a file that gets a
    block on top has afterwards the headers it had before. *)
Theorem toc_adds_no_header (f : fs) (p : path) (content : str)
        (max_depth min_depth : Z) (insert_after : option str) :
  f p = Regular (Some content) true ->
  extract_headers content <> [] ->
  re_search existing_toc_pattern content = None ->
  insert_after_absent content insert_after ->
  exists f1 updated,
    update_file_toc f p max_depth min_depth insert_after
    = (true, [AddedNewTOC p], f1) /\
    read_file f1 p = Some updated /\
    extract_headers updated = extract_headers content.
Proof.
  intros Hf Hne Hnone Hia.
  set (toc := generate_toc (extract_headers content) max_depth min_depth).
  destruct (write_writable f p _ (toc ++ newline :: content) Hf)
    as (f1 & Hw & Hf1).
  exists f1, (toc ++ newline :: content).
  rewrite (update_file_toc_headers f p _ _ _ _ (read_regular _ _ _ _ Hf))
    by assumption.
  rewrite updated_content_top by assumption. fold toc. rewrite Hw.
  split; [reflexivity|]. split; [now apply (read_regular _ _ _ true)|].
  apply extract_headers_toc; [assumption | apply extract_headers_clean].
Qed.

Lemma toc_adds_no_header_witness :
  exists f1 updated,
    update_file_toc (fun _ => Regular (Some (txt "# Guide
## Table of Contents
## Setup
")) true) [txt "guide.md"] 6 1 None
    = (true, [AddedNewTOC [txt "guide.md"]], f1) /\
    read_file f1 [txt "guide.md"] = Some updated /\
    extract_headers updated
    = [(1%Z, txt "Guide", txt "guide"); (2%Z, txt "Setup", txt "setup")].
Proof.
  apply (toc_adds_no_header _ [txt "guide.md"] (txt "# Guide
## Table of Contents
## Setup
") 6 1 None); [reflexivity | discriminate | reflexivity | exact I].
Defined.

(* ================================================================== *)
(** * Further properties of the command line tool *)
(* ================================================================== *)

Lemma update_main_readme_cases f today repo_path :
  (exists msgs, update_main_readme f today repo_path = (false, msgs, f)) \/
  (exists updated msgs f',
     update_main_readme f today repo_path = (true, msgs, f')
     /\ write_file f (repo_path ++ [txt "README.md"]) updated = Some f').
Proof.
  unfold update_main_readme.
  destruct (negb (exists_path f _)); [left; eauto|].
  destruct (generate_repo_index f repo_path) as [index msgs].
  destruct (read_file f _) as [content|]; [|left; eauto].
  destruct (found (re_search stats_pattern content)); [|left; eauto].
  destruct (re_sub stats_pattern _ None content) as [u1|]; [|left; eauto].
  destruct (if found (re_search date_pattern u1) then _ else _) as [u2|];
    [|left; eauto].
  destruct (write_file f _ u2) as [f'|] eqn:Ew; [|left; eauto].
  right. eauto.
Qed.

(** The loop over the files, from any state. *)
Lemma process_fold_frame a files : forall n log f,
  let r :=
    fold_left
      (fun st md_file =>
         let '(success_count, log, f) := st in
         let '(ok, msgs, f') :=
           update_file_toc f md_file (arg_max_depth a) (arg_min_depth a)
                           (arg_insert_after a) in
         (if ok then S success_count else success_count, log ++ msgs, f'))
      files (n, log, f) in
  n <= fst (fst r) <= n + length files /\
  length log + length files <= length (snd (fst r)) /\
  (forall q, ~ In q files -> snd r q = f q).
Proof.
  induction files as [|p files IH]; intros n log f.
  - cbn. repeat split; lia.
  - cbn [fold_left].
    destruct (update_file_toc_cases f p (arg_max_depth a) (arg_min_depth a)
                (arg_insert_after a))
      as [(msgs & -> & Hm) | (updated & msg & f' & -> & Hw)].
    + specialize (IH n (log ++ msgs) f). cbv zeta in IH |- *.
      destruct IH as (H1 & H2 & H3).
      rewrite length_app in H2.
      assert (1 <= length msgs) by (destruct msgs; [congruence | cbn; lia]).
      cbn [length]. repeat split; try lia.
      intros q Hq. apply H3. intros Hin. apply Hq. now right.
    + specialize (IH (S n) (log ++ [msg]) f'). cbv zeta in IH |- *.
      destruct IH as (H1 & H2 & H3).
      rewrite length_app in H2. cbn [length] in *.
      repeat split; try lia.
      intros q Hq. rewrite H3 by (intros Hin; apply Hq; now right).
      apply (write_file_other _ _ _ _ _ Hw).
      intros ->. apply Hq. now left.
Qed.

(** X10.  The loop over the markdown files of a directory counts at most one
    success per file, prints at least one line per file, and leaves every
    file that is not in its list as it was. *)
Theorem process_files_frame (a : args) (f : fs) (md_files : list path) :
  let r := process_files a f md_files in
  fst (fst r) <= length md_files /\
  length md_files <= length (snd (fst r)) /\
  (forall q, ~ In q md_files -> snd r q = f q).
Proof.
  cbv zeta. unfold process_files.
  destruct (process_fold_frame a md_files 0 [] f) as (H1 & H2 & H3).
  cbv zeta in H1, H2, H3. cbn [length] in H2.
  repeat split; [lia | lia | exact H3].
Qed.

(** X11.  A run writes to no file but its targets: the README in README mode,
    the file it is given, or the markdown files of the directory it is
    given. *)
Theorem main_frame (a : args) (today : date) (f : fs) (q : path) :
  ~ In q (targets a f) -> snd (main a today f) q = f q.
Proof.
  unfold targets, main.
  destruct (arg_update_readme a).
  - intros Hq.
    destruct (update_main_readme_cases f today (arg_path a))
      as [(msgs & ->) | (updated & msgs & f' & -> & Hw)]; [reflexivity|].
    cbn [snd]. apply (write_file_other _ _ _ _ _ Hw).
    intros ->. apply Hq. now left.
  - destruct (negb (exists_path f (arg_path a))); [reflexivity|].
    destruct (is_file f (arg_path a)).
    + intros Hq.
      destruct (str_eqb _ _); [|reflexivity].
      destruct (update_file_toc_cases f (arg_path a) (arg_max_depth a)
                  (arg_min_depth a) (arg_insert_after a))
        as [(msgs & -> & Hm) | (updated & msg & f' & -> & Hw)];
        [reflexivity|].
      cbn [snd]. apply (write_file_other _ _ _ _ _ Hw).
      intros ->. apply Hq. now left.
    + destruct (is_dir f (arg_path a)); [|reflexivity].
      set (md_files := if arg_recursive a then _ else _).
      intros Hq.
      destruct (length md_files =? 0); [reflexivity|].
      pose proof (process_fold_frame a md_files 0 [] f) as H.
      cbv zeta in H. destruct H as (_ & _ & H).
      unfold process_files.
      destruct (fold_left _ md_files (0, [], f)) as [[n log] f'].
      cbn [snd] in *. apply H.
      subst md_files. now destruct (arg_recursive a).
Qed.

Lemma main_frame_witness :
  snd (main {| arg_path := [txt "notes.md"]; arg_max_depth := 6;
               arg_min_depth := 1; arg_insert_after := None;
               arg_update_readme := false; arg_recursive := false |}
            {| year := 2024; month := 5; day := 17 |}
            (fun p => if path_eqb p [txt "notes.md"]
                      then Regular (Some (txt "# A
")) true
                      else Regular (Some (txt "# B
")) true))
      [txt "other.md"]
  = Regular (Some (txt "# B
")) true.
Proof.
  apply (main_frame _ _ (fun p => if path_eqb p [txt "notes.md"]
                                  then Regular (Some (txt "# A
")) true
                                  else Regular (Some (txt "# B
")) true)).
  cbn. intuition discriminate.
Defined.

(* ================================================================== *)
(** * Further properties of the README statistics *)
(* ================================================================== *)

Lemma str_of_nat_nonempty n : str_of_nat n <> [].
Proof.
  unfold str_of_nat.
  assert (H : Nat.to_uint n <> Decimal.Nil).
  { intros H. pose proof (DecimalNat.Unsigned.to_of (Nat.to_uint n)) as E.
    rewrite DecimalNat.Unsigned.of_to, H in E. discriminate. }
  destruct (Nat.to_uint n); [congruence | | | | | | | | | |]; discriminate.
Qed.

(** A label followed by a run of digits. *)
Lemma match_label A lo hi r e prev run rest caps rest' :
  Forall (fun c => is_digit c = true) run -> run <> [] ->
  lo <= length run ->
  (forall i, i < length run -> below i hi = true) ->
  match rest with
  | c :: _ => is_digit c && below (length run) hi = false
  | [] => True
  end ->
  match_here r true (prev_after (prev_after prev A) run) rest
  = Some (caps, rest') ->
  match_here (lit A ++ Cls is_digit lo hi Greedy :: r) e prev
             (A ++ run ++ rest)
  = Some (chars A ++ run :: caps, rest').
Proof.
  intros Hd Hne Hlo Hhi Hrest Hk.
  rewrite match_lit, starts_with_app, skipn_exact, match_cls.
  rewrite (rep_greedy_run is_digit lo hi (match_here r) run 0 [] _ _ rest
             (caps, rest'));
    try assumption.
  - reflexivity.
  - destruct run; [congruence | exact Hk].
Qed.

Lemma str_of_nat_length n : 1 <= length (str_of_nat n).
Proof.
  pose proof (str_of_nat_nonempty n).
  destruct (str_of_nat n); [congruence | cbn; lia].
Qed.


(** Three labelled runs of digits match the pattern of the statistics. *)
Lemma stats_match e prev nt nq nd rest :
  Forall (fun c => is_digit c = true) nt -> nt <> [] ->
  Forall (fun c => is_digit c = true) nq -> nq <> [] ->
  Forall (fun c => is_digit c = true) nd -> nd <> [] ->
  match rest with c :: _ => is_digit c = false | [] => True end ->
  exists caps,
    match_here stats_pattern e prev
      (txt "- **Total Issues:** " ++ nt
       ++ (newline :: txt "- **Quick Fixes:** ") ++ nq
       ++ (newline :: txt "- **Detailed Guides:** ") ++ nd ++ rest)
    = Some (caps, rest).
Proof.
  intros Ht Ht' Hq Hq' Hd Hd' Hrest. unfold stats_pattern.
  assert (Hlen : forall x : str, x <> [] -> 1 <= length x)
    by (intros [|c x]; [congruence | cbn; lia]).
  eexists.
  apply (match_label (txt "- **Total Issues:** ") 1 None
           (lit (newline :: txt "- **Quick Fixes:** ")
            ++ [plus is_digit]
            ++ lit (newline :: txt "- **Detailed Guides:** ")
            ++ [plus is_digit])
           e prev nt
           ((newline :: txt "- **Quick Fixes:** ") ++ nq
            ++ (newline :: txt "- **Detailed Guides:** ") ++ nd ++ rest));
    [assumption | assumption | now apply Hlen | reflexivity | reflexivity |].
  apply (match_label (newline :: txt "- **Quick Fixes:** ") 1 None
           (lit (newline :: txt "- **Detailed Guides:** ")
            ++ [plus is_digit])
           true _ nq
           ((newline :: txt "- **Detailed Guides:** ") ++ nd ++ rest));
    [assumption | assumption | now apply Hlen | reflexivity | reflexivity |].
  apply (match_label (newline :: txt "- **Detailed Guides:** ") 1 None
           [] true _ nd rest);
    [assumption | assumption | now apply Hlen | reflexivity
    | destruct rest; [exact I | now rewrite Hrest]
    | reflexivity].
Qed.

Lemma pad_digits w n : Forall (fun c => is_digit c = true) (pad w n).
Proof.
  unfold pad. apply Forall_app. split; [|apply str_of_nat_digits].
  induction (w - _); cbn; constructor; auto.
Qed.

Lemma pad_length w n : length (str_of_nat n) <= w -> length (pad w n) = w.
Proof. intros H. unfold pad. rewrite length_app, repeat_length. lia. Qed.

Lemma str_of_nat_short n :
  (n < 100 -> length (str_of_nat n) <= 2) /\
  (n < 100 * 100 -> length (str_of_nat n) <= 4).
Proof.
  assert (H2 : forallb (fun n => length (str_of_nat n) <=? 2) (seq 0 100)
               = true) by (vm_compute; reflexivity).
  assert (H4 : forallb (fun n => length (str_of_nat n) <=? 4)
                       (seq 0 (100 * 100))
               = true) by (vm_compute; reflexivity).
  rewrite forallb_forall in H2, H4.
  split; intros H; apply Nat.leb_le; [apply H2 | apply H4];
    apply in_seq; lia.
Qed.

(** A date of four, two and two digits matches the pattern of the date
    line. *)
Lemma date_match e prev today rest :
  year today < 100 * 100 -> month today < 100 -> day today < 100 ->
  exists caps,
    match_here date_pattern e prev (new_date today ++ rest)
    = Some (caps, rest).
Proof.
  intros Hy Hm Hd. unfold date_pattern, new_date, iso_date.
  repeat rewrite <- app_assoc.
  pose proof (pad_length 4 (year today)
                (proj2 (str_of_nat_short _) Hy)) as Ly.
  pose proof (pad_length 2 (month today)
                (proj1 (str_of_nat_short _) Hm)) as Lm.
  pose proof (pad_length 2 (day today)
                (proj1 (str_of_nat_short _) Hd)) as Ld.
  assert (Hne : forall (x : str) k, length x = S k -> x <> [])
    by (intros [|c x] k; [discriminate | discriminate]).
  assert (Hb : forall (x : str) k i,
             length x = k -> i < length x -> below i (Some k) = true).
  { intros x k i <- Hi. now apply Nat.ltb_lt. }
  assert (Hr : forall (x : str) k (rest : str), length x = k ->
             match rest with
             | c :: _ => is_digit c && below (length x) (Some k) = false
             | [] => True
             end).
  { intros x k [|c r] <-; [exact I|].
    unfold below. now rewrite Nat.ltb_irrefl, andb_false_r. }
  eexists.
  apply (match_label (txt "- **Last Updated:** ") 4 (Some 4)
           (lit [hyphen] ++ [Cls is_digit 2 (Some 2) Greedy]
            ++ lit [hyphen] ++ [Cls is_digit 2 (Some 2) Greedy])
           e prev (pad 4 (year today))
           ([hyphen] ++ pad 2 (month today) ++ [hyphen]
            ++ pad 2 (day today) ++ rest));
    [apply pad_digits | now apply (Hne _ 3) | lia
    | exact (fun i => Hb _ _ i Ly) | reflexivity |].
  apply (match_label [hyphen] 2 (Some 2)
           (lit [hyphen] ++ [Cls is_digit 2 (Some 2) Greedy])
           true _ (pad 2 (month today))
           ([hyphen] ++ pad 2 (day today) ++ rest));
    [apply pad_digits | now apply (Hne _ 1) | lia
    | exact (fun i => Hb _ _ i Lm) | reflexivity |].
  apply (match_label [hyphen] 2 (Some 2) [] true _ (pad 2 (day today)) rest);
    [apply pad_digits | now apply (Hne _ 1) | lia
    | exact (fun i => Hb _ _ i Ld) | exact (Hr _ _ rest Ld) | reflexivity].
Qed.

(** X12.  What the README update writes is found again by the patterns it
    searches with, wherever it stands: the statistics lines for all
    counts, the date line for a date of four, two and two digits. *)
Theorem written_statistics_found (total quick detailed : nat) (today : date)
        (pre post : str) :
  year today < 100 * 100 -> month today < 100 -> day today < 100 ->
  found (re_search stats_pattern
           (pre ++ new_stats total quick detailed ++ post)) = true /\
  found (re_search date_pattern (pre ++ new_date today ++ post)) = true.
Proof.
  intros Hy Hm Hd. unfold re_search. split.
  - assert (H : exists caps,
               match_here stats_pattern true (prev_after None pre)
                 (new_stats total quick detailed ++ post)
               = Some (caps, dropwhile is_digit post)).
    { pose proof (takewhile_dropwhile is_digit post) as E.
      pose proof (takewhile_all is_digit post) as Htw.
      assert (Hdw : match dropwhile is_digit post with
                    | c :: _ => is_digit c = false
                    | [] => True
                    end).
      { destruct (dropwhile is_digit post) as [|c x] eqn:Ed; [exact I|].
        exact (dropwhile_head _ _ _ _ Ed). }
      set (tw := takewhile is_digit post) in *.
      set (dw := dropwhile is_digit post) in *.
      clearbody tw dw. subst post.
      unfold new_stats. repeat rewrite <- app_assoc.
      rewrite (app_assoc (str_of_nat detailed)).
      apply stats_match;
        try apply str_of_nat_digits; try apply str_of_nat_nonempty;
        try assumption.
      - apply Forall_app. split; [apply str_of_nat_digits | assumption].
      - pose proof (str_of_nat_nonempty detailed).
        destruct (str_of_nat detailed); [congruence | discriminate]. }
    destruct H as (caps & H).
    exact (search_complete _ pre None _ _ H).
  - destruct (date_match true (prev_after None pre) today post Hy Hm Hd)
      as (caps & H).
    exact (search_complete _ pre None _ _ H).
Qed.

Lemma written_statistics_found_witness :
  found (re_search stats_pattern
           (txt "# Notes
" ++ new_stats 12 7 5 ++ txt "
")) = true /\
  found (re_search date_pattern
           (txt "# Notes
" ++ new_date {| year := 2024; month := 5; day := 17 |} ++ txt "
")) = true.
Proof.
  apply (written_statistics_found 12 7 5
           {| year := 2024; month := 5; day := 17 |}); cbn; lia.
Defined.

(* ================================================================== *)
(** * Further properties of the repository index *)
(* ================================================================== *)












(* ================================================================== *)
(** * The statistics section of [update-stats.py] *)
(* ================================================================== *)

Lemma lazy_body_eq s :
  UpdateStats.lazy_body s =
  if UpdateStats.section_ahead s then ([], s)
  else
    match s with
    | [] => ([], [])
    | c :: s' =>
        let '(body, rest) := UpdateStats.lazy_body s' in (c :: body, rest)
    end.
Proof. destruct s; reflexivity. Qed.

(** The lazy group stops where a section is ahead. *)
Lemma lazy_body_sound s : forall body rest,
  UpdateStats.lazy_body s = (body, rest) ->
  s = body ++ rest /\ UpdateStats.section_ahead rest = true.
Proof.
  induction s as [|c s IH]; intros body rest H; rewrite lazy_body_eq in H.
  - cbn in H. injection H as <- <-. auto.
  - destruct (UpdateStats.section_ahead (c :: s)) eqn:E.
    + injection H as <- <-. auto.
    + destruct (UpdateStats.lazy_body s) as [body' rest'].
      injection H as <- <-. destruct (IH _ _ eq_refl) as [-> H].
      auto.
Qed.

(** A text without [#] in front of a section is taken as a whole. *)
Lemma lazy_body_stop b g :
  ~ In hash b -> UpdateStats.section_ahead g = true ->
  UpdateStats.lazy_body (b ++ g) = (b, g).
Proof.
  intros Hb Hg. induction b as [|c b IH].
  - cbn [app]. now rewrite lazy_body_eq, Hg.
  - cbn [app]. rewrite lazy_body_eq.
    assert (E : UpdateStats.section_ahead (c :: b ++ g) = false).
    { cbn [UpdateStats.section_ahead starts_with txt list_ascii_of_string].
      destruct b as [|d b]; cbn [app].
      - destruct g as [|d g]; [apply andb_false_r|].
        cbn [UpdateStats.section_ahead starts_with txt list_ascii_of_string]
          in Hg.
        apply andb_true_iff in Hg. destruct Hg as [Hd _].
        apply is_char_eq in Hd. subst d.
        cbn [starts_with]. change (is_char "#" newline) with false.
        apply andb_false_r.
      - cbn [starts_with].
        destruct (is_char "#" d) eqn:Ed; [|apply andb_false_r].
        apply is_char_eq in Ed. subst d. exfalso. apply Hb. right. now left. }
    rewrite E, IH; [reflexivity|].
    intros Hin. apply Hb. now right.
Qed.

Lemma match_stats_sound s m rest :
  UpdateStats.match_stats s = Some (m, rest) ->
  exists body,
    m = UpdateStats.stats_head ++ body /\ s = m ++ rest /\
    UpdateStats.section_ahead rest = true.
Proof.
  unfold UpdateStats.match_stats.
  destruct (starts_with UpdateStats.stats_head s) eqn:E; [|discriminate].
  destruct (UpdateStats.lazy_body _) as [body rest'] eqn:El.
  intros H. injection H as <- <-. exists body.
  apply lazy_body_sound in El. destruct El as [El Ha].
  split; [reflexivity|]. split; [|assumption].
  change (s = UpdateStats.stats_head ++ body ++ rest'). rewrite <- El.
  rewrite <- (starts_with_firstn _ _ E) at 1. now rewrite firstn_skipn.
Qed.

Lemma match_stats_none s :
  UpdateStats.match_stats s = None <->
  starts_with UpdateStats.stats_head s = false.
Proof.
  unfold UpdateStats.match_stats.
  destruct (starts_with UpdateStats.stats_head s); [|tauto].
  destruct (UpdateStats.lazy_body _). split; discriminate.
Qed.

Lemma sub_stats_skip t x : forall y,
  UpdateStats.sub_stats t (length x) (x ++ y) = UpdateStats.sub_stats t 0 y.
Proof. induction x as [|c x IH]; intros y; [reflexivity | apply IH]. Qed.

Lemma sub_stats_hit t s m rest :
  UpdateStats.match_stats s = Some (m, rest) ->
  UpdateStats.sub_stats t 0 s = expand t m ++ UpdateStats.sub_stats t 0 rest.
Proof.
  intros H. destruct (match_stats_sound _ _ _ H) as (body & Hm & Hs & _).
  destruct m as [|c m]; [discriminate|]. subst s.
  cbn [app UpdateStats.sub_stats]. cbn [app] in H. rewrite H.
  replace (length (c :: m) - 1) with (length m) by (cbn [length]; lia).
  now rewrite sub_stats_skip.
Qed.

Lemma sub_stats_miss t c s :
  UpdateStats.match_stats (c :: s) = None ->
  UpdateStats.sub_stats t 0 (c :: s) = c :: UpdateStats.sub_stats t 0 s.
Proof. intros H. cbn [UpdateStats.sub_stats]. now rewrite H. Qed.

Lemma search_stats_eq s :
  UpdateStats.search_stats s =
  match UpdateStats.match_stats s with
  | Some _ => true
  | None =>
      match s with
      | [] => false
      | _ :: s' => UpdateStats.search_stats s'
      end
  end.
Proof. destruct s; reflexivity. Qed.

(** Without a match there is nothing to replace. *)
Lemma sub_stats_none t s :
  UpdateStats.search_stats s = false -> UpdateStats.sub_stats t 0 s = s.
Proof.
  induction s as [|c s IH]; intros H; [reflexivity|].
  rewrite search_stats_eq in H.
  destruct (UpdateStats.match_stats (c :: s)) eqn:E; [discriminate|].
  rewrite sub_stats_miss by assumption. now rewrite IH.
Qed.

Lemma search_stats_suffix u : forall v,
  UpdateStats.search_stats (u ++ v) = false ->
  UpdateStats.search_stats v = false.
Proof.
  induction u as [|c u IH]; intros v H; [assumption|].
  cbn [app] in H. rewrite search_stats_eq in H.
  destruct (UpdateStats.match_stats _); [discriminate|]. now apply IH.
Qed.

Lemma search_stats_head s :
  UpdateStats.search_stats s = false ->
  starts_with UpdateStats.stats_head s = false.
Proof.
  intros H. rewrite search_stats_eq in H. apply match_stats_none.
  now destruct (UpdateStats.match_stats s).
Qed.

Lemma search_stats_intro u : forall v,
  starts_with UpdateStats.stats_head v = true ->
  UpdateStats.search_stats (u ++ v) = true.
Proof.
  induction u as [|c u IH]; intros v H.
  - cbn [app]. rewrite search_stats_eq.
    destruct (UpdateStats.match_stats v) eqn:E; [reflexivity|].
    apply match_stats_none in E. congruence.
  - cbn [app]. rewrite search_stats_eq.
    destruct (UpdateStats.match_stats _); [reflexivity|]. now apply IH.
Qed.

(** The head of the section cannot reach over a line break that a [#]
    follows. *)
Lemma head_before_section x z :
  starts_with UpdateStats.stats_head (x ++ newline :: hash :: z)
  = starts_with UpdateStats.stats_head (x ++ [newline]).
Proof.
  do 15 (destruct x as [|? x];
         [cbn; rewrite ?andb_false_r; reflexivity|]).
  reflexivity.
Qed.

Lemma head_before_end x :
  starts_with UpdateStats.stats_head (x ++ [newline]) = true ->
  starts_with UpdateStats.stats_head x = true
  \/ x = txt "## Statistics" ++ [newline].
Proof.
  do 14 (destruct x as [|? x];
         [cbn; rewrite ?andb_false_r; discriminate|]).
  destruct x as [|? x].
  - intros H. right.
    cbn [app UpdateStats.stats_head txt list_ascii_of_string starts_with]
      in H.
    repeat (apply andb_true_iff in H; destruct H as [?H H]).
    repeat match goal with
           | E : is_char _ _ = true |- _ => apply is_char_eq in E; subst
           end.
    reflexivity.
  - intros H. left. exact H.
Qed.

Lemma starts_with_window n : forall z,
  starts_with n (firstn (length n) z) = starts_with n z.
Proof.
  induction n as [|a n IH]; intros [|c z]; cbn; try reflexivity.
  now rewrite IH.
Qed.

Lemma firstn_within {A} k (h z : list A) :
  k <= length h -> firstn k (h ++ z) = firstn k h.
Proof.
  intros H. rewrite firstn_app.
  replace (k - length h) with 0 by lia. cbn. apply app_nil_r.
Qed.

Section Replacement.

(** The lines of a statistics section: no [#] among them. *)
Variable b : str.
Hypothesis b_hash : ~ In hash b.

Local Abbreviation ns := (UpdateStats.stats_head ++ b).
Local Abbreviation sub := (UpdateStats.sub_stats (plain ns) 0).

(** The section as written, in front of a section or at the end, is
    matched as a whole. *)
Lemma match_stats_written g :
  UpdateStats.section_ahead g = true ->
  UpdateStats.match_stats (ns ++ g) = Some (ns, g).
Proof.
  intros Hg. unfold UpdateStats.match_stats.
  rewrite <- app_assoc, starts_with_app, skipn_exact.
  now rewrite (lazy_body_stop b g b_hash Hg).
Qed.

Lemma sub_written g :
  UpdateStats.section_ahead g = true -> sub (ns ++ g) = ns ++ sub g.
Proof.
  intros Hg. rewrite (sub_stats_hit _ _ _ _ (match_stats_written g Hg)).
  now rewrite expand_plain.
Qed.

(** The replacement keeps the beginning of a section where it is. *)
Lemma sub_section_ahead g :
  UpdateStats.section_ahead g = true ->
  UpdateStats.section_ahead (sub g) = true.
Proof.
  destruct g as [|c0 [|c1 [|c2 g]]];
    cbn [UpdateStats.section_ahead starts_with txt list_ascii_of_string];
    intros H; rewrite ?andb_false_r in H; try discriminate;
    [reflexivity|].
  apply andb_true_iff in H. destruct H as [H0 H].
  apply andb_true_iff in H. destruct H as [H1 H].
  apply andb_true_iff in H. destruct H as [H2 _].
  apply is_char_eq in H0, H1, H2. subst.
  rewrite sub_stats_miss by reflexivity.
  destruct (UpdateStats.match_stats ("#"%char :: "#"%char :: g))
    as [[m rest]|] eqn:E1.
  - rewrite (sub_stats_hit _ _ _ _ E1), expand_plain. reflexivity.
  - rewrite sub_stats_miss by assumption.
    destruct (UpdateStats.match_stats ("#"%char :: g))
      as [[m rest]|] eqn:E2.
    + rewrite (sub_stats_hit _ _ _ _ E2), expand_plain. reflexivity.
    + rewrite sub_stats_miss by assumption. reflexivity.
Qed.

(** The replacement keeps the text up to the end of the first head. *)
Lemma sub_firstn x : forall k,
  k <= length UpdateStats.stats_head -> firstn k (sub x) = firstn k x.
Proof.
  induction x as [|c x IH]; intros k Hk; [reflexivity|].
  destruct (UpdateStats.match_stats (c :: x)) as [[m rest]|] eqn:E.
  - rewrite (sub_stats_hit _ _ _ _ E), expand_plain.
    destruct (match_stats_sound _ _ _ E) as (body & -> & -> & _).
    rewrite <- !app_assoc. now rewrite !firstn_within.
  - rewrite sub_stats_miss by assumption.
    destruct k as [|k]; [reflexivity|]. cbn [firstn]. f_equal.
    apply IH. lia.
Qed.

(** Replacing twice is replacing once. *)
Lemma sub_stats_idem s : sub (sub s) = sub s.
Proof.
  remember (length s) as n eqn:Hn. revert s Hn.
  induction n as [n IH] using lt_wf_ind; intros s Hn.
  destruct s as [|c s]; [reflexivity|].
  destruct (UpdateStats.match_stats (c :: s)) as [[m rest]|] eqn:E.
  - rewrite (sub_stats_hit _ _ _ _ E), expand_plain.
    destruct (match_stats_sound _ _ _ E) as (body & Hm & Hs & Ha).
    rewrite sub_written by now apply sub_section_ahead.
    f_equal. apply (IH (length rest)); [|reflexivity].
    rewrite Hn, Hs, Hm, !length_app. cbn. lia.
  - rewrite sub_stats_miss by assumption.
    rewrite sub_stats_miss.
    + f_equal. apply (IH (length s)); [|reflexivity]. rewrite Hn. cbn. lia.
    + apply match_stats_none. apply match_stats_none in E.
      rewrite <- starts_with_window. rewrite <- starts_with_window in E.
      change (length UpdateStats.stats_head) with 15 in E |- *.
      rewrite firstn_cons in E |- *.
      rewrite sub_firstn by (cbn; lia). exact E.
Qed.

Lemma search_sub s :
  UpdateStats.search_stats s = true -> UpdateStats.search_stats (sub s) = true.
Proof.
  induction s as [|c s IH]; intros H; [discriminate|].
  rewrite search_stats_eq in H.
  destruct (UpdateStats.match_stats (c :: s)) as [[m rest]|] eqn:E.
  - rewrite (sub_stats_hit _ _ _ _ E), expand_plain.
    rewrite <- app_assoc.
    apply (search_stats_intro [] (UpdateStats.stats_head ++ b ++ sub rest)).
    apply starts_with_app.
  - rewrite sub_stats_miss by assumption.
    rewrite search_stats_eq.
    destruct (UpdateStats.match_stats (c :: sub s)); [reflexivity|].
    now apply IH.
Qed.

(** Where no head starts, the text is kept. *)
Lemma sub_gaps t u : forall v,
  (forall x1 c x2, u = x1 ++ c :: x2 ->
     starts_with UpdateStats.stats_head (c :: x2 ++ v) = false) ->
  UpdateStats.sub_stats t 0 (u ++ v) = u ++ UpdateStats.sub_stats t 0 v.
Proof.
  induction u as [|c u IH]; intros v H; [reflexivity|].
  cbn [app]. rewrite sub_stats_miss.
  - f_equal. apply IH. intros x1 d x2 ->. apply (H (c :: x1) d x2).
    reflexivity.
  - apply match_stats_none. apply (H [] c u). reflexivity.
Qed.

End Replacement.

(* ------------------------------------------------------------------ *)
(** ** Splitting at a separator *)

Lemma split_skip sep x : forall y,
  UpdateStats.split sep (length x) (x ++ y) = UpdateStats.split sep 0 y.
Proof. induction x as [|c x IH]; intros y; [reflexivity | apply IH]. Qed.

Lemma starts_with_split n s :
  starts_with n s = true -> s = n ++ skipn (length n) s.
Proof.
  intros H. rewrite <- (starts_with_firstn _ _ H) at 1.
  now rewrite firstn_skipn.
Qed.

Lemma split_hit sep s :
  sep <> [] -> starts_with sep s = true ->
  UpdateStats.split sep 0 s
  = [] :: UpdateStats.split sep 0 (skipn (length sep) s).
Proof.
  intros Hsep H. pose proof (starts_with_split _ _ H) as Hs.
  set (rest := skipn (length sep) s) in *. clearbody rest. subst s.
  destruct sep as [|a sep]; [congruence|].
  cbn [app UpdateStats.split]. cbn [app] in H. rewrite H.
  replace (length (a :: sep) - 1) with (length sep) by (cbn [length]; lia).
  now rewrite split_skip.
Qed.

Lemma split_miss sep c s :
  starts_with sep (c :: s) = false ->
  UpdateStats.split sep 0 (c :: s)
  = match UpdateStats.split sep 0 s with
    | x :: xs => (c :: x) :: xs
    | [] => [[c]]
    end.
Proof. intros H. cbn [UpdateStats.split]. now rewrite H. Qed.

Lemma split_nonempty sep s : forall k, UpdateStats.split sep k s <> [].
Proof.
  induction s as [|c s IH]; intros k; [discriminate|].
  destruct k as [|k]; cbn [UpdateStats.split]; [|apply IH].
  destruct (starts_with sep (c :: s)); [discriminate|].
  now destruct (UpdateStats.split sep 0 s).
Qed.

Lemma join_head sep c x xs :
  join sep ((c :: x) :: xs) = c :: join sep (x :: xs).
Proof. now destruct xs. Qed.

Lemma join_snoc sep xs y :
  xs <> [] -> join sep (xs ++ [y]) = join sep xs ++ sep ++ y.
Proof.
  induction xs as [|x xs IH]; intros H; [congruence|].
  destruct xs as [|x' xs]; [reflexivity|].
  change (join sep ((x :: x' :: xs) ++ [y]))
    with (x ++ sep ++ join sep ((x' :: xs) ++ [y])).
  rewrite IH by discriminate.
  change (join sep (x :: x' :: xs)) with (x ++ sep ++ join sep (x' :: xs)).
  now rewrite <- !app_assoc.
Qed.

(** Joining what was split gives the text back. *)
Lemma join_split sep s :
  sep <> [] -> join sep (UpdateStats.split sep 0 s) = s.
Proof.
  intros Hsep. remember (length s) as n eqn:Hn. revert s Hn.
  induction n as [n IH] using lt_wf_ind; intros s Hn.
  destruct s as [|c s]; [reflexivity|].
  destruct (starts_with sep (c :: s)) eqn:E.
  - rewrite (split_hit _ _ Hsep E).
    pose proof (starts_with_split _ _ E) as Hs.
    set (rest := skipn (length sep) (c :: s)) in *. clearbody rest.
    pose proof (split_nonempty sep rest 0) as Hne.
    assert (Hrest : join sep (UpdateStats.split sep 0 rest) = rest).
    { apply (IH (length rest)); [|reflexivity].
      rewrite Hn, Hs, length_app.
      destruct sep; [congruence | cbn; lia]. }
    destruct (UpdateStats.split sep 0 rest) as [|x xs]; [congruence|].
    change (join sep ([] :: x :: xs)) with (sep ++ join sep (x :: xs)).
    now rewrite Hrest.
  - rewrite (split_miss _ _ _ E).
    pose proof (split_nonempty sep s 0) as Hne.
    assert (Hrest : join sep (UpdateStats.split sep 0 s) = s).
    { apply (IH (length s)); [|reflexivity]. rewrite Hn. cbn. lia. }
    destruct (UpdateStats.split sep 0 s) as [|x xs]; [congruence|].
    rewrite join_head. f_equal. exact Hrest.
Qed.

(** The last piece holds no separator. *)
Lemma split_last sep s :
  sep <> [] -> occurs sep (last (UpdateStats.split sep 0 s) []) = false.
Proof.
  intros Hsep. remember (length s) as n eqn:Hn. revert s Hn.
  induction n as [n IH] using lt_wf_ind; intros s Hn.
  destruct s as [|c s].
  - cbn. destruct sep; [congruence | reflexivity].
  - destruct (starts_with sep (c :: s)) eqn:E.
    + rewrite (split_hit _ _ Hsep E).
      pose proof (starts_with_split _ _ E) as Hs.
      set (rest := skipn (length sep) (c :: s)) in *. clearbody rest.
      pose proof (split_nonempty sep rest 0) as Hne.
      assert (Hrest : occurs sep (last (UpdateStats.split sep 0 rest) [])
                      = false).
      { apply (IH (length rest)); [|reflexivity].
        rewrite Hn, Hs, length_app.
        destruct sep; [congruence | cbn; lia]. }
      destruct (UpdateStats.split sep 0 rest) as [|x xs]; [congruence|].
      exact Hrest.
    + rewrite (split_miss _ _ _ E).
      pose proof (split_nonempty sep s 0) as Hne.
      pose proof (join_split sep s Hsep) as Hj.
      assert (Hrest : occurs sep (last (UpdateStats.split sep 0 s) [])
                      = false).
      { apply (IH (length s)); [|reflexivity]. rewrite Hn. cbn. lia. }
      destruct (UpdateStats.split sep 0 s) as [|x [|x' xs]]; [congruence| |].
      * cbn [join] in Hj. subst x. cbn [last] in *.
        cbn [occurs]. now rewrite E, Hrest.
      * exact Hrest.
Qed.

Lemma split_single sep s :
  occurs sep s = false -> UpdateStats.split sep 0 s = [s].
Proof.
  induction s as [|c s IH]; intros H; [reflexivity|].
  cbn [occurs] in H. apply orb_false_iff in H. destruct H as [H1 H2].
  rewrite (split_miss _ _ _ H1), IH by assumption. reflexivity.
Qed.

Lemma split_several sep s :
  sep <> [] -> occurs sep s = true ->
  1 < length (UpdateStats.split sep 0 s).
Proof.
  intros Hsep. induction s as [|c s IH]; intros H.
  - destruct sep; [now elim Hsep | discriminate].
  - destruct (starts_with sep (c :: s)) eqn:E.
    + rewrite (split_hit _ _ Hsep E).
      pose proof (split_nonempty sep (skipn (length sep) (c :: s)) 0)
        as Hne.
      destruct (UpdateStats.split sep 0 (skipn (length sep) (c :: s)));
        [congruence | cbn; lia].
    + rewrite (split_miss _ _ _ E).
      cbn [occurs] in H. rewrite E in H. cbn [orb] in H.
      specialize (IH H).
      destruct (UpdateStats.split sep 0 s); [cbn in IH; lia | exact IH].
Qed.

Lemma insert_before_last_snoc {A} (x y : A) xs :
  UpdateStats.insert_before_last x (xs ++ [y]) = xs ++ [x; y].
Proof.
  induction xs as [|a xs IH]; [reflexivity|].
  cbn [app UpdateStats.insert_before_last]. rewrite IH.
  now destruct xs.
Qed.

(** A text with a separator: the text up to the last separator, and the
    last piece; what is inserted goes between them. *)
Lemma split_insert sep s :
  sep <> [] -> occurs sep s = true ->
  exists A y,
    s = A ++ sep ++ y /\ occurs sep y = false /\
    forall x,
      join sep (UpdateStats.insert_before_last x (UpdateStats.split sep 0 s))
      = A ++ sep ++ x ++ sep ++ y.
Proof.
  intros Hsep H.
  pose proof (split_several sep s Hsep H) as Hlen.
  pose proof (split_last sep s Hsep) as Hlast.
  pose proof (join_split sep s Hsep) as Hj.
  destruct (UpdateStats.split sep 0 s) as [|x0 l] eqn:E; [cbn in Hlen; lia|].
  assert (Hne : x0 :: l <> []) by discriminate.
  destruct (exists_last Hne) as (xs & y & Hxs). rewrite Hxs in *.
  assert (Hxs' : xs <> []).
  { intros ->. cbn in Hlen. lia. }
  rewrite last_last in Hlast.
  exists (join sep xs), y. split; [|split; [assumption|]].
  - now rewrite <- Hj, join_snoc.
  - intros x. rewrite insert_before_last_snoc.
    change (xs ++ [x; y]) with (xs ++ [x] ++ [y]). rewrite app_assoc.
    rewrite join_snoc by (now destruct xs).
    rewrite join_snoc by assumption. now rewrite <- !app_assoc.
Qed.

(* ------------------------------------------------------------------ *)
(** ** The README text that is written *)

Lemma occurs_eq n s :
  occurs n s =
  starts_with n s || match s with [] => false | _ :: s' => occurs n s' end.
Proof. destruct s; reflexivity. Qed.

Lemma occurs_intro n v u : occurs n (u ++ n ++ v) = true.
Proof.
  induction u as [|c u IH]; cbn [app].
  - now rewrite occurs_eq, starts_with_app.
  - rewrite occurs_eq, IH. apply orb_true_r.
Qed.

Lemma ends_with_app suffix x : ends_with suffix (x ++ suffix) = true.
Proof. unfold ends_with. rewrite rev_app_distr. apply starts_with_app. Qed.

Section Written.

(** The statistics section: its head, then lines without [#] and without
    backslash. *)
Variable b : str.
Hypothesis b_hash : ~ In hash b.
Hypothesis b_backslash : ~ In backslash b.

Local Abbreviation ns := (UpdateStats.stats_head ++ b).
Local Abbreviation sub := (UpdateStats.sub_stats (plain ns) 0).
Local Abbreviation sep := (newline :: txt "## ").

Lemma new_content_replace content :
  UpdateStats.search_stats content = true ->
  UpdateStats.new_content content ns = Some (sub content).
Proof.
  intros H. unfold UpdateStats.new_content. rewrite H.
  rewrite parse_template_plain; [reflexivity|].
  apply not_in_app; [|assumption]. cbn. intuition discriminate.
Qed.

Lemma new_content_insert content :
  UpdateStats.search_stats content = false ->
  occurs sep content = true ->
  exists A y,
    content = A ++ sep ++ y /\ occurs sep y = false /\
    UpdateStats.new_content content ns = Some (A ++ newline :: ns ++ sep ++ y).
Proof.
  intros Hs Ho. unfold UpdateStats.new_content. rewrite Hs.
  assert (Hsep : sep <> []) by discriminate.
  pose proof (split_several sep content Hsep Ho) as Hlen.
  apply Nat.ltb_lt in Hlen. rewrite Hlen.
  destruct (split_insert sep content Hsep Ho) as (A & y & Hc & Hy & Hj).
  exists A, y. split; [assumption|]. split; [assumption|].
  rewrite Hj. reflexivity.
Qed.

Lemma new_content_append content :
  UpdateStats.search_stats content = false ->
  occurs sep content = false ->
  UpdateStats.new_content content ns = Some (content ++ newline :: ns).
Proof.
  intros Hs Ho. unfold UpdateStats.new_content.
  now rewrite Hs, (split_single _ _ Ho).
Qed.

Lemma sub_contains s :
  UpdateStats.search_stats s = true -> occurs ns (sub s) = true.
Proof.
  induction s as [|c s IH]; intros H; [discriminate|].
  rewrite search_stats_eq in H.
  destruct (UpdateStats.match_stats (c :: s)) as [[m rest]|] eqn:E.
  - rewrite (sub_stats_hit _ _ _ _ E), expand_plain.
    apply (occurs_intro ns _ []).
  - rewrite sub_stats_miss by assumption.
    rewrite occurs_eq, IH by assumption. apply orb_true_r.
Qed.

(** Whatever the README was, the text written holds the section. *)
Lemma new_content_holds content :
  exists updated,
    UpdateStats.new_content content ns = Some updated /\
    occurs ns updated = true.
Proof.
  destruct (UpdateStats.search_stats content) eqn:Hs.
  - rewrite new_content_replace by assumption.
    eexists. split; [reflexivity|]. now apply sub_contains.
  - destruct (occurs sep content) eqn:Ho.
    + destruct (new_content_insert content Hs Ho) as (A & y & _ & _ & ->).
      eexists. split; [reflexivity|].
      replace (A ++ newline :: ns ++ sep ++ y)
        with ((A ++ [newline]) ++ ns ++ sep ++ y)
        by (now rewrite <- app_assoc).
      apply occurs_intro.
    + rewrite new_content_append by assumption.
      eexists. split; [reflexivity|].
      replace (content ++ newline :: ns)
        with ((content ++ [newline]) ++ ns ++ [])
        by (now rewrite app_nil_r, <- app_assoc).
      apply occurs_intro.
Qed.

End Written.

Section Idempotence.

Variable b : str.
Hypothesis b_hash : ~ In hash b.
Hypothesis b_backslash : ~ In backslash b.

Local Abbreviation ns := (UpdateStats.stats_head ++ b).
Local Abbreviation sub := (UpdateStats.sub_stats (plain ns) 0).
Local Abbreviation sep := (newline :: txt "## ").

(** The section as written last in a text is replaced by itself. *)
Lemma sub_written_last : sub (newline :: ns) = newline :: ns.
Proof.
  rewrite sub_stats_miss by reflexivity. f_equal.
  pose proof (sub_written b b_hash [] eq_refl) as H.
  now rewrite !app_nil_r in H.
Qed.

(** A text without section whose places before a line break start no
    head: behind it the section is replaced by itself. *)
Lemma sub_behind u g :
  (forall x1 c x2, u = x1 ++ c :: x2 ->
     starts_with UpdateStats.stats_head ((c :: x2) ++ [newline]) = false) ->
  UpdateStats.section_ahead g = true ->
  UpdateStats.search_stats g = false ->
  sub (u ++ newline :: ns ++ g) = u ++ newline :: ns ++ g.
Proof.
  intros Hu Hg Hs. rewrite sub_gaps.
  - f_equal. rewrite sub_stats_miss by reflexivity. f_equal.
    rewrite (sub_written b b_hash g Hg). f_equal.
    now apply sub_stats_none.
  - intros x1 c x2 E. rewrite <- (Hu x1 c x2 E).
    apply (head_before_section (c :: x2)).
Qed.

(** Updating the text that an update has written changes nothing, unless
    the README had no section at all and ended with the heading of the
    statistics and one line break. *)
Lemma new_content_idem content :
  (UpdateStats.search_stats content = false ->
   occurs sep content = false ->
   ends_with (txt "## Statistics" ++ [newline]) content = false) ->
  exists updated,
    UpdateStats.new_content content ns = Some updated /\
    UpdateStats.new_content updated ns = Some updated.
Proof.
  intros Hend.
  destruct (UpdateStats.search_stats content) eqn:Hs.
  - exists (sub content).
    split; [now apply new_content_replace|].
    rewrite new_content_replace by (try assumption; now apply search_sub).
    f_equal. now apply sub_stats_idem.
  - assert (Hsuffix : forall x1 x2,
              content = x1 ++ x2 ->
              starts_with UpdateStats.stats_head x2 = false).
    { intros x1 x2 E. apply search_stats_head.
      apply (search_stats_suffix x1). now rewrite <- E. }
    destruct (occurs sep content) eqn:Ho.
    + destruct (new_content_insert b content Hs Ho)
        as (A & y & Hc & Hy & Hn).
      exists (A ++ newline :: ns ++ sep ++ y). split; [assumption|].
      rewrite new_content_replace; try assumption.
      * f_equal. apply sub_behind.
        -- intros x1 c x2 E.
           rewrite <- (head_before_section (c :: x2) (txt "# " ++ y)).
           apply (Hsuffix x1). rewrite Hc, E, <- app_assoc. reflexivity.
        -- reflexivity.
        -- apply (search_stats_suffix A). now rewrite <- Hc.
      * replace (A ++ newline :: ns ++ sep ++ y)
          with ((A ++ [newline]) ++ ns ++ sep ++ y)
          by (now rewrite <- app_assoc).
        apply search_stats_intro. rewrite <- app_assoc.
        apply starts_with_app.
    + exists (content ++ newline :: ns).
      split; [now apply new_content_append|].
      rewrite new_content_replace; try assumption.
      * f_equal.
        pose proof (sub_behind content [] ) as H.
        rewrite !app_nil_r in H. apply H; [|reflexivity|reflexivity].
        intros x1 c x2 E.
        destruct (starts_with UpdateStats.stats_head ((c :: x2) ++ [newline]))
          eqn:Eh; [|reflexivity].
        apply head_before_end in Eh. destruct Eh as [Eh | Eh].
        -- rewrite (Hsuffix x1 (c :: x2) E) in Eh. discriminate.
        -- specialize (Hend eq_refl eq_refl).
           rewrite E, Eh, ends_with_app in Hend. discriminate.
      * replace (content ++ newline :: ns)
          with ((content ++ [newline]) ++ ns ++ [])
          by (now rewrite app_nil_r, <- app_assoc).
        apply search_stats_intro. rewrite <- app_assoc.
        apply starts_with_app.
Qed.

End Idempotence.

(* ------------------------------------------------------------------ *)
(** ** [update_readme_stats] *)

Lemma digit_plain c : is_digit c = true -> c <> hash /\ c <> backslash.
Proof. intros H. split; intros ->; discriminate. Qed.

Lemma str_of_Z_plain n :
  Forall (fun c => c <> hash /\ c <> backslash) (UpdateStats.str_of_Z n).
Proof.
  unfold UpdateStats.str_of_Z.
  destruct n as [|p|p]; cbn [Z.to_int NilEmpty.string_of_int].
  - repeat constructor; discriminate.
  - eapply Forall_impl; [|apply uint_digits]. apply digit_plain.
  - cbn [txt list_ascii_of_string]. constructor; [split; discriminate|].
    eapply Forall_impl; [|apply uint_digits]. apply digit_plain.
Qed.

Lemma pad_plain w n :
  Forall (fun c => c <> hash /\ c <> backslash) (pad w n).
Proof. eapply Forall_impl; [|apply pad_digits]. apply digit_plain. Qed.

Ltac plain_text :=
  repeat first
    [ apply pad_plain | apply str_of_Z_plain | apply Forall_nil
    | apply Forall_cons; [split; discriminate|]
    | apply Forall_app; split ].

Lemma iso_date_plain today :
  Forall (fun c => c <> hash /\ c <> backslash) (iso_date today).
Proof. unfold iso_date. plain_text. Qed.

(** The section that is published: its head, then lines without [#] and
    without backslash. *)
Lemma new_stats_shape st today :
  exists b,
    UpdateStats.new_stats st (iso_date today) = UpdateStats.stats_head ++ b
    /\ ~ In hash b /\ ~ In backslash b.
Proof.
  eexists. split; [reflexivity|].
  assert (H : forall s : str,
            Forall (fun c => c <> hash /\ c <> backslash) s ->
            ~ In hash s /\ ~ In backslash s).
  { intros s Hs. rewrite Forall_forall in Hs.
    split; intros Hin; apply Hs in Hin; tauto. }
  apply H. plain_text.
Qed.

Lemma count_fold_none f files :
  fold_left
    (fun total file =>
       match total, UpdateStats.count_issues_in_file f file with
       | Some t, Some n => Some (t + n)%Z
       | _, _ => None
       end)
    files None = None.
Proof. induction files as [|p files IH]; [reflexivity | exact IH]. Qed.

(** A count has a value exactly when every file can be read. *)
Lemma count_files_some f files :
  (exists n, UpdateStats.count_files f files = Some n) <->
  Forall (fun p => read_file f p <> None) files.
Proof.
  unfold UpdateStats.count_files. generalize 0%Z.
  induction files as [|p files IH]; intros acc; cbn [fold_left].
  - split; [constructor | eauto].
  - unfold UpdateStats.count_issues_in_file at 2.
    destruct (read_file f p) as [content|] eqn:E; cbn [option_map].
    + rewrite IH. split.
      * constructor; [congruence | assumption].
      * intros H. now inversion H.
    + rewrite count_fold_none. split.
      * intros [n H]. discriminate.
      * intros H. inversion H. congruence.
Qed.

Lemma count_files_ext f f' files :
  (forall p, In p files -> f' p = f p) ->
  UpdateStats.count_files f' files = UpdateStats.count_files f files.
Proof.
  unfold UpdateStats.count_files. generalize (Some 0%Z).
  induction files as [|p files IH]; intros acc H; [reflexivity|].
  cbn [fold_left].
  assert (E : UpdateStats.count_issues_in_file f' p
              = UpdateStats.count_issues_in_file f p).
  { unfold UpdateStats.count_issues_in_file, read_file.
    now rewrite (H p (or_introl eq_refl)). }
  rewrite E. apply IH. intros q Hq. apply H. now right.
Qed.

(** X14.  The script runs to its end exactly when every markdown file it counts
    can be read and the README can be read and written; otherwise it ends
    with an exception before it has written anything. *)
Theorem update_readme_stats_runs (f : fs) (today : date) :
  (exists out f',
     UpdateStats.update_readme_stats f today = Some (out, f')) <->
  Forall (fun p => read_file f p <> None)
         (glob_md f [txt "quick-reference"]) /\
  Forall (fun p => read_file f p <> None)
         (rglob_md f [txt "detailed-guides"]) /\
  exists data, f [txt "README.md"] = Regular (Some data) true.
Proof.
  rewrite <- !count_files_some.
  unfold UpdateStats.update_readme_stats, UpdateStats.readme_stats,
    UpdateStats.count_quick_fixes, UpdateStats.count_detailed_guides.
  destruct (UpdateStats.count_files f (glob_md f _)) as [q|];
    [|split; [intros (? & ? & ?); discriminate
             | intros ((? & ?) & _); discriminate]].
  destruct (UpdateStats.count_files f (rglob_md f _)) as [d|];
    [|split; [intros (? & ? & ?); discriminate
             | intros (_ & (? & ?) & _); discriminate]].
  set (st := {| UpdateStats.total_issues := (q + d)%Z;
                UpdateStats.quick_fixes := q;
                UpdateStats.detailed_guides := d |}).
  destruct (new_stats_shape st today) as (b & -> & Hh & Hb).
  unfold read_file, write_file.
  destruct (f [txt "README.md"]) as [|[content|] [|]| |];
    try (split; [intros (? & ? & ?); discriminate
                | intros (_ & _ & ? & ?); discriminate]).
  - destruct (new_content_holds b Hb content) as (updated & -> & _).
    split; [intros _|]; eauto 6.
  - destruct (UpdateStats.new_content content _);
      (split; [intros (? & ? & ?); discriminate
              | intros (_ & _ & ? & ?); discriminate]).
Qed.

(** X15.  When the script has run, it has changed no file but the README, it
    has printed the counts it found, and the README it has written holds
    the statistics section with these counts and the date of the run. *)
Theorem update_readme_stats_writes (f : fs) (today : date)
        (out : list str) (f' : fs) :
  UpdateStats.update_readme_stats f today = Some (out, f') ->
  (forall q, q <> [txt "README.md"] -> f' q = f q) /\
  exists st updated,
    UpdateStats.readme_stats f = Some st /\
    out = UpdateStats.report st (iso_date today) /\
    read_file f' [txt "README.md"] = Some updated /\
    occurs (UpdateStats.new_stats st (iso_date today)) updated = true.
Proof.
  unfold UpdateStats.update_readme_stats.
  destruct (UpdateStats.readme_stats f) as [st|]; [|discriminate].
  destruct (read_file f [txt "README.md"]) as [content|]; [|discriminate].
  destruct (new_stats_shape st today) as (b & E & Hh & Hb). rewrite E.
  destruct (new_content_holds b Hb content) as (updated & -> & Ho).
  destruct (write_file f [txt "README.md"] updated) as [f1|] eqn:Ew;
    [|discriminate].
  intros H. injection H as <- <-. split.
  - intros q Hq. exact (write_file_other _ _ _ _ _ Ew Hq).
  - exists st, updated. split; [reflexivity|]. split; [reflexivity|].
    split; [exact (write_file_read _ _ _ _ Ew)|]. rewrite E. exact Ho.
Qed.

Lemma update_readme_stats_writes_witness :
  match
    UpdateStats.update_readme_stats
      (fun p =>
         if path_eqb p [txt "README.md"]
         then Regular (Some (txt "# Notes
## Statistics

old
## Usage
")) true
         else if path_eqb p [txt "quick-reference"]
         then Directory [[txt "quick-reference"; txt "git.md"]] []
         else if path_eqb p [txt "quick-reference"; txt "git.md"]
         then Regular (Some (txt "# Git
## Detached HEAD
## Merge conflict
")) false
         else Absent)
      {| year := 2024; month := 5; day := 17 |}
  with
  | Some (out, f') =>
      exists updated,
        out = [txt "Statistics updated:"; txt "- Total Issues: 1";
               txt "- Quick Fixes: 1"; txt "- Detailed Guides: 0";
               txt "- Last Updated: 2024-05-17"] /\
        read_file f' [txt "README.md"] = Some updated /\
        occurs (txt "## Statistics

- **Total Issues:** 1
- **Quick Fixes:** 1
- **Detailed Guides:** 0
- **Last Updated:** 2024-05-17
") updated = true
  | None => False
  end.
Proof.
  destruct (UpdateStats.update_readme_stats _ _) as [[out f']|] eqn:E;
    [|vm_compute in E; discriminate].
  destruct (update_readme_stats_writes _ _ _ _ E)
    as (_ & st & updated & Hst & Hout & Hr & Ho).
  vm_compute in Hst. injection Hst as <-.
  exists updated. split; [exact Hout|]. split; [exact Hr | exact Ho].
Defined.

(** X16.  A README without statistics section gets one: before its last
    section, where a line starts with "## " after the first line, and at
    its end otherwise. *)
Theorem statistics_section_added (st : UpdateStats.stats)
        (last_updated content : str) :
  UpdateStats.search_stats content = false ->
  let new_stats := UpdateStats.new_stats st last_updated in
  let sep := newline :: txt "## " in
  if occurs sep content
  then exists before last_section,
         content = before ++ sep ++ last_section /\
         occurs sep last_section = false /\
         UpdateStats.new_content content new_stats
         = Some (before ++ [newline] ++ new_stats ++ sep ++ last_section)
  else UpdateStats.new_content content new_stats
       = Some (content ++ [newline] ++ new_stats).
Proof.
  intros Hs new_stats sep.
  assert (E : exists b, new_stats = UpdateStats.stats_head ++ b)
    by (eexists; reflexivity).
  destruct E as [b E]. rewrite E.
  destruct (occurs sep content) eqn:Ho.
  - exact (new_content_insert b content Hs Ho).
  - exact (new_content_append b content Hs Ho).
Qed.

Lemma statistics_section_added_witness :
  exists before last_section,
    txt "# Notes
## Usage
text
## License
MIT
" = before ++ (newline :: txt "## ") ++ last_section /\
    occurs (newline :: txt "## ") last_section = false /\
    UpdateStats.new_content (txt "# Notes
## Usage
text
## License
MIT
")
      (UpdateStats.new_stats
         {| UpdateStats.total_issues := 3; UpdateStats.quick_fixes := 2;
            UpdateStats.detailed_guides := 1 |} (txt "2024-05-17"))
    = Some (before ++ [newline]
            ++ UpdateStats.new_stats
                 {| UpdateStats.total_issues := 3;
                    UpdateStats.quick_fixes := 2;
                    UpdateStats.detailed_guides := 1 |} (txt "2024-05-17")
            ++ (newline :: txt "## ") ++ last_section).
Proof.
  exact (statistics_section_added
           {| UpdateStats.total_issues := 3; UpdateStats.quick_fixes := 2;
              UpdateStats.detailed_guides := 1 |}
           (txt "2024-05-17") (txt "# Notes
## Usage
text
## License
MIT
") eq_refl).
Defined.

(** X17.  Running the script again on the same day changes nothing: the same
    lines are printed and every file is as the first run left it.  The
    README must not be one of the counted files, and must not be a text
    without any section that ends with the heading of the statistics and
    one line break. *)
Theorem update_readme_stats_idempotent (f : fs) (today : date)
        (out : list str) (f' : fs) :
  ~ In [txt "README.md"] (glob_md f [txt "quick-reference"]) ->
  ~ In [txt "README.md"] (rglob_md f [txt "detailed-guides"]) ->
  (forall content,
     read_file f [txt "README.md"] = Some content ->
     UpdateStats.search_stats content = false ->
     occurs (newline :: txt "## ") content = false ->
     ends_with (txt "## Statistics" ++ [newline]) content = false) ->
  UpdateStats.update_readme_stats f today = Some (out, f') ->
  exists f'',
    UpdateStats.update_readme_stats f' today = Some (out, f'') /\
    forall q, f'' q = f' q.
Proof.
  intros Hq Hd Hend.
  unfold UpdateStats.update_readme_stats.
  destruct (UpdateStats.readme_stats f) as [st|] eqn:Est; [|discriminate].
  destruct (read_file f [txt "README.md"]) as [content|] eqn:Er;
    [|discriminate].
  destruct (new_stats_shape st today) as (b & E & Hh & Hb). rewrite E.
  destruct (new_content_idem b Hh Hb content (Hend content eq_refl))
    as (updated & -> & Hagain).
  destruct (write_file f [txt "README.md"] updated) as [f1|] eqn:Ew;
    [|discriminate].
  intros H. injection H as <- <-.
  assert (Hother : forall q, q <> [txt "README.md"] -> f1 q = f q)
    by (intros q Hne; exact (write_file_other _ _ _ _ _ Ew Hne)).
  assert (Hst : UpdateStats.readme_stats f1 = Some st).
  { rewrite <- Est.
    unfold UpdateStats.readme_stats, UpdateStats.count_quick_fixes,
      UpdateStats.count_detailed_guides, glob_md, rglob_md.
    rewrite !Hother by discriminate.
    fold (glob_md f [txt "quick-reference"]).
    fold (rglob_md f [txt "detailed-guides"]).
    rewrite (count_files_ext f f1 (glob_md f [txt "quick-reference"])).
    2:{ intros p Hp. apply Hother. intros ->. contradiction. }
    rewrite (count_files_ext f f1 (rglob_md f [txt "detailed-guides"])).
    2:{ intros p Hp. apply Hother. intros ->. contradiction. }
    reflexivity. }
  rewrite Hst, (write_file_read _ _ _ _ Ew), E, Hagain.
  assert (Hw : f1 [txt "README.md"] = Regular (Some updated) true).
  { pose proof (write_file_read _ _ _ _ Ew) as Hr.
    unfold write_file in Ew.
    destruct (f [txt "README.md"]) as [|d [|]| |]; try discriminate.
    injection Ew as <-. now rewrite path_eqb_refl. }
  unfold write_file. rewrite Hw.
  eexists. split; [reflexivity|].
  intros q. cbn beta.
  destruct (path_eqb q [txt "README.md"]) eqn:Eq; [|reflexivity].
  unfold path_eqb in Eq.
  destruct (list_eq_dec str_eq_dec q [txt "README.md"]) as [->|];
    [now rewrite Hw | discriminate].
Qed.

Lemma update_readme_stats_idempotent_witness :
  match
    UpdateStats.update_readme_stats
      (fun p =>
         if path_eqb p [txt "README.md"]
         then Regular (Some (txt "# Notes
## Usage
")) true
         else if path_eqb p [txt "detailed-guides"]
         then Directory [] [[txt "detailed-guides"; txt "git"; txt "a.md"]]
         else if path_eqb p [txt "detailed-guides"; txt "git"; txt "a.md"]
         then Regular (Some (txt "# Git
## Detached HEAD
## Merge conflict
")) false
         else Absent)
      {| year := 2024; month := 5; day := 17 |}
  with
  | Some (out, f') =>
      exists f'',
        UpdateStats.update_readme_stats f'
          {| year := 2024; month := 5; day := 17 |} = Some (out, f'') /\
        forall q, f'' q = f' q
  | None => False
  end.
Proof.
  destruct (UpdateStats.update_readme_stats _ _) as [[out f']|] eqn:E;
    [|vm_compute in E; discriminate].
  apply (update_readme_stats_idempotent _ _ _ _) with (4 := E).
  - cbn. tauto.
  - cbn. intuition discriminate.
  - intros content H. vm_compute in H. injection H as <-. discriminate.
Defined.

(** The README that the exception of the last theorem is about: the
    second run removes the heading that the first run left in front of
    the section. *)
Example statistics_heading_twice :
  let new_stats :=
    UpdateStats.new_stats
      {| UpdateStats.total_issues := 0; UpdateStats.quick_fixes := 0;
         UpdateStats.detailed_guides := 0 |} (txt "2024-05-17") in
  UpdateStats.new_content (txt "## Statistics
") new_stats
  = Some (txt "## Statistics

" ++ new_stats) /\
  UpdateStats.new_content (txt "## Statistics

" ++ new_stats) new_stats
  = Some new_stats.
Proof. split; reflexivity. Qed.

(** The head of the section does not overlap with itself. *)
Lemma head_before_head x z :
  x <> [] ->
  starts_with UpdateStats.stats_head (x ++ UpdateStats.stats_head ++ z)
  = starts_with UpdateStats.stats_head x.
Proof.
  intros Hx. destruct x as [|c x]; [congruence|]. clear Hx.
  do 14 (destruct x as [|? x];
         [cbn; rewrite ?andb_false_r; reflexivity|]).
  reflexivity.
Qed.

Lemma occurs_suffix n x1 : forall x2,
  occurs n (x1 ++ x2) = false -> starts_with n x2 = false.
Proof.
  induction x1 as [|c x1 IH]; intros x2 H.
  - cbn [app] in H. rewrite occurs_eq in H.
    now apply orb_false_iff in H.
  - cbn [app] in H. rewrite occurs_eq in H.
    apply orb_false_iff in H. now apply IH.
Qed.

(** The lazy group runs up to the first line break that [##] follows. *)
Lemma lazy_body_until body rest :
  occurs (newline :: txt "##") body = false ->
  UpdateStats.section_ahead rest = true ->
  UpdateStats.lazy_body (body ++ rest) = (body, rest).
Proof.
  intros Hb Hr. induction body as [|c body IH].
  - cbn [app]. now rewrite lazy_body_eq, Hr.
  - rewrite occurs_eq in Hb. apply orb_false_iff in Hb.
    destruct Hb as [Hc Hb].
    cbn [app]. rewrite lazy_body_eq.
    assert (E : UpdateStats.section_ahead (c :: body ++ rest) = false).
    { cbn [UpdateStats.section_ahead].
      destruct body as [|d [|e body]]; cbn [app].
      - destruct rest as [|r rest];
          cbn [starts_with txt list_ascii_of_string];
          [apply andb_false_r|].
        cbn [UpdateStats.section_ahead starts_with txt list_ascii_of_string]
          in Hr.
        apply andb_true_iff in Hr. destruct Hr as [Hr _].
        apply is_char_eq in Hr. subst r.
        change (is_char "#" newline) with false. apply andb_false_r.
      - destruct rest as [|r rest];
          cbn [starts_with txt list_ascii_of_string];
          [now rewrite !andb_false_r|].
        cbn [UpdateStats.section_ahead starts_with txt list_ascii_of_string]
          in Hr.
        apply andb_true_iff in Hr. destruct Hr as [Hr _].
        apply is_char_eq in Hr. subst r.
        change (is_char "#" newline) with false. now rewrite !andb_false_r.
      - exact Hc. }
    rewrite E, (IH Hb). reflexivity.
Qed.

(** X18.  A README with one statistics section: the text before the section is
    kept, the section, from its heading up to the next line break that
    [##] follows or to the end, is replaced by the new one, and the text
    behind it is kept. *)
Theorem statistics_section_replaced (st : UpdateStats.stats) (today : date)
        (before body rest : str) :
  occurs UpdateStats.stats_head before = false ->
  occurs (newline :: txt "##") body = false ->
  UpdateStats.section_ahead rest = true ->
  UpdateStats.search_stats rest = false ->
  UpdateStats.new_content
    (before ++ UpdateStats.stats_head ++ body ++ rest)
    (UpdateStats.new_stats st (iso_date today))
  = Some (before ++ UpdateStats.new_stats st (iso_date today) ++ rest).
Proof.
  intros Hpre Hbody Hahead Hrest.
  destruct (new_stats_shape st today) as (b & -> & Hh & Hb).
  rewrite new_content_replace; [|assumption|].
  2:{ apply search_stats_intro. apply starts_with_app. }
  f_equal. rewrite sub_gaps.
  - f_equal.
    assert (Hm : UpdateStats.match_stats
                   (UpdateStats.stats_head ++ body ++ rest)
                 = Some (UpdateStats.stats_head ++ body, rest)).
    { unfold UpdateStats.match_stats.
      now rewrite starts_with_app, skipn_exact, lazy_body_until. }
    rewrite (sub_stats_hit _ _ _ _ Hm), expand_plain.
    now rewrite sub_stats_none.
  - intros x1 c x2 E.
    transitivity (starts_with UpdateStats.stats_head (c :: x2)).
    + apply (head_before_head (c :: x2) (body ++ rest)). discriminate.
    + apply (occurs_suffix _ x1). now rewrite <- E.
Qed.

Lemma statistics_section_replaced_witness :
  UpdateStats.new_content
    (txt "# Notes
" ++ UpdateStats.stats_head ++ txt "- **Total Issues:** 1
# not a section
" ++ txt "
## Usage
")
    (UpdateStats.new_stats
       {| UpdateStats.total_issues := 3; UpdateStats.quick_fixes := 2;
          UpdateStats.detailed_guides := 1 |}
       (iso_date {| year := 2024; month := 5; day := 17 |}))
  = Some (txt "# Notes
## Statistics

- **Total Issues:** 3
- **Quick Fixes:** 2
- **Detailed Guides:** 1
- **Last Updated:** 2024-05-17

## Usage
").
Proof.
  apply (statistics_section_replaced
           {| UpdateStats.total_issues := 3; UpdateStats.quick_fixes := 2;
              UpdateStats.detailed_guides := 1 |}
           {| year := 2024; month := 5; day := 17 |}
           (txt "# Notes
") (txt "- **Total Issues:** 1
# not a section
") (txt "
## Usage
")); reflexivity.
Defined.
